(** * Bezier editor: the timeline's curve core

    A shallow embedding of the anchor store, the absolute-anchor deriver, the
    value sampler and the drag handlers of [createTimeline], followed by the
    properties of the specification that concern them (Part III) and by
    further properties of the code (Part IV).

    Conventions of the embedding.
    - A JavaScript [number] is an exact rational ([Q]); numeric results are
      compared with [==].  [NaN], the infinities, rounding and division by
      zero are outside the model: the handlers divide by [zoom()], whose
      [x] the sources keep away from zero, and by the distance between two
      neighbours, which is not zero in a sorted store.  The statements
      are read in this exact arithmetic.  Those on the clamps of a position
      drag, on the round trip of a handle and on the place of the resolved
      controls, which rounding or a zero divisor would change, either give
      the result as the expression the code evaluates or carry the
      hypotheses under which the floating-point evaluation is exact
      ([whole] numbers, a zoom that is not zero).
    - An array is a [list]; an index is an integer ([Z]) because the code
      computes [index - 1] and hands indices to [splice]; reading outside
      the array gives [undefined] ([None]).
    - A thrown exception is the [Throw] outcome; code that reads and writes
      the anchor store runs in the state-and-exception monad [M].
    - The three source files are three revisions of one module.  What they
      share word for word ([absoluteAnchors], [lookupMapSegments],
      [getValue], [deleteAnchor]) is embedded once.  The drag handlers of
      src/src/create-timeline.tsx live in the module [CreateTimeline], those
      of part_001 (which part_000 repeats) in the module [Part001];
      [addAnchor] is the one of create-timeline.tsx and part_001,
      [addAnchor_part000] the one of part_000. *)

From Stdlib Require Import QArith Qabs Qround Qminmax Lqa ZArith Lia.
From stdpp Require Import base list option.

Local Open Scope Q_scope.

(* ================================================================== *)
(** * Part I: the program *)
(* ================================================================== *)

(** ** Data model ([types.ts] as used by the sources) *)

Record Vector : Type := { x : Q; y : Q }.

Record Controls : Type := { pre : option Vector; post : option Vector }.

(** [type Anchor = [Vector, { pre?: Vector; post?: Vector }?]]: the tuple's
    second component may be missing altogether. *)
Abbreviation Anchor := (Vector * option Controls)%type (only parsing).

Abbreviation Anchors := (list Anchor) (only parsing).

Inductive ControlType : Set := Pre | Post.

Definition control (type : ControlType) (c : Controls) : option Vector :=
  match type with Pre => pre c | Post => post c end.

Definition set_control (type : ControlType) (v : Vector) (c : Controls) : Controls :=
  match type with
  | Pre => {| pre := Some v; post := post c |}
  | Post => {| pre := pre c; post := Some v |}
  end.

(** ** Numbers *)

Definition Qltb (a b : Q) : bool := negb (Qle_bool b a).

(** [Math.floor], back in the number type. *)
Definition Math_floor (a : Q) : Q := inject_Z (Qfloor a).

(** ** Exceptions and the store monad *)

Inductive Exn : Set :=
| TypeError          (* reading through [undefined] *)
| PreconditionError  (* "Attempting to process a control without a paired anchor." *)
| AssertionError.    (* a fatal assertion of the sampler *)

Inductive Outcome (A : Type) : Type :=
| Ok (a : A)
| Throw (e : Exn).
Arguments Ok {A} a.
Arguments Throw {A} e.

#[global] Instance Outcome_ret : MRet Outcome := fun _ a => Ok a.
#[global] Instance Outcome_bind : MBind Outcome := fun _ _ f m =>
  match m with Ok a => f a | Throw e => Throw e end.

(** A computation over the anchor store: the store it leaves and either a
    result or the exception that interrupted it. *)
Definition M (A : Type) : Type := Anchors -> Anchors * Outcome A.

#[global] Instance M_ret : MRet M := fun _ a s => (s, Ok a).
#[global] Instance M_bind : MBind M := fun _ _ f m s =>
  match m s with
  | (s', Ok a) => f a s'
  | (s', Throw e) => (s', Throw e)
  end.

Definition get : M Anchors := fun s => (s, Ok s).
Definition put (s : Anchors) : M unit := fun _ => (s, Ok tt).
Definition lift {A} (o : Outcome A) : M A := fun s => (s, o).

(** ** Arrays *)

(** [l[i]]: [undefined] outside the array, negative indices included. *)
Definition item {A} (l : list A) (i : Z) : option A :=
  if (i <? 0)%Z then None else l !! Z.to_nat i.

(** Destructuring or reading a property of [undefined] throws. *)
Definition defined {A} (o : option A) : Outcome A :=
  match o with Some a => Ok a | None => Throw TypeError end.

(** [Array.prototype.findIndex], [-1] when nothing satisfies [p]. *)
Fixpoint findIndex_from {A} (p : A -> bool) (i : Z) (l : list A) : Z :=
  match l with
  | [] => (-1)%Z
  | a :: l' => if p a then i else findIndex_from p (i + 1)%Z l'
  end.
Definition findIndex {A} (p : A -> bool) (l : list A) : Z := findIndex_from p 0 l.

(** [Array.prototype.splice(start, deleteCount, ...items)] for an integer
    [start]: a negative [start] counts from the end, and both the start and
    the count are clamped to the array. *)
Definition splice {A} (l : list A) (start deleteCount : Z) (items : list A) : list A :=
  let len := Z.of_nat (length l) in
  let actualStart :=
    if (start <? 0)%Z then Z.max (len + start) 0 else Z.min start len in
  let actualDeleteCount := Z.min (Z.max deleteCount 0) (len - actualStart) in
  take (Z.to_nat actualStart) l ++ items
    ++ drop (Z.to_nat (actualStart + actualDeleteCount)) l.

(** [l.slice(0, -1)]. *)
Definition slice_0_m1 {A} (l : list A) : list A := take (length l - 1) l.

(** ** Vector math *)

(** Modelled from the spec: [lib/vector] is not among the sources; section
    4.1 gives [add], [subtract], [multiply(a, k)] and [divide(a, b)] as
    component-wise arithmetic.  This is [add] ([addVector] in part_000 and
    part_001, [vector.add] in create-timeline.tsx). *)
Definition addVector (a b : Vector) : Vector :=
  {| x := x a + x b; y := y a + y b |}.

(** Modelled from the spec: [subtract] of the missing [lib/vector],
    component-wise (section 4.1). *)
Definition subtractVector (a b : Vector) : Vector :=
  {| x := x a - x b; y := y a - y b |}.

(** Modelled from the spec: [multiply(a, k)] of the missing [lib/vector],
    both components by the scalar [k] (section 4.1). *)
Definition multiplyVector (a : Vector) (k : Q) : Vector :=
  {| x := x a * k; y := y a * k |}.

(** Modelled from the spec: [divide(a, b)] of the missing [lib/vector],
    component-wise (section 4.1). *)
Definition divideVector (a b : Vector) : Vector :=
  {| x := x a / x b; y := y a / y b |}.

(** ** The store's primitive writes ([setAnchors] of solid-js/store) *)

(** [setAnchors(index, 0, position)]: the path is walked through
    [anchors[index]], which must exist, and the position is overwritten. *)
Definition setAnchors_position (index : Z) (position : Vector) : M unit :=
  fun anchors =>
    match item anchors index with
    | Some (_, c) => (<[Z.to_nat index := (position, c)]> anchors, Ok tt)
    | None => (anchors, Throw TypeError)
    end.

(** [setAnchors(index, 1, type, control)]: the path is walked through
    [anchors[index][1]], which must exist, and its [type] entry is set. *)
Definition setAnchors_control (index : Z) (type : ControlType) (v : Vector) : M unit :=
  fun anchors =>
    match item anchors index with
    | Some (p, Some c) =>
        (<[Z.to_nat index := (p, Some (set_control type v c))]> anchors, Ok tt)
    | _ => (anchors, Throw TypeError)
    end.

(** ** The absolute-anchor deriver *)

(** Modelled from the spec: [utils/create-index-memo] is not among the
    sources; section 9 describes the derivation as a recomputation pass over
    an index-addressable array, so the callback is applied to every element
    with its index, in order. *)
Fixpoint createIndexMemo_from {A B} (f : A -> Z -> Outcome B) (i : Z) (l : list A)
  : Outcome (list B) :=
  match l with
  | [] => Ok []
  | a :: l' =>
      b ← f a i;
      bs ← createIndexMemo_from f (i + 1)%Z l';
      Ok (b :: bs)
  end.

(** Modelled from the spec: [createIndexMemo(list, callback)] of the missing
    [utils/create-index-memo], the pass above started at index 0. *)
Definition createIndexMemo {A B} (l : list A) (f : A -> Z -> Outcome B) : Outcome (list B) :=
  createIndexMemo_from f 0 l.

(** The callback of [absoluteAnchors]. *)
Definition absoluteAnchor (anchors : Anchors) (a : Anchor) (index : Z) : Outcome Anchor :=
  let '(point, relativeControls) := a in
  pre' ← match relativeControls ≫= pre with
         | Some pre =>
             prev ← defined (item anchors (index - 1));
             let deltaX := x point - x prev.1 in
             Ok (Some (addVector point {| x := deltaX * x pre * -(1); y := y pre |}))
         | None => Ok None
         end;
  post' ← match relativeControls ≫= post with
          | Some post =>
              next ← defined (item anchors (index + 1));
              let deltaX := x next.1 - x point in
              Ok (Some (addVector point {| x := deltaX * x post; y := y post |}))
          | None => Ok None
          end;
  Ok (point, Some {| pre := pre'; post := post' |}).

Definition absoluteAnchors (anchors : Anchors) : Outcome (list Anchor) :=
  createIndexMemo anchors (absoluteAnchor anchors).

(** ** Segments, sampling and the structural operations of [createTimeline]

    [lib/create-cubic-lookup-map] and [lib/get-value-from-segments] are not
    among the sources.  The code of [createTimeline] that calls them is
    embedded over them as parameters; Part II supplies the instance that
    follows the specification. *)

Section Timeline.

Variable LookupMap : Type.
Variable createLookupMap : Anchor -> Anchor -> LookupMap.

Record Segment : Type := { range : Q * Q; map : LookupMap }.

Variable getValueFromSegments : list Segment -> Q -> Outcome Q.

(** The callback of [lookupMapSegments]: [undefined] for the last anchor. *)
Definition lookupMapSegment (abs : list Anchor) (point : Anchor) (index : Z)
  : Outcome (option Segment) :=
  match item abs (index + 1) with
  | Some next =>
      Ok (Some {| range := (x point.1, x next.1);
                  map := createLookupMap point next |})
  | None => Ok None
  end.

Definition lookupMapSegments (anchors : Anchors) : Outcome (list (option Segment)) :=
  abs ← absoluteAnchors anchors;
  createIndexMemo abs (lookupMapSegment abs).

(** [... as Array<Segment>]: the cast is unchecked in the source; an
    [undefined] entry used as a segment would have its fields read. *)
Fixpoint as_segments (l : list (option Segment)) : Outcome (list Segment) :=
  match l with
  | [] => Ok []
  | o :: l' =>
      s ← defined o;
      ss ← as_segments l';
      Ok (s :: ss)
  end.

Definition getValue (anchors : Anchors) (time : Q) : Outcome Q :=
  all ← lookupMapSegments anchors;
  segments ← as_segments (slice_0_m1 all);
  getValueFromSegments segments time.

(** The tangent descriptor every new anchor starts with. *)
Definition default_control : Vector := {| x := 1 # 2; y := 0 |}.

(** The default parameter [value = getValue(time)] is evaluated on entry,
    before the store is touched. *)
Definition default_value (time : Q) (value : option Q) : M Q :=
  match value with
  | Some v => mret v
  | None => anchors ← get; lift (getValue anchors time)
  end.

(** [addAnchor] of src/src/create-timeline.tsx (and of part_001). *)
Definition addAnchor (time : Q) (value : option Q) : M unit :=
  value ← default_value time value;
  anchors ← get;
  let index := findIndex (fun a : Anchor => Qltb time (x a.1)) anchors in
  if (index =? -1)%Z then mret tt
  else
    put (splice anchors index 0
           [({| x := time; y := value |},
             Some {| pre := Some default_control; post := Some default_control |})]).

(** [deleteAnchor], the same in the three files. *)
Definition deleteAnchor (index : Z) : M unit :=
  anchors ← get;
  put (splice anchors index 1 []).

(** [{ ...controls, post: v }] and [{ ...controls, pre: v }]: spreading
    [undefined] contributes nothing. *)
Definition spread_with (type : ControlType) (v : Vector) (c : option Controls) : Controls :=
  set_control type v (default {| pre := None; post := None |} c).

(** [anchors[i][1] = controls]. *)
Definition assign_controls (i : Z) (f : option Controls -> Controls) (anchors : Anchors)
  : Outcome Anchors :=
  a ← defined (item anchors i);
  Ok (<[Z.to_nat i := (a.1, Some (f a.2))]> anchors).

(** [addAnchor] of part_000, which also appends and prepends. *)
Definition addAnchor_part000 (time : Q) (value : option Q) : M unit :=
  value ← default_value time value;
  anchors ← get;
  let index := findIndex (fun a : Anchor => Qltb time (x a.1)) anchors in
  let position := {| x := time; y := value |} in
  if (index =? -1)%Z then
    anchors' ← lift (assign_controls (Z.of_nat (length anchors) - 1)
                       (spread_with Post default_control) anchors);
    put (anchors' ++ [(position, Some {| pre := Some default_control; post := None |})])
  else if (index =? 0)%Z then
    anchors' ← lift (assign_controls 0 (spread_with Pre default_control) anchors);
    put ((position, Some {| pre := None; post := Some default_control |}) :: anchors')
  else
    put (splice anchors index 0
           [(position,
             Some {| pre := Some default_control; post := Some default_control |})]).

End Timeline.

Arguments range {LookupMap} _.
Arguments map {LookupMap} _.

(** ** Pointer sessions *)

(** Modelled from the spec: [utils/pointer-helper] is not among the sources;
    section 5 describes a drag as a sequence of delta events ended by the
    release of the pointer, so the callback runs once per event, in order,
    and an exception ends the session. *)
Fixpoint pointerHelper {E} (callback : E -> M unit) (events : list E) : M unit :=
  match events with
  | [] => mret tt
  | e :: es => _ ← callback e; pointerHelper callback es
  end.

(** What a pointer event carries for the handlers. *)
Record PointerEvent : Type := { delta : Vector; metaKey : bool }.

Definition pairedType (type : ControlType) : ControlType :=
  match type with Pre => Post | Post => Pre end.

Definition is_post (type : ControlType) : bool :=
  match type with Post => true | Pre => false end.

(** The absolute anchor [Timeline] renders at [index]: the element the
    [For] (or [Index]) callback receives from [absoluteAnchors]. *)
Definition rendered (index : Z) : M Anchor :=
  anchors ← get;
  abs ← lift (absoluteAnchors anchors);
  lift (defined (item abs index)).

(** ** The drag handlers of src/src/create-timeline.tsx *)

Module CreateTimeline.

Inductive Axis : Set := AxisX | AxisY.

Definition coord (type : Axis) (v : Vector) : Q :=
  match type with AxisX => x v | AxisY => y v end.

(** [typeof point === 'object' ? point[type] : point]: [project] and
    [unproject] take a vector or a number. *)
Definition valueOf (point : Vector + Q) (type : Axis) : Q :=
  match point with inl v => coord type v | inr value => value end.

Section View.

(** The vertical zoom and origin depend on the size of the element and on
    the padding; horizontally this file fixes [zoom().x] to 1 and
    [origin().x] to 0. *)
Variables zoomY originY : Q.

Definition zoom : Vector := {| x := 1; y := zoomY |}.
Definition origin : Vector := {| x := 0; y := originY |}.

Definition unproject (point : Vector) (type : Axis) : Q :=
  (coord type point - coord type origin) / coord type zoom.

Definition project (point : Vector + Q) (type : Axis) : Q :=
  (valueOf point type + coord type origin) * coord type zoom.

Definition onAnchorChange (type : ControlType) (index : Z) (position : Vector) : M unit :=
  anchors ← get;
  abs ← lift (absoluteAnchors anchors);
  a ← lift (defined (item abs index));
  c ← lift (defined (item abs (if is_post type then index + 1 else index - 1)%Z));
  let point := a.1 in
  let connectedPoint := c.1 in
  let absoluteX := unproject position AxisX in
  (* Clamp anchor w the connected point *)
  let absoluteX :=
    if (is_post type && Qltb (x connectedPoint) absoluteX)
       || (negb (is_post type) && Qltb absoluteX (x connectedPoint))
    then x connectedPoint else absoluteX in
  (* Clamp anchor w the current point *)
  let absoluteX :=
    if (is_post type && Qltb absoluteX (x point))
       || (negb (is_post type) && Qltb (x point) absoluteX)
    then x point else absoluteX in
  let deltaX := Qabs (x point - x connectedPoint) in
  let anchor := {| y := Math_floor (y position - y point);
                   x := Qabs (x point - absoluteX) / deltaX |} in
  setAnchors_control index type anchor.

Definition onPositionChange (index : Z) (position : Vector) : M unit :=
  anchors ← get;
  abs ← lift (absoluteAnchors anchors);
  let prev := fst <$> item abs (index - 1) in
  let next := fst <$> item abs (index + 1) in
  (* Clamp position w the previous anchor *)
  let position :=
    match prev with
    | Some prev =>
        if Qltb (x position - 1) (x prev)
        then {| x := x prev + 1; y := y position |} else position
    | None => position
    end in
  (* Clamp position w the next anchor *)
  let position :=
    match next with
    | Some next =>
        if Qltb (x next) (x position + 1)
        then {| x := x next - 1; y := y position |} else position
    | None => position
    end in
  setAnchors_position index position.

(** [Handle]: the position is copied when the pointer goes down; every
    event reports the initial position minus the zoomed delta, and the
    zoomed delta. *)
Definition Handle_onPointerDown (position : Vector)
    (onChange : Vector -> Vector -> M unit) (deltas : list Vector) : M unit :=
  pointerHelper
    (fun delta =>
       let delta := divideVector delta zoom in
       onChange (subtractVector position delta) delta)
    deltas.

(** [Anchor]: the [onChange] of the control [type] of the anchor rendered
    from [props] at [index]; with the modifier held, the control of the
    other side is moved by the opposite delta. *)
Definition Anchor_onControlChange (props : Anchor) (index : Z) (type : ControlType)
    (metaKey : bool) (position delta : Vector) : M unit :=
  _ ← onAnchorChange type index position;
  match (if metaKey then props.2 ≫= control (pairedType type) else None) with
  | Some paired =>
      onAnchorChange (pairedType type) index
        (subtractVector paired (multiplyVector delta (-(1))))
  | None => mret tt
  end.

(** A drag of the control [type] of [props]. *)
Definition dragControl (props : Anchor) (index : Z) (type : ControlType)
    (metaKey : bool) (deltas : list Vector) : M unit :=
  c ← lift (defined (props.2 ≫= control type));
  Handle_onPointerDown c (Anchor_onControlChange props index type metaKey) deltas.

(** A drag of the position of [props]. *)
Definition dragPosition (props : Anchor) (index : Z) (deltas : list Vector) : M unit :=
  Handle_onPointerDown props.1 (fun position _ => onPositionChange index position) deltas.

(** The [For] callback of [Timeline]: the drags of the anchor rendered at
    [index]. *)
Definition startControlDrag (type : ControlType) (index : Z) (metaKey : bool)
    (deltas : list Vector) : M unit :=
  props ← rendered index;
  dragControl props index type metaKey deltas.

Definition startPositionDrag (index : Z) (deltas : list Vector) : M unit :=
  props ← rendered index;
  dragPosition props index deltas.

End View.


Section Props.

(** [props.min] and [props.max], the value range of the timeline. *)
Variables props_min props_max : Q.

Section Memos.

(** The padding signals and [props.zoom?.y]. *)
Variables paddingMin paddingMax : Q.
Variable props_zoom_y : option Q.




End Memos.

Definition maxPaddingFromVector (value : Vector) : Q :=
  Qmax (y value) props_max - props_max.

Definition minPaddingFromVector (value : Vector) : Q :=
  props_min - Qmin (y value) props_min.

(** One round of the two assignments of [updatePadding]; the accumulator is
    the pair of the local variables [min] and [max]. *)
Definition padVector (acc : Q * Q) (value : Vector) : Q * Q :=
  (Qmax acc.1 (minPaddingFromVector value),
   Qmax acc.2 (maxPaddingFromVector value)).

(** The callback of the [forEach] of [updatePadding]; absent controls are
    destructured from the default [{}]. *)
Definition padAnchor (acc : Q * Q) (a : Anchor) : Q * Q :=
  let '(anchor, controls) := a in
  let acc := padVector acc anchor in
  let acc :=
    match controls ≫= pre with Some pre => padVector acc pre | None => acc end in
  match controls ≫= post with Some post => padVector acc post | None => acc end.

(** [updatePadding] over the absolute anchors: the values it hands to
    [setPaddingMin] and [setPaddingMax]. *)
Definition updatePadding (abs : Anchors) : Q * Q :=
  fold_left padAnchor abs (0, 0).

End Props.

End CreateTimeline.

(** ** The drag handlers of part_001 *)

Module Part001.

(** The result of [getPairedAnchor]: the empty array, or whatever the
    array read gave. *)
Inductive Paired : Type :=
| NoPair
| Read (a : option Anchor).

Definition getPairedAnchor (abs : list Anchor) (type : ControlType) (index : Z) : Paired :=
  if negb (is_post type) && (index =? 0)%Z then NoPair
  else if is_post type && (index =? Z.of_nat (length abs) - 1)%Z then NoPair
  else Read (item abs (if is_post type then index + 1 else index - 1)%Z).

(** [const [p] = getPairedAnchor(...)]. *)
Definition first (r : Paired) : Outcome (option Vector) :=
  match r with
  | NoPair => Ok None
  | Read (Some a) => Ok (Some a.1)
  | Read None => Throw TypeError
  end.

Definition absoluteToRelativeControl (abs : list Anchor) (type : ControlType)
    (index : Z) (absoluteControl : Vector) : Outcome Vector :=
  a ← defined (item abs index);
  let position := a.1 in
  pairedPosition ← first (getPairedAnchor abs type index);
  match pairedPosition with
  | None => Throw PreconditionError
  | Some pairedPosition =>
      let '(min, max) :=
        if is_post type then (position, pairedPosition)
        else (pairedPosition, position) in
      (* Clamp x to ensure monotonicity of the curve *)
      let x' := Qmax (x min) (Qmin (x max) (x absoluteControl)) in
      Ok {| y := Math_floor (y absoluteControl - y position);
            x := Qabs (x position - x') / Qabs (x position - x pairedPosition) |}
  end.

(** A number used as a condition: [undefined] and 0 are falsy. *)
Definition truthy (r : option Q) : bool :=
  match r with Some r => negb (Qeq_bool r 0) | None => false end.

Section View.

Variable zoom : Vector.

(** The callback [onControlDragStart] hands to [pointerHelper]. *)
Definition onControlDrag (type : ControlType) (index : Z)
    (initialControl : Vector) (ratio : option Q) (e : PointerEvent) : M unit :=
  let delta := divideVector (delta e) zoom in
  let absoluteControl := subtractVector initialControl delta in
  anchors ← get;
  abs ← lift (absoluteAnchors anchors);
  control ← lift (absoluteToRelativeControl abs type index absoluteControl);
  _ ← setAnchors_control index type control;
  (* Symmetric dragging of paired control *)
  match ratio with
  | Some r =>
      if metaKey e && truthy ratio
      then setAnchors_control index (pairedType type)
             {| x := x control; y := y control * r |}
      else mret tt
  | None => mret tt
  end.

(** A drag starts from a rendered control, so [controls![type]!] exists.
    Without a controls object the source throws the [TypeError] of reading
    through [undefined].  With a controls object that lacks the [type]
    entry the source spreads [undefined] into an empty object and goes on
    with coordinates that are no numbers, which the number model does not
    hold: the embedding stops with [TypeError] there as well, and no
    property below is about a drag of a control that does not exist. *)
Definition onControlDragStart (type : ControlType) (anchor : Anchor) (index : Z)
    (events : list PointerEvent) : M unit :=
  let '(position, controls) := anchor in
  initialControl ← lift (defined (controls ≫= control type));
  anchors ← get;
  abs ← lift (absoluteAnchors anchors);
  prePosition ← lift (first (getPairedAnchor abs Pre index));
  postPosition ← lift (first (getPairedAnchor abs Post index));
  let preRange := subtractVector position <$> prePosition in
  let postRange := subtractVector position <$> postPosition in
  let ratio :=
    match preRange, postRange with
    | Some preRange, Some postRange =>
        Some (if is_post type then x preRange / x postRange
              else x postRange / x preRange)
    | _, _ => None
    end in
  pointerHelper (onControlDrag type index initialControl ratio) events.

(** The callback [onPositionDragStart] hands to [pointerHelper]. *)
Definition onPositionDrag (index : Z) (initialPosition : Vector)
    (pre post : option Vector) (e : PointerEvent) : M unit :=
  let delta := divideVector (delta e) zoom in
  let position := subtractVector initialPosition delta in
  (* Clamp position with the pre-anchor's position *)
  let position :=
    match pre with
    | Some pre =>
        if Qltb (x position - 1) (x pre)
        then {| x := x pre + 1; y := y position |} else position
    | None => position
    end in
  (* Clamp position with the pre-anchor's position *)
  let position :=
    match post with
    | Some post =>
        if Qltb (x post) (x position + 1)
        then {| x := x post - 1; y := y position |} else position
    | None => position
    end in
  setAnchors_position index position.

Definition onPositionDragStart (anchor : Anchor) (index : Z)
    (events : list PointerEvent) : M unit :=
  let initialPosition := anchor.1 in
  anchors ← get;
  abs ← lift (absoluteAnchors anchors);
  pre ← lift (first (getPairedAnchor abs Pre index));
  post ← lift (first (getPairedAnchor abs Post index));
  pointerHelper (onPositionDrag index initialPosition pre post) events.

(** The [Index] callback of [Timeline]: the handlers receive the absolute
    anchor rendered at [index]. *)
Definition startControlDrag (type : ControlType) (index : Z)
    (events : list PointerEvent) : M unit :=
  anchor ← rendered index;
  onControlDragStart type anchor index events.

Definition startPositionDrag (index : Z) (events : list PointerEvent) : M unit :=
  anchor ← rendered index;
  onPositionDragStart anchor index events.

End View.

End Part001.

(** ** The view of part_000 *)

Module Part000.

Section Sheet.

(** [sheet.pan()] and [sheet.zoomX()] come from the sheet the timeline is
    drawn on; the vertical zoom and origin are as in the other files.
    [zoom] is the memo once the element has been measured. *)
Variables pan zoomX zoomY originY : Q.

Definition zoom : Vector := {| x := zoomX; y := zoomY |}.
Definition origin : Vector := {| x := pan; y := originY |}.

Definition project (point : Vector + Q) (type : CreateTimeline.Axis) : Q :=
  (CreateTimeline.valueOf point type + CreateTimeline.coord type origin)
  * CreateTimeline.coord type zoom.

Definition unproject (point : Vector + Q) (type : CreateTimeline.Axis) : Q :=
  (CreateTimeline.valueOf point type + CreateTimeline.coord type origin)
  / CreateTimeline.coord type zoom.


End Sheet.

Section Props.

Variables props_min props_max : Q.

Definition maxPaddingFromVector (value : Vector) : Q :=
  Qmax (y value) props_max - props_max + 100.

Definition minPaddingFromVector (value : Vector) : Q :=
  props_min - Qmin (y value) props_min + 100.

Definition padVector (acc : Q * Q) (value : Vector) : Q * Q :=
  (Qmax acc.1 (minPaddingFromVector value),
   Qmax acc.2 (maxPaddingFromVector value)).

Definition padAnchor (acc : Q * Q) (a : Anchor) : Q * Q :=
  let '(anchor, controls) := a in
  let acc := padVector acc anchor in
  let acc :=
    match controls ≫= pre with Some pre => padVector acc pre | None => acc end in
  match controls ≫= post with Some post => padVector acc post | None => acc end.

Definition updatePadding (abs : Anchors) : Q * Q :=
  fold_left padAnchor abs (0, 0).

End Props.

End Part000.

(* ================================================================== *)
(** * Part II: the sampler, from the specification *)
(* ================================================================== *)

Module Sampler.

Section Resolution.

(** The fixed number of parametric steps of a lookup map. *)
Variable resolution : nat.

(** Modelled from the spec: one coordinate of the cubic Bezier piece of
    section 4.4, with control values [p0 .. p3]; part of the missing
    [lib/create-cubic-lookup-map]. *)
Definition cubic (p0 p1 p2 p3 t : Q) : Q :=
  let u := 1 - t in
  u * u * u * p0 + 3 * (u * u * t) * p1 + 3 * (u * t * t) * p2 + t * t * t * p3.

(** Modelled from the spec: the point [x(t), y(t)] of the piece of
    section 4.4; part of the missing [lib/create-cubic-lookup-map]. *)
Definition bezier (p0 p1 p2 p3 : Vector) (t : Q) : Vector :=
  {| x := cubic (x p0) (x p1) (x p2) (x p3) t;
     y := cubic (y p0) (y p1) (y p2) (y p3) t |}.

(** Modelled from the spec: the parameter of the [k]-th sample, the
    parametric domain [0, 1] of section 4.4 cut in [resolution] steps; part
    of the missing [lib/create-cubic-lookup-map]. *)
Definition step (k : nat) : Q :=
  inject_Z (Z.of_nat k) / inject_Z (Z.of_nat resolution).

(** Modelled from the spec: [lib/create-cubic-lookup-map] is not among the
    sources.  Section 4.4: for the pair [(A, B)] with control points
    [A.position, A.post, B.pre, B.position] the builder samples
    [x(t), y(t)] over [t] in [0, 1] at a fixed sample count; where a handle
    is absent the piece is the straight line of section 4.7, whose samples
    are its two ends. *)
Definition createLookupMap (a b : Anchor) : list Vector :=
  match a.2 ≫= post, b.2 ≫= pre with
  | Some c1, Some c2 =>
      (fun k => bezier a.1 c1 c2 b.1 (step k)) <$> seq 0 (S resolution)
  | _, _ => [a.1; b.1]
  end.

End Resolution.

(** Modelled from the spec: the linear interpolation between two
    bracketing samples of section 4.4; part of the missing lookup. *)
Definition interpolate (a b : Vector) (time : Q) : Q :=
  y a + (time - x a) / (x b - x a) * (y b - y a).

(** Modelled from the spec: the query side of the lookup map, section 4.4:
    locate the bracketing samples and interpolate linearly between them.
    The first bracket that contains [time] is taken; a bracket of zero
    width is the degenerate geometry that section 7 makes a fatal
    assertion, and so is a query that no bracket contains. *)
Fixpoint lookup (samples : list Vector) (time : Q) : Outcome Q :=
  match samples with
  | a :: (b :: _) as rest =>
      if Qle_bool (x a) time && Qle_bool time (x b)
      then if Qeq_bool (x a) (x b) then Throw AssertionError
           else Ok (interpolate a b time)
      else lookup rest time
  | _ => Throw AssertionError
  end.

(** Modelled from the spec: a segment's closed [x] range (section 3)
    contains [time]; part of the missing [lib/get-value-from-segments]. *)
Definition contains (s : Segment (list Vector)) (time : Q) : bool :=
  Qle_bool (range s).1 time && Qle_bool time (range s).2.

(** Modelled from the spec: [lib/get-value-from-segments] is not among the
    sources.  Section 4.5: locate the segment whose [x] range contains
    [time] and return that segment's lookup result.  The first such segment
    is taken.  A time outside every range is left unspecified by the
    specification; here it is a failed assertion, and no property below
    depends on that choice. *)
Definition getValueFromSegments (segments : list (Segment (list Vector))) (time : Q)
  : Outcome Q :=
  match List.find (fun s => contains s time) segments with
  | Some s => lookup (map s) time
  | None => Throw AssertionError
  end.

End Sampler.

(** The value sampler of [createTimeline] over the sampler of the
    specification. *)
Definition sampledValue (resolution : nat) : Anchors -> Q -> Outcome Q :=
  getValue (list Vector) (Sampler.createLookupMap resolution)
    Sampler.getValueFromSegments.

(* ================================================================== *)
(** * Part III: properties *)
(* ================================================================== *)

(** ** Vocabulary *)

(** Two vectors denote the same point. *)
Definition veq (v w : Vector) : Prop := x v == x w /\ y v == y w.

(** The store's invariant: anchors strictly increasing in time. *)
Fixpoint time_sorted (anchors : Anchors) : Prop :=
  match anchors with
  | a :: (b :: _) as rest => x a.1 < x b.1 /\ time_sorted rest
  | _ => True
  end.

(** The data model's rule for handles: [pre] only with a previous
    neighbour, [post] only with a next one.  [first] tells whether the head
    of the list is the first anchor of the sequence. *)
Fixpoint handles_face (first : bool) (anchors : Anchors) : Prop :=
  match anchors with
  | [] => True
  | a :: rest =>
      (first = true -> a.2 ≫= pre = None)
      /\ (rest = [] -> a.2 ≫= post = None)
      /\ handles_face false rest
  end.

Definition handles_face_neighbours (anchors : Anchors) : Prop :=
  handles_face true anchors.

(** The specification's formulas of section 4.3, word for word. *)
Definition spec_pre_absolute (position prev p : Vector) : Vector :=
  addVector position {| x := (x position - x prev) * (- x p); y := y p |}.
Definition spec_post_absolute (position next p : Vector) : Vector :=
  addVector position {| x := (x next - x position) * x p; y := y p |}.

(** What the deriver returns at index [i]. *)
Definition resolved_at (anchors : Anchors) (i : nat) (position : Vector)
    (controls : option Controls) (abs : list Anchor) (c : Controls) : Prop :=
  absoluteAnchors anchors = Ok abs
  /\ abs !! i = Some (position, Some c)
  /\ match controls ≫= pre with
     | Some p =>
         exists (prev : Anchor) (v : Vector),
           item anchors (Z.of_nat i - 1) = Some prev
           /\ pre c = Some v
           /\ veq v (spec_pre_absolute position prev.1 p)
     | None => pre c = None
     end
  /\ match controls ≫= post with
     | Some p =>
         exists (next : Anchor) (v : Vector),
           item anchors (Z.of_nat i + 1) = Some next
           /\ post c = Some v
           /\ veq v (spec_post_absolute position next.1 p)
     | None => post c = None
     end.

(** A three-anchor store built the way [addAnchor] of part_000 builds it. *)
Definition three_anchors : Anchors :=
  [ ({| x := 0; y := 0 |}, Some {| pre := None; post := Some default_control |});
    ({| x := 5; y := 5 |}, Some {| pre := Some default_control; post := Some default_control |});
    ({| x := 10; y := 10 |}, Some {| pre := Some default_control; post := None |}) ].

(** The two clamps of part_001's [absoluteToRelativeControl], seen from the
    anchor at [p] with its paired neighbour at [q]. *)
Definition clamped (type : ControlType) (p q a : Q) : Q :=
  if is_post type then Qmax p (Qmin q a) else Qmax q (Qmin p a).

(** The candidate does not lie strictly between the anchor and its paired
    neighbour. *)
Definition outside (type : ControlType) (p q a : Q) : Prop :=
  if is_post type then a <= p \/ q <= a else p <= a \/ a <= q.

(** The two clamps of [onAnchorChange], in the order the code applies them. *)
Definition clamped_twice (type : ControlType) (p q a : Q) : Q :=
  let a :=
    if (is_post type && Qltb q a) || (negb (is_post type) && Qltb a q)
    then q else a in
  if (is_post type && Qltb a p) || (negb (is_post type) && Qltb p a)
  then p else a.

(** The descriptor stored for the side [type] of the anchor at [i]. *)
Definition stored_control (anchors : Anchors) (i : nat) (type : ControlType)
  : option Vector :=
  a ← anchors !! i; c ← a.2; control type c.

(** The index of the paired neighbour of the side [type]. *)
Definition pairedIndex (type : ControlType) (i : nat) : Z :=
  (if is_post type then Z.of_nat i + 1 else Z.of_nat i - 1)%Z.

(** The descriptor part_001 computes for the candidate [v]. *)
Definition relativeControl (type : ControlType) (position paired v : Vector) : Vector :=
  {| y := Math_floor (y v - y position);
     x := Qabs (x position - clamped type (x position) (x paired) (x v))
          / Qabs (x position - x paired) |}.

(** The controls an update of part_001's control drag leaves at the
    dragged anchor. *)
Definition draggedControls (type : ControlType) (r : Vector) (ratio : option Q)
    (metaKey : bool) (c : Controls) : Controls :=
  match ratio with
  | Some k =>
      if metaKey && Part001.truthy ratio
      then set_control (pairedType type) {| x := x r; y := y r * k |}
             (set_control type r c)
      else set_control type r c
  | None => set_control type r c
  end.

(** A store with neighbours at unequal distances from the middle anchor. *)
Definition uneven_anchors : Anchors :=
  [ ({| x := 0; y := 0 |}, Some {| pre := None; post := Some default_control |});
    ({| x := 10; y := 0 |}, Some {| pre := Some default_control; post := Some default_control |});
    ({| x := 30; y := 0 |}, Some {| pre := Some default_control; post := None |}) ].

(** The side [type] of the anchor at [index] has no neighbour to refer to. *)
Definition unpaired (anchors : Anchors) (type : ControlType) (index : Z) : Prop :=
  (type = Pre /\ index = 0%Z)
  \/ (type = Post /\ index = (Z.of_nat (length anchors) - 1)%Z).

(** The candidate lies strictly between the anchor at [p] and its paired
    neighbour at [q]: no clamp applies. *)
Definition between (type : ControlType) (p q a : Q) : Prop :=
  if is_post type then p < a /\ a < q else q < a /\ a < p.


(** The ratio [onControlDragStart] computes when both neighbours exist. *)
Definition symmetricRatio (type : ControlType) (position prePosition postPosition : Vector)
  : Q :=
  if is_post type
  then x (subtractVector position prePosition) / x (subtractVector position postPosition)
  else x (subtractVector position postPosition) / x (subtractVector position prePosition).

(** The two clamps of a position update, in the order the code applies
    them, against the positions of the previous and the next anchor. *)
Definition clampedPosition (pre post : option Vector) (position : Vector) : Vector :=
  let position :=
    match pre with
    | Some pre =>
        if Qltb (x position - 1) (x pre)
        then {| x := x pre + 1; y := y position |} else position
    | None => position
    end in
  match post with
  | Some post =>
      if Qltb (x post) (x position + 1)
      then {| x := x post - 1; y := y position |} else position
  | None => position
  end.

(** The store after an update of a position drag: only the anchor at [i]
    moved, it kept its controls, and it lies at least one unit from each
    neighbour it has. *)
Definition moved_within (anchors after : Anchors) (i : nat) (c : option Controls) : Prop :=
  exists q : Vector,
    after = <[i := (q, c)]> anchors
    /\ (forall a : Anchor, item anchors (Z.of_nat i - 1) = Some a -> x a.1 + 1 <= x q)
    /\ (forall b : Anchor, item anchors (Z.of_nat i + 1) = Some b -> x q <= x b.1 - 1).

(** The neighbours of the anchor at [i], where it has two, are at least two
    units apart. *)
Definition roomy (anchors : Anchors) (i : nat) : Prop :=
  forall a b : Anchor,
    item anchors (Z.of_nat i - 1) = Some a ->
    item anchors (Z.of_nat i + 1) = Some b ->
    x a.1 + 2 <= x b.1.

(** A store whose outer anchors are one unit apart. *)
Definition narrow_anchors : Anchors :=
  [ ({| x := 0; y := 0 |}, None);
    ({| x := 1 # 2; y := 0 |}, None);
    ({| x := 1; y := 0 |}, None) ].




(** The store of the specification's scenarios, with the handles that face
    the other anchor. *)
Definition two_anchors : Anchors :=
  [ ({| x := 0; y := 0 |}, Some {| pre := None; post := Some default_control |});
    ({| x := 10; y := 10 |}, Some {| pre := Some default_control; post := None |}) ].

(** [addAnchor] over the sampler of Part II, at four steps per segment. *)
Definition sampledAddAnchor : Q -> option Q -> M unit :=
  addAnchor (list Vector) (Sampler.createLookupMap 4) Sampler.getValueFromSegments.
Definition sampledAddAnchor_part000 : Q -> option Q -> M unit :=
  addAnchor_part000 (list Vector) (Sampler.createLookupMap 4) Sampler.getValueFromSegments.

(** The control points of the piece from [a] to [b], when both exist, lie
    between the two anchors in time. *)
Definition controls_within (a b : Anchor) : Prop :=
  forall c1 c2 : Vector,
    a.2 ≫= post = Some c1 -> b.2 ≫= pre = Some c2 ->
    (x a.1 <= x c1 /\ x c1 <= x b.1) /\ (x a.1 <= x c2 /\ x c2 <= x b.1).

(** The data model's range for stored handles: the relative [x] of a
    descriptor is a fraction in [0, 1]. *)
Definition normalized (o : option Vector) : Prop :=
  match o with Some h => 0 <= x h /\ x h <= 1 | None => True end.

Definition handles_normalized (anchors : Anchors) : Prop :=
  Forall (fun a : Anchor => normalized (a.2 ≫= pre) /\ normalized (a.2 ≫= post)) anchors.

(** The ratio [onControlDragStart] computes for the anchor at [i]:
    [undefined] unless both neighbours exist. *)
Definition dragRatio (anchors : Anchors) (type : ControlType) (i : nat)
    (position : Vector) : option Q :=
  match subtractVector position <$> (fst <$> item anchors (Z.of_nat i - 1)),
        subtractVector position <$> (fst <$> item anchors (Z.of_nat i + 1)) with
  | Some preRange, Some postRange =>
      Some (if is_post type then x preRange / x postRange
            else x postRange / x preRange)
  | _, _ => None
  end.

(** The same pointer event without the modifier key. *)
Definition released (e : PointerEvent) : PointerEvent :=
  {| delta := delta e; metaKey := false |}.



(** A number at which the arithmetic of the clamps is exact in JavaScript
    too: an integer of magnitude at most [2^52], so that it, its sum with 1
    and its difference from another such number are all held exactly by a
    [number]. *)
Definition whole (q : Q) : Prop :=
  exists z : Z, q == inject_Z z /\ (Z.abs z <= 2 ^ 52)%Z.

(** The times of the anchors are such numbers. *)
Definition whole_times (anchors : Anchors) : Prop :=
  Forall (fun a : Anchor => whole (x a.1)) anchors.

(** ** Arrays and the indexed pass *)

Lemma item_nat {A} (l : list A) (i : nat) : item l (Z.of_nat i) = l !! i.
Proof.
  unfold item. destruct (Z.ltb_spec (Z.of_nat i) 0); [lia|].
  by rewrite Nat2Z.id.
Qed.

Lemma item_succ {A} (l : list A) (i : nat) : item l (Z.of_nat i + 1) = l !! S i.
Proof. replace (Z.of_nat i + 1)%Z with (Z.of_nat (S i)) by lia. apply item_nat. Qed.

Lemma item_pred {A} (l : list A) (i : nat) :
  item l (Z.of_nat i - 1) = match i with O => None | S j => l !! j end.
Proof.
  destruct i as [|j]; [done|].
  replace (Z.of_nat (S j) - 1)%Z with (Z.of_nat j) by lia. apply item_nat.
Qed.

Lemma item_Some {A} (l : list A) (i : Z) (a : A) :
  item l i = Some a -> (0 <= i)%Z /\ l !! Z.to_nat i = Some a.
Proof. unfold item. destruct (Z.ltb_spec i 0); [done|]. auto. Qed.

Lemma createIndexMemo_from_Ok {A B} (f : A -> Z -> Outcome B) (l : list A) :
  forall (i : Z) (bs : list B),
    createIndexMemo_from f i l = Ok bs ->
    length bs = length l
    /\ forall (k : nat) (a : A), l !! k = Some a ->
         exists b, bs !! k = Some b /\ f a (i + Z.of_nat k)%Z = Ok b.
Proof.
  induction l as [|a l IH]; intros i bs H; simpl in H.
  - inversion H; subst. split; [done|]. intros k a Hk. done.
  - destruct (f a i) as [b|e] eqn:Hf; [|done]. simpl in H.
    destruct (createIndexMemo_from f (i + 1) l) as [bs'|e] eqn:Hr; [|done].
    simpl in H. inversion H; subst. destruct (IH _ _ Hr) as [Hlen Hk].
    split; [simpl; by rewrite Hlen|].
    intros [|k] a' Ha'.
    + inversion Ha'; subst. exists b. by rewrite Z.add_0_r.
    + destruct (Hk k a' Ha') as (b' & ? & Hb'). exists b'. split; [done|].
      by replace (i + Z.of_nat (S k))%Z with (i + 1 + Z.of_nat k)%Z by lia.
Qed.

Lemma createIndexMemo_from_total {A B} (f : A -> Z -> Outcome B) (l : list A) :
  forall i : Z,
    (forall (k : nat) (a : A), l !! k = Some a -> exists b, f a (i + Z.of_nat k)%Z = Ok b) ->
    exists bs, createIndexMemo_from f i l = Ok bs.
Proof.
  induction l as [|a l IH]; intros i H; simpl.
  - by exists [].
  - destruct (H 0%nat a eq_refl) as [b Hb]. rewrite Z.add_0_r in Hb. rewrite Hb. simpl.
    destruct (IH (i + 1)%Z) as [bs Hbs].
    + intros k a' Ha'. destruct (H (S k) a' Ha') as [b' Hb']. exists b'.
      by replace (i + 1 + Z.of_nat k)%Z with (i + Z.of_nat (S k))%Z by lia.
    + rewrite Hbs. simpl. by eexists.
Qed.

Lemma createIndexMemo_Ok {A B} (f : A -> Z -> Outcome B) (l : list A) (bs : list B) :
  createIndexMemo l f = Ok bs ->
  length bs = length l
  /\ forall (k : nat) (a : A), l !! k = Some a ->
       exists b, bs !! k = Some b /\ f a (Z.of_nat k) = Ok b.
Proof. intros H. by apply createIndexMemo_from_Ok in H. Qed.

Lemma createIndexMemo_total {A B} (f : A -> Z -> Outcome B) (l : list A) :
  (forall (k : nat) (a : A), l !! k = Some a -> exists b, f a (Z.of_nat k) = Ok b) ->
  exists bs, createIndexMemo l f = Ok bs.
Proof. intros H. by apply createIndexMemo_from_total. Qed.

(** ** Sortedness and handle placement, by index *)

Lemma time_sorted_adjacent (anchors : Anchors) :
  time_sorted anchors ->
  forall (i : nat) (a b : Anchor),
    anchors !! i = Some a -> anchors !! S i = Some b -> x a.1 < x b.1.
Proof.
  induction anchors as [|a0 l IH]; intros Hs i a b Ha Hb; [done|].
  destruct l as [|b0 l']; [done|]. destruct Hs as [Hlt Hs].
  destruct i as [|i]; simpl in *.
  - by inversion Ha; inversion Hb; subst.
  - by apply (IH Hs i a b).
Qed.

Lemma time_sorted_lt (anchors : Anchors) :
  time_sorted anchors ->
  forall (i j : nat) (a b : Anchor),
    anchors !! i = Some a -> anchors !! j = Some b -> (i < j)%nat -> x a.1 < x b.1.
Proof.
  intros Hs i j. induction j as [|j IH]; intros a b Ha Hb Hij; [lia|].
  destruct (decide (i = j)) as [->|Hne].
  - by apply (time_sorted_adjacent _ Hs j).
  - assert (Hj : is_Some (anchors !! j)).
    { apply lookup_lt_is_Some. apply lookup_lt_Some in Hb. lia. }
    destruct Hj as [c Hc].
    apply Qlt_trans with (x c.1).
    + apply IH; [done|done|lia].
    + by apply (time_sorted_adjacent _ Hs j).
Qed.

Lemma handles_face_lookup (anchors : Anchors) :
  forall first : bool,
    handles_face first anchors ->
    forall (i : nat) (a : Anchor),
      anchors !! i = Some a ->
      (is_Some (a.2 ≫= pre) -> first = false \/ (0 < i)%nat)
      /\ (is_Some (a.2 ≫= post) -> (S i < length anchors)%nat).
Proof.
  induction anchors as [|a0 l IH]; intros first H i a Hi; [done|].
  destruct H as (Hpre & Hpost & Hrest).
  destruct i as [|i]; simpl in *.
  - inversion Hi; subst. split.
    + intros [p Hp]. destruct first; [|by left]. rewrite Hpre in Hp; done.
    + intros [p Hp]. destruct l; [|simpl; lia]. rewrite Hpost in Hp; done.
  - destruct (IH false Hrest i a Hi) as [H1 H2]. split.
    + intros _. right. lia.
    + intros Hp. specialize (H2 Hp). lia.
Qed.

(** ** The absolute-anchor deriver *)

Lemma absoluteAnchors_total (anchors : Anchors) :
  handles_face_neighbours anchors -> exists abs, absoluteAnchors anchors = Ok abs.
Proof.
  intros Hf. apply createIndexMemo_total. intros k [point rc] Hk.
  destruct (handles_face_lookup _ _ Hf k _ Hk) as [Hpre Hpost]. simpl in *.
  unfold absoluteAnchor. rewrite item_pred, item_succ.
  destruct (rc ≫= pre) as [p|] eqn:Ep.
  - destruct Hpre as [?|Hk0]; [by eexists|done|].
    destruct k as [|j]; [lia|].
    assert (Hj : is_Some (anchors !! j)).
    { apply lookup_lt_is_Some. apply lookup_lt_Some in Hk. lia. }
    destruct Hj as [prev Hprev]. simpl. rewrite Hprev. simpl.
    destruct (rc ≫= post) as [q|] eqn:Eq; [|by eexists].
    destruct (lookup_lt_is_Some_2 anchors (S (S j))) as [next ->];
      [apply Hpost; by eexists|]. by eexists.
  - simpl. destruct (rc ≫= post) as [q|] eqn:Eq; [|by eexists].
    destruct (lookup_lt_is_Some_2 anchors (S k)) as [next ->];
      [apply Hpost; by eexists|]. by eexists.
Qed.

Lemma absoluteAnchors_lookup (anchors abs : list Anchor) (i : nat) (a : Anchor) :
  absoluteAnchors anchors = Ok abs ->
  anchors !! i = Some a ->
  exists b, abs !! i = Some b /\ absoluteAnchor anchors a (Z.of_nat i) = Ok b.
Proof. intros H Hi. apply createIndexMemo_Ok in H as [_ H]. by apply H. Qed.

Lemma absoluteAnchors_length (anchors abs : list Anchor) :
  absoluteAnchors anchors = Ok abs -> length abs = length anchors.
Proof. intros H. by apply createIndexMemo_Ok in H as [? _]. Qed.

(** The deriver never changes a position. *)
Lemma absoluteAnchor_position (anchors : Anchors) (a b : Anchor) (i : Z) :
  absoluteAnchor anchors a i = Ok b -> b.1 = a.1.
Proof.
  destruct a as [point rc]. unfold absoluteAnchor. intros H.
  destruct (rc ≫= pre); [destruct (defined (item anchors (i - 1))); [|done]|];
    (destruct (rc ≫= post); [destruct (defined (item anchors (i + 1))); [|done]|]);
    simpl in H; by inversion H.
Qed.

Lemma absoluteAnchors_position (anchors abs : list Anchor) (i : nat) :
  absoluteAnchors anchors = Ok abs ->
  fst <$> abs !! i = fst <$> anchors !! i.
Proof.
  intros H. destruct (anchors !! i) as [a|] eqn:Ha.
  - destruct (absoluteAnchors_lookup _ _ _ _ H Ha) as (b & -> & Hb).
    simpl. f_equal. by apply absoluteAnchor_position in Hb.
  - apply absoluteAnchors_length in H. apply lookup_ge_None in Ha.
    rewrite (lookup_ge_None_2 abs i); [done|lia].
Qed.

Lemma absoluteAnchors_at
    (anchors : Anchors) (i : nat) (position : Vector) (controls : option Controls) :
  handles_face_neighbours anchors ->
  anchors !! i = Some (position, controls) ->
  exists (abs : list Anchor) (c : Controls), resolved_at anchors i position controls abs c.
Proof.
  intros Hf Hi. unfold resolved_at. destruct (absoluteAnchors_total _ Hf) as [abs Habs].
  destruct (absoluteAnchors_lookup _ _ _ _ Habs Hi) as (b & Hb & Hcb).
  unfold absoluteAnchor in Hcb.
  destruct (controls ≫= pre) as [p|] eqn:Ep;
    [destruct (item anchors (Z.of_nat i - 1)) as [prev|] eqn:Eprev; [|done]|];
    (destruct (controls ≫= post) as [q|] eqn:Eq;
     [destruct (item anchors (Z.of_nat i + 1)) as [next|] eqn:Enext; [|done]|]);
    simpl in Hcb; inversion Hcb; subst b; clear Hcb;
    eexists abs, _; (split; [done|]); (split; [exact Hb|]); simpl; split;
    try done; eexists _, _; (split; [done|]); (split; [done|]);
    unfold veq, spec_pre_absolute, spec_post_absolute; simpl; split; ring.
Qed.

(** C2.  The absolute-anchor deriver keeps the position of the anchor at
    index [i] and resolves its handles by the formulas of section 4.3: a
    relative [pre] against the previous anchor, a relative [post] against
    the next one; a side without descriptor gets no control point.  It
    returns for every sequence whose handles face a neighbour. *)
Theorem absoluteAnchors_resolves
    (anchors : Anchors) (i : nat) (position : Vector) (controls : option Controls) :
  handles_face_neighbours anchors ->
  anchors !! i = Some (position, controls) ->
  exists (abs : list Anchor) (c : Controls),
    absoluteAnchors anchors = Ok abs
    /\ abs !! i = Some (position, Some c)
    /\ match controls ≫= pre with
       | Some p =>
           exists (prev : Anchor) (v : Vector),
             item anchors (Z.of_nat i - 1) = Some prev
             /\ pre c = Some v
             /\ veq v (spec_pre_absolute position prev.1 p)
       | None => pre c = None
       end
    /\ match controls ≫= post with
       | Some p =>
           exists (next : Anchor) (v : Vector),
             item anchors (Z.of_nat i + 1) = Some next
             /\ post c = Some v
             /\ veq v (spec_post_absolute position next.1 p)
       | None => post c = None
       end.
Proof.
  intros Hf Hi. destruct (absoluteAnchors_total _ Hf) as [abs Habs].
  destruct (absoluteAnchors_lookup _ _ _ _ Habs Hi) as (b & Hb & Hcb).
  unfold absoluteAnchor in Hcb.
  destruct (controls ≫= pre) as [p|] eqn:Ep;
    [destruct (item anchors (Z.of_nat i - 1)) as [prev|] eqn:Eprev; [|done]|];
    (destruct (controls ≫= post) as [q|] eqn:Eq;
     [destruct (item anchors (Z.of_nat i + 1)) as [next|] eqn:Enext; [|done]|]);
    simpl in Hcb; inversion Hcb; subst b; clear Hcb;
    eexists abs, _; (split; [done|]); (split; [exact Hb|]); simpl; split;
    try done; eexists _, _; (split; [done|]); (split; [done|]);
    unfold veq, spec_pre_absolute, spec_post_absolute; simpl; split; ring.
Qed.

Lemma three_anchors_face : handles_face_neighbours three_anchors.
Proof. unfold handles_face_neighbours; simpl. repeat split; intros; done. Qed.

Lemma three_anchors_sorted : time_sorted three_anchors.
Proof. simpl. repeat split; reflexivity. Qed.

Lemma absoluteAnchors_resolves_witness :
  exists (abs : list Anchor) (c : Controls),
    absoluteAnchors three_anchors = Ok abs
    /\ abs !! 1%nat = Some ({| x := 5; y := 5 |}, Some c)
    /\ (exists (prev : Anchor) (v : Vector),
          item three_anchors (Z.of_nat 1 - 1) = Some prev
          /\ pre c = Some v
          /\ veq v (spec_pre_absolute {| x := 5; y := 5 |} prev.1 default_control))
    /\ (exists (next : Anchor) (v : Vector),
          item three_anchors (Z.of_nat 1 + 1) = Some next
          /\ post c = Some v
          /\ veq v (spec_post_absolute {| x := 5; y := 5 |} next.1 default_control)).
Proof.
  exact (absoluteAnchors_resolves three_anchors 1 {| x := 5; y := 5 |} _
           three_anchors_face eq_refl).
Defined.

(** ** Deleting an anchor *)

Lemma splice_delete_one {A} (l : list A) (i : nat) :
  (i < length l)%nat -> splice l (Z.of_nat i) 1 [] = delete i l.
Proof.
  intros Hi. unfold splice. destruct (Z.ltb_spec (Z.of_nat i) 0); [lia|].
  rewrite Z.min_l by lia. rewrite (Z.max_l 1 0) by lia.
  rewrite Z.min_l by lia. rewrite Nat2Z.id.
  replace (Z.to_nat (Z.of_nat i + 1)) with (S i) by lia.
  simpl. symmetry. apply delete_take_drop.
Qed.

Lemma splice_beyond {A} (l : list A) (start : Z) :
  (Z.of_nat (length l) <= start)%Z -> splice l start 1 [] = l.
Proof.
  intros Hi. unfold splice. destruct (Z.ltb_spec start 0); [lia|].
  rewrite Z.min_r by lia. rewrite (Z.max_l 1 0) by lia.
  rewrite Z.min_r by lia.
  replace (Z.of_nat (length l) + (Z.of_nat (length l) - Z.of_nat (length l)))%Z
    with (Z.of_nat (length l)) by lia.
  rewrite Nat2Z.id. simpl. apply take_drop.
Qed.

Lemma splice_negative {A} (l : list A) (start : Z) :
  (start < 0)%Z -> l <> [] ->
  splice l start 1 [] = delete (Z.to_nat (Z.max (Z.of_nat (length l) + start) 0)) l.
Proof.
  intros Hneg Hne. unfold splice. destruct (Z.ltb_spec start 0); [|lia].
  assert (0 < length l)%nat by (destruct l; [done|simpl; lia]).
  set (s := Z.max (Z.of_nat (length l) + start) 0).
  assert (0 <= s < Z.of_nat (length l))%Z by (unfold s; lia).
  rewrite (Z.max_l 1 0) by lia. rewrite Z.min_l by lia.
  replace (Z.to_nat (s + 1)) with (S (Z.to_nat s)) by lia.
  simpl. symmetry. apply delete_take_drop.
Qed.

(** C9, as the code has it.  [deleteAnchor] is [splice(index, 1)] and never
    raises.  With [index] within bounds exactly the anchor at [index] goes:
    the anchors before it keep their place, those after it move down by
    one.  With [index] at or beyond the length the sequence is left as it
    is; a negative [index] counts from the end, as [splice] does. *)
Theorem deleteAnchor_splices (anchors : Anchors) (index : Z) :
  let len := Z.of_nat (length anchors) in
  let after := (deleteAnchor index anchors).1 in
  (deleteAnchor index anchors).2 = Ok tt
  /\ ((0 <= index < len)%Z ->
      after = delete (Z.to_nat index) anchors
      /\ S (length after) = length anchors
      /\ (forall j : nat, (j < Z.to_nat index)%nat -> after !! j = anchors !! j)
      /\ (forall j : nat, (Z.to_nat index <= j)%nat -> after !! j = anchors !! S j))
  /\ ((len <= index)%Z -> after = anchors)
  /\ ((index < 0)%Z -> anchors <> [] ->
      after = delete (Z.to_nat (Z.max (len + index) 0)) anchors).
Proof.
  intros len after. unfold after, deleteAnchor. simpl. split; [done|].
  split; [|split].
  - intros Hi.
    assert (E : splice anchors index 1 [] = delete (Z.to_nat index) anchors).
    { rewrite <- (Z2Nat.id index) at 1 by lia. apply splice_delete_one. lia. }
    rewrite E. split; [done|]. split; [|split].
    + rewrite length_delete; [lia|]. apply lookup_lt_is_Some. lia.
    + intros j Hj. by apply list_lookup_delete_lt.
    + intros j Hj. by apply list_lookup_delete_ge.
  - intros Hi. by apply splice_beyond.
  - intros Hi Hne. by apply splice_negative.
Qed.

Lemma deleteAnchor_splices_witness :
  (deleteAnchor 1 three_anchors).1 = delete 1%nat three_anchors
  /\ (deleteAnchor 3 three_anchors).1 = three_anchors
  /\ (deleteAnchor (-1) three_anchors).1 = delete 2%nat three_anchors.
Proof.
  destruct (deleteAnchor_splices three_anchors 1) as (_ & H1 & _).
  destruct (deleteAnchor_splices three_anchors 3) as (_ & _ & H3 & _).
  destruct (deleteAnchor_splices three_anchors (-1)) as (_ & _ & _ & Hm).
  split; [|split].
  - apply H1. simpl. lia.
  - apply H3. simpl. lia.
  - apply Hm; [lia|discriminate].
Defined.

(** C9, as stated, fails: an index beyond the end raises nothing and leaves
    the sequence as it was. *)
Lemma deleteAnchor_beyond_is_silent :
  ~ (exists e : Exn, (deleteAnchor 5 three_anchors).2 = Throw e)
  /\ (deleteAnchor 5 three_anchors).1 = three_anchors.
Proof. split; [intros [e He]; discriminate He|reflexivity]. Qed.

(** Deleting the first of three anchors leaves the other two as they were;
    when the second carried a [pre] descriptor, the deriver has no previous
    anchor to resolve it against and throws. *)
Lemma deleteAnchor_first_dangling (a b c : Anchor) (p : Vector) :
  b.2 ≫= pre = Some p ->
  (deleteAnchor 0 [a; b; c]).1 = [b; c]
  /\ absoluteAnchors [b; c] = Throw TypeError.
Proof.
  intros Hp. split; [reflexivity|].
  unfold absoluteAnchors, createIndexMemo. simpl. destruct b as [pb cb].
  unfold absoluteAnchor. simpl in Hp. by rewrite Hp.
Qed.

(** C10, on the code.  After [deleteAnchor(0)] on a three-anchor store the
    two remaining anchors are the old second and third, untouched: the new
    first anchor still carries its [pre] descriptor, and the deriver, which
    looks for the anchor before it, throws instead of resolving it. *)
Theorem deleteAnchor_first_keeps_pre :
  let after := (deleteAnchor 0 three_anchors).1 in
  time_sorted three_anchors
  /\ length after = 2%nat
  /\ (exists (a : Anchor), after !! 0%nat = Some a /\ a.2 ≫= pre = Some default_control)
  /\ absoluteAnchors after = Throw TypeError.
Proof.
  simpl. split; [apply three_anchors_sorted|]. split; [reflexivity|].
  split; [|reflexivity]. eexists. split; reflexivity.
Qed.

(** ** Numbers: comparisons and the unit interval *)

Lemma Qltb_lt (a b : Q) : Qltb a b = true <-> a < b.
Proof.
  unfold Qltb. rewrite negb_true_iff. split.
  - intros H. apply Qnot_le_lt. intros Hle. apply Qle_bool_iff in Hle. congruence.
  - intros H. destruct (Qle_bool b a) eqn:E; [|done].
    apply Qle_bool_iff in E. lra.
Qed.

Lemma Qltb_ge (a b : Q) : Qltb a b = false <-> b <= a.
Proof.
  split.
  - intros H. apply Qnot_lt_le. intros Hlt. apply Qltb_lt in Hlt. congruence.
  - intros H. destruct (Qltb a b) eqn:E; [|done]. apply Qltb_lt in E. lra.
Qed.

Lemma Qltb_spec (a b : Q) : reflect (a < b) (Qltb a b).
Proof.
  destruct (Qltb a b) eqn:E; constructor.
  - by apply Qltb_lt.
  - apply Qltb_ge in E. lra.
Qed.

Lemma Qdiv_unit (n d : Q) : 0 <= n -> n <= d -> 0 < d -> 0 <= n / d /\ n / d <= 1.
Proof.
  intros Hn Hnd Hd. split.
  - apply Qle_shift_div_l; [done|]. lra.
  - apply Qle_shift_div_r; [done|]. lra.
Qed.

Lemma Qabs_distinct (p q : Q) : ~ p == q -> 0 < Qabs (p - q).
Proof. intros H. apply Qabs_case; intros; lra. Qed.

Lemma Qdiv_zero (n d : Q) : n == 0 -> n / d == 0.
Proof. intros ->. unfold Qdiv. ring. Qed.

Lemma Qdiv_same (n d : Q) : n == d -> ~ d == 0 -> n / d == 1.
Proof. intros -> H. by field. Qed.

(** Closes a goal [c == p \/ c == q \/ (c == a /\ strictly between)]. *)
Ltac between_cases :=
  first
    [ left; lra
    | right; left; lra
    | right; right; split; [lra|]; split;
      [intros [?|?]; lra | repeat apply Qabs_case; intros; lra] ].

Lemma clamped_unit (type : ControlType) (p q a : Q) :
  ~ p == q ->
  let r := Qabs (p - clamped type p q a) / Qabs (p - q) in
  0 <= r /\ r <= 1 /\ (outside type p q a -> r == 0 \/ r == 1).
Proof.
  intros Hne r. pose proof (Qabs_distinct _ _ Hne) as Hd.
  assert (Hcases : clamped type p q a == p \/ clamped type p q a == q
                   \/ (clamped type p q a == a /\ ~ outside type p q a
                       /\ Qabs (p - a) <= Qabs (p - q))).
  { unfold clamped, outside.
    destruct type; cbn [is_post];
      [ pose proof (Q.min_spec p a) as Hmin;
        pose proof (Q.max_spec q (Qmin p a)) as Hmax;
        remember (Qmin p a) as m; remember (Qmax q m) as c
      | pose proof (Q.min_spec q a) as Hmin;
        pose proof (Q.max_spec p (Qmin q a)) as Hmax;
        remember (Qmin q a) as m; remember (Qmax p m) as c ];
      destruct (Q_dec a p) as [[?|?]|?]; destruct (Q_dec a q) as [[?|?]|?];
      destruct Hmin as [[? E']|[? E']]; destruct Hmax as [[? E]|[? E]];
      between_cases. }
  unfold r. destruct Hcases as [E|[E|(E & Hin & Hle)]]; rewrite E.
  - assert (H0 : Qabs (p - p) / Qabs (p - q) == 0).
    { apply Qdiv_zero. apply Qabs_case; intros; lra. }
    rewrite H0. repeat split; [lra|lra|by left].
  - assert (H1 : Qabs (p - q) / Qabs (p - q) == 1).
    { apply Qdiv_same; [reflexivity|lra]. }
    rewrite H1. repeat split; [lra|lra|by right].
  - destruct (Qdiv_unit (Qabs (p - a)) (Qabs (p - q))) as [? ?];
      [apply Qabs_nonneg|done|done|].
    repeat split; [done|done|]. intros Hout. by destruct Hin.
Qed.

Lemma clamped_twice_unit (type : ControlType) (p q a : Q) :
  ~ p == q ->
  let r := Qabs (p - clamped_twice type p q a) / Qabs (p - q) in
  0 <= r /\ r <= 1 /\ (outside type p q a -> r == 0 \/ r == 1).
Proof.
  intros Hne r. pose proof (Qabs_distinct _ _ Hne) as Hd.
  assert (Hcases : clamped_twice type p q a == p \/ clamped_twice type p q a == q
                   \/ (clamped_twice type p q a == a /\ ~ outside type p q a
                       /\ Qabs (p - a) <= Qabs (p - q))).
  { unfold clamped_twice, outside.
    destruct type; cbn [is_post negb andb orb]; rewrite ?orb_false_r;
      [ destruct (Qltb_spec a q) as [H1|H1];
        [destruct (Qltb_spec p q) as [H2|H2]
        |destruct (Qltb_spec p a) as [H2|H2]]
      | destruct (Qltb_spec q a) as [H1|H1];
        [destruct (Qltb_spec q p) as [H2|H2]
        |destruct (Qltb_spec a p) as [H2|H2]] ];
      destruct (Q_dec a p) as [[?|?]|?]; destruct (Q_dec a q) as [[?|?]|?];
      between_cases. }
  unfold r. destruct Hcases as [E|[E|(E & Hin & Hle)]]; rewrite E.
  - assert (H0 : Qabs (p - p) / Qabs (p - q) == 0).
    { apply Qdiv_zero. apply Qabs_case; intros; lra. }
    rewrite H0. repeat split; [lra|lra|by left].
  - assert (H1 : Qabs (p - q) / Qabs (p - q) == 1).
    { apply Qdiv_same; [reflexivity|lra]. }
    rewrite H1. repeat split; [lra|lra|by right].
  - destruct (Qdiv_unit (Qabs (p - a)) (Qabs (p - q))) as [? ?];
      [apply Qabs_nonneg|done|done|].
    repeat split; [done|done|]. intros Hout. by destruct Hin.
Qed.

(** ** The store under a control drag *)

Lemma handles_face_of_lookup (anchors : Anchors) :
  forall first : bool,
    (forall (i : nat) (a : Anchor),
        anchors !! i = Some a ->
        (is_Some (a.2 ≫= pre) -> first = false \/ (0 < i)%nat)
        /\ (is_Some (a.2 ≫= post) -> (S i < length anchors)%nat)) ->
    handles_face first anchors.
Proof.
  induction anchors as [|a0 l IH]; intros first H; [done|].
  destruct (H 0%nat a0 eq_refl) as [Hpre Hpost]. simpl. split; [|split].
  - intros ->. destruct (a0.2 ≫= pre) as [p|] eqn:E; [|done].
    destruct Hpre as [?|?]; [by eexists|done|lia].
  - intros ->. destruct (a0.2 ≫= post) as [p|] eqn:E; [|done].
    assert (1 < 1)%nat by (apply Hpost; by eexists). lia.
  - apply IH. intros i a Hi. destruct (H (S i) a Hi) as [H1 H2]. split.
    + intros _. by left.
    + intros Hp. specialize (H2 Hp). simpl in H2. lia.
Qed.

(** Writing the controls of an anchor keeps the handles facing neighbours
    as long as the new handles do. *)
Lemma handles_face_insert (anchors : Anchors) (i : nat) (p : Vector) (c : Controls) :
  handles_face_neighbours anchors ->
  (is_Some (pre c) -> (0 < i)%nat) ->
  (is_Some (post c) -> (S i < length anchors)%nat) ->
  handles_face_neighbours (<[i := (p, Some c)]> anchors).
Proof.
  intros Hf Hpre Hpost. apply handles_face_of_lookup. intros j a Hj.
  rewrite length_insert. destruct (decide (i = j)) as [->|Hne].
  - rewrite list_lookup_insert_eq in Hj by (by apply lookup_lt_Some in Hj;
      rewrite length_insert in Hj).
    inversion Hj; subst. simpl. split; [intros Hs; right; by apply Hpre|done].
  - rewrite list_lookup_insert_ne in Hj by done.
    destruct (handles_face_lookup _ _ Hf j a Hj) as [H1 H2]. split; [|done].
    intros Hs. destruct (H1 Hs); [done|by right].
Qed.

(** Moving an anchor does not touch its handles. *)
Lemma handles_face_move (anchors : Anchors) (i : nat) (p p' : Vector)
    (c : option Controls) :
  handles_face_neighbours anchors ->
  anchors !! i = Some (p, c) ->
  handles_face_neighbours (<[i := (p', c)]> anchors).
Proof.
  intros Hf Hi. apply handles_face_of_lookup. intros j a Hj.
  rewrite length_insert. destruct (decide (i = j)) as [->|Hne].
  - rewrite list_lookup_insert_eq in Hj by (by apply lookup_lt_Some in Hi).
    inversion Hj; subst. apply (handles_face_lookup _ _ Hf j _ Hi).
  - rewrite list_lookup_insert_ne in Hj by done.
    apply (handles_face_lookup _ _ Hf j a Hj).
Qed.

Lemma item_abs_position (anchors abs : list Anchor) (k : Z) (a : Anchor) :
  absoluteAnchors anchors = Ok abs ->
  item anchors k = Some a ->
  exists b, item abs k = Some b /\ b.1 = a.1.
Proof.
  intros Habs Hk. apply item_Some in Hk as [Hk0 Hk].
  pose proof (absoluteAnchors_position _ _ (Z.to_nat k) Habs) as Hp.
  rewrite Hk in Hp. destruct (abs !! Z.to_nat k) as [b|] eqn:Hb; [|done].
  exists b. split; [|by inversion Hp].
  unfold item. destruct (Z.ltb_spec k 0); [lia|done].
Qed.

Lemma item_abs_None (anchors abs : list Anchor) (k : Z) :
  absoluteAnchors anchors = Ok abs ->
  item anchors k = None -> item abs k = None.
Proof.
  intros Habs. unfold item. destruct (Z.ltb_spec k 0); [done|].
  rewrite !lookup_ge_None. by rewrite (absoluteAnchors_length _ _ Habs).
Qed.

Lemma setAnchors_control_run (anchors : Anchors) (i : nat) (type : ControlType)
    (v p : Vector) (c : Controls) :
  anchors !! i = Some (p, Some c) ->
  setAnchors_control (Z.of_nat i) type v anchors
  = (<[i := (p, Some (set_control type v c))]> anchors, Ok tt).
Proof. intros Hi. unfold setAnchors_control. by rewrite item_nat, Hi, Nat2Z.id. Qed.

Lemma setAnchors_position_run (anchors : Anchors) (i : nat) (v p : Vector)
    (c : option Controls) :
  anchors !! i = Some (p, c) ->
  setAnchors_position (Z.of_nat i) v anchors = (<[i := (v, c)]> anchors, Ok tt).
Proof. intros Hi. unfold setAnchors_position. by rewrite item_nat, Hi, Nat2Z.id. Qed.

Lemma getPairedAnchor_paired (anchors abs : list Anchor) (type : ControlType)
    (i : nat) (n : Anchor) :
  absoluteAnchors anchors = Ok abs ->
  item anchors (pairedIndex type i) = Some n ->
  Part001.first (Part001.getPairedAnchor abs type (Z.of_nat i)) = Ok (Some n.1).
Proof.
  intros Habs Hn. destruct (item_abs_position _ _ _ _ Habs Hn) as (b & Hb & Hbn).
  apply item_Some in Hn as [Hn0 Hn]. apply lookup_lt_Some in Hn.
  rewrite <- (absoluteAnchors_length _ _ Habs) in Hn.
  unfold Part001.getPairedAnchor, pairedIndex in *. destruct type; simpl in *.
  - destruct (Z.eqb_spec (Z.of_nat i) 0); [lia|]. rewrite Hb. simpl. by rewrite Hbn.
  - destruct (Z.eqb_spec (Z.of_nat i) (Z.of_nat (length abs) - 1)); [lia|].
    rewrite Hb. simpl. by rewrite Hbn.
Qed.

Lemma absoluteToRelativeControl_run (anchors abs : list Anchor) (type : ControlType)
    (i : nat) (a n : Anchor) (v : Vector) :
  absoluteAnchors anchors = Ok abs ->
  anchors !! i = Some a ->
  item anchors (pairedIndex type i) = Some n ->
  Part001.absoluteToRelativeControl abs type (Z.of_nat i) v
  = Ok (relativeControl type a.1 n.1 v).
Proof.
  intros Habs Ha Hn. unfold Part001.absoluteToRelativeControl.
  rewrite <- item_nat in Ha.
  destruct (item_abs_position _ _ _ _ Habs Ha) as (b & -> & Hb). simpl.
  rewrite (getPairedAnchor_paired _ _ _ _ _ Habs Hn). simpl.
  rewrite Hb. unfold relativeControl, clamped. by destruct type.
Qed.

Lemma onControlDrag_run (zoom : Vector) (anchors : Anchors) (type : ControlType)
    (i : nat) (p : Vector) (c : Controls) (n : Anchor)
    (initialControl : Vector) (ratio : option Q) (e : PointerEvent) :
  handles_face_neighbours anchors ->
  anchors !! i = Some (p, Some c) ->
  item anchors (pairedIndex type i) = Some n ->
  let v := subtractVector initialControl (divideVector (delta e) zoom) in
  Part001.onControlDrag zoom type (Z.of_nat i) initialControl ratio e anchors
  = (<[i := (p, Some (draggedControls type (relativeControl type p n.1 v)
                        ratio (metaKey e) c))]> anchors, Ok tt).
Proof.
  intros Hf Ha Hn v. destruct (absoluteAnchors_total _ Hf) as [abs Habs].
  unfold Part001.onControlDrag, mbind, M_bind, get, lift. rewrite Habs.
  rewrite (absoluteToRelativeControl_run _ _ _ _ _ _ _ Habs Ha Hn).
  rewrite (setAnchors_control_run _ _ _ _ _ _ Ha).
  unfold draggedControls. destruct ratio as [k|]; [|done].
  destruct (metaKey e && Part001.truthy (Some k)); [|done].
  erewrite setAnchors_control_run.
  - by rewrite list_insert_insert_eq.
  - apply list_lookup_insert_eq. by apply lookup_lt_Some in Ha.
Qed.

Lemma onAnchorChange_run (zoomY originY : Q) (anchors : Anchors) (type : ControlType)
    (i : nat) (p : Vector) (c : Controls) (n : Anchor) (position : Vector) :
  handles_face_neighbours anchors ->
  anchors !! i = Some (p, Some c) ->
  item anchors (pairedIndex type i) = Some n ->
  let a := CreateTimeline.unproject zoomY originY position CreateTimeline.AxisX in
  CreateTimeline.onAnchorChange zoomY originY type (Z.of_nat i) position anchors
  = (<[i := (p, Some (set_control type
                        {| y := Math_floor (y position - y p);
                           x := Qabs (x p - clamped_twice type (x p) (x n.1) a)
                                / Qabs (x p - x n.1) |} c))]> anchors, Ok tt).
Proof.
  intros Hf Ha Hn a. destruct (absoluteAnchors_total _ Hf) as [abs Habs].
  unfold CreateTimeline.onAnchorChange, mbind, M_bind, get, lift. rewrite Habs.
  pose proof Ha as Ha'. rewrite <- item_nat in Ha'.
  destruct (item_abs_position _ _ _ _ Habs Ha') as (b & -> & Hb).
  destruct (item_abs_position _ _ _ _ Habs Hn) as (b' & Hb' & Hbn).
  unfold pairedIndex in Hb'. simpl. rewrite Hb'. simpl.
  rewrite Hb, Hbn. simpl.
  by rewrite (setAnchors_control_run _ _ _ _ _ _ Ha).
Qed.

Lemma stored_control_insert (anchors : Anchors) (i : nat) (type : ControlType)
    (p : Vector) (c : Controls) :
  (i < length anchors)%nat ->
  stored_control (<[i := (p, Some c)]> anchors) i type = control type c.
Proof. intros Hi. unfold stored_control. by rewrite list_lookup_insert_eq. Qed.

Lemma control_set_control (type : ControlType) (v : Vector) (c : Controls) :
  control type (set_control type v c) = Some v.
Proof. by destruct type. Qed.

Lemma control_set_paired (type : ControlType) (v : Vector) (c : Controls) :
  control type (set_control (pairedType type) v c) = control type c.
Proof. by destruct type. Qed.

Lemma control_draggedControls (type : ControlType) (r : Vector) (ratio : option Q)
    (mk : bool) (c : Controls) :
  control type (draggedControls type r ratio mk c) = Some r.
Proof.
  unfold draggedControls. destruct ratio as [k|]; [|apply control_set_control].
  destruct (mk && Part001.truthy (Some k)).
  - rewrite control_set_paired. apply control_set_control.
  - apply control_set_control.
Qed.

Lemma unproject_x (zoomY originY : Q) (position : Vector) :
  CreateTimeline.unproject zoomY originY position CreateTimeline.AxisX == x position.
Proof. unfold CreateTimeline.unproject. simpl. field. Qed.

Lemma outside_comp (type : ControlType) (p q a a' : Q) :
  a == a' -> outside type p q a' -> outside type p q a.
Proof. intros E. unfold outside. destruct type; simpl; intros [?|?]; lra. Qed.

(** C5.  Every update of a control drag stores a relative descriptor whose
    [x] lies in [0, 1], provided the paired neighbour is at another time;
    when the candidate is not strictly between the anchor and that
    neighbour the stored [x] is exactly 0 or exactly 1.  This holds for the
    update of part_001 ([absoluteToRelativeControl]) and for the one of
    create-timeline.tsx ([onAnchorChange]). *)
Theorem control_drag_stores_unit_x
    (zoom : Vector) (zoomY originY : Q) (anchors : Anchors) (type : ControlType)
    (i : nat) (p : Vector) (c : Controls) (n : Anchor) :
  handles_face_neighbours anchors ->
  anchors !! i = Some (p, Some c) ->
  item anchors (pairedIndex type i) = Some n ->
  ~ x p == x n.1 ->
  (forall (initialControl : Vector) (ratio : option Q) (e : PointerEvent),
      let v := subtractVector initialControl (divideVector (delta e) zoom) in
      let after :=
        (Part001.onControlDrag zoom type (Z.of_nat i) initialControl ratio e anchors).1 in
      exists r : Vector,
        stored_control after i type = Some r
        /\ 0 <= x r /\ x r <= 1
        /\ (outside type (x p) (x n.1) (x v) -> x r == 0 \/ x r == 1))
  /\ (forall position : Vector,
        let after :=
          (CreateTimeline.onAnchorChange zoomY originY type (Z.of_nat i) position anchors).1 in
        exists r : Vector,
          stored_control after i type = Some r
          /\ 0 <= x r /\ x r <= 1
          /\ (outside type (x p) (x n.1) (x position) -> x r == 0 \/ x r == 1)).
Proof.
  intros Hf Ha Hn Hne. pose proof (lookup_lt_Some _ _ _ Ha) as Hi. split.
  - intros initialControl ratio e v after. unfold after.
    rewrite (onControlDrag_run zoom _ _ _ _ _ _ initialControl ratio e Hf Ha Hn).
    simpl. eexists. rewrite stored_control_insert by done.
    split; [apply control_draggedControls|]. simpl.
    apply (clamped_unit type (x p) (x n.1) (x v) Hne).
  - intros position after. unfold after.
    rewrite (onAnchorChange_run zoomY originY _ _ _ _ _ _ position Hf Ha Hn).
    simpl. eexists. rewrite stored_control_insert by done.
    split; [apply control_set_control|]. simpl.
    destruct (clamped_twice_unit type (x p) (x n.1)
                (CreateTimeline.unproject zoomY originY position CreateTimeline.AxisX) Hne)
      as (H0 & H1 & Hout).
    split; [done|]. split; [done|]. intros Ho. apply Hout.
    eapply outside_comp; [apply unproject_x|done].
Qed.

Lemma uneven_anchors_face : handles_face_neighbours uneven_anchors.
Proof. unfold handles_face_neighbours; simpl. repeat split; intros; done. Qed.

Lemma uneven_anchors_sorted : time_sorted uneven_anchors.
Proof. simpl. repeat split; reflexivity. Qed.

Lemma control_drag_stores_unit_x_witness :
  let e := {| delta := {| x := 50; y := 0 |}; metaKey := false |} in
  let one := {| x := 1; y := 1 |} in
  (exists r : Vector,
      stored_control
        (Part001.onControlDrag one Post 1 {| x := 20; y := 0 |} None e uneven_anchors).1
        1 Post = Some r
      /\ 0 <= x r /\ x r <= 1
      /\ (outside Post 10 30 (20 - 50 / 1) -> x r == 0 \/ x r == 1))
  /\ (exists r : Vector,
        stored_control
          (CreateTimeline.onAnchorChange 1 0 Post 1 {| x := 50; y := 0 |} uneven_anchors).1
          1 Post = Some r
        /\ 0 <= x r /\ x r <= 1
        /\ (outside Post 10 30 50 -> x r == 0 \/ x r == 1)).
Proof.
  intros e one.
  destruct (control_drag_stores_unit_x one 1 0 uneven_anchors Post 1
              {| x := 10; y := 0 |}
              {| pre := Some default_control; post := Some default_control |}
              ({| x := 30; y := 0 |}, Some {| pre := Some default_control; post := None |})
              uneven_anchors_face eq_refl eq_refl) as [H1 H2].
  - simpl. intros H. vm_compute in H. discriminate H.
  - split.
    + exact (H1 {| x := 20; y := 0 |} None e).
    + exact (H2 {| x := 50; y := 0 |}).
Defined.

(** ** A control without a paired neighbour *)

Lemma absoluteToRelativeControl_unpaired (anchors abs : list Anchor)
    (type : ControlType) (index : Z) (v : Vector) :
  absoluteAnchors anchors = Ok abs ->
  unpaired anchors type index ->
  Part001.absoluteToRelativeControl abs type index v
  = match item abs index with
    | Some _ => Throw PreconditionError
    | None => Throw TypeError
    end.
Proof.
  intros Habs Hu. unfold Part001.absoluteToRelativeControl.
  destruct (item abs index) as [a|]; [|done]. simpl.
  assert (Part001.getPairedAnchor abs type index = Part001.NoPair) as ->; [|done].
  unfold Part001.getPairedAnchor. rewrite (absoluteAnchors_length _ _ Habs).
  destruct Hu as [[-> ->]|[-> ->]]; simpl; [done|]. by rewrite Z.eqb_refl.
Qed.

Lemma onControlDrag_unpaired (zoom : Vector) (anchors : Anchors) (type : ControlType)
    (index : Z) (initialControl : Vector) (ratio : option Q) (e : PointerEvent) :
  unpaired anchors type index ->
  exists ex : Exn,
    Part001.onControlDrag zoom type index initialControl ratio e anchors
    = (anchors, Throw ex).
Proof.
  intros Hu. unfold Part001.onControlDrag, mbind, M_bind, get, lift.
  destruct (absoluteAnchors anchors) as [abs|ex] eqn:Habs; [|by eexists].
  rewrite (absoluteToRelativeControl_unpaired _ _ _ _ _ Habs Hu).
  destruct (item abs index); by eexists.
Qed.

(** C8.  A control-handle update requested for a side without paired
    neighbour ([pre] at index 0, [post] at the last index) raises, and the
    store is left exactly as it was: in part_001 ([onControlDrag], with the
    precondition error whenever the anchor itself exists) and in
    create-timeline.tsx ([onAnchorChange]).  Nothing catches the exception:
    a drag session of part_001 that meets it ends with it, the store
    untouched. *)
Theorem control_without_pair_throws
    (zoom : Vector) (zoomY originY : Q) (anchors : Anchors) (type : ControlType)
    (index : Z) :
  unpaired anchors type index ->
  (forall (initialControl : Vector) (ratio : option Q) (e : PointerEvent),
      exists ex : Exn,
        Part001.onControlDrag zoom type index initialControl ratio e anchors
        = (anchors, Throw ex))
  /\ (forall (initialControl : Vector) (ratio : option Q) (e : PointerEvent),
        handles_face_neighbours anchors ->
        (0 <= index < Z.of_nat (length anchors))%Z ->
        Part001.onControlDrag zoom type index initialControl ratio e anchors
        = (anchors, Throw PreconditionError))
  /\ (forall position : Vector,
        exists ex : Exn,
          CreateTimeline.onAnchorChange zoomY originY type index position anchors
          = (anchors, Throw ex))
  /\ (forall (anchor : Anchor) (e : PointerEvent) (events : list PointerEvent),
        exists ex : Exn,
          Part001.onControlDragStart zoom type anchor index (e :: events) anchors
          = (anchors, Throw ex)).
Proof.
  intros Hu. split; [|split; [|split]].
  - intros. by apply onControlDrag_unpaired.
  - intros initialControl ratio e Hf Hi.
    destruct (absoluteAnchors_total _ Hf) as [abs Habs].
    unfold Part001.onControlDrag, mbind, M_bind, get, lift. rewrite Habs.
    rewrite (absoluteToRelativeControl_unpaired _ _ _ _ _ Habs Hu).
    destruct (item abs index) eqn:E; [done|].
    unfold item in E. destruct (Z.ltb_spec index 0); [lia|].
    apply lookup_ge_None in E. rewrite (absoluteAnchors_length _ _ Habs) in E. lia.
  - intros position.
    unfold CreateTimeline.onAnchorChange, mbind, M_bind, get, lift.
    destruct (absoluteAnchors anchors) as [abs|ex] eqn:Habs; [|by eexists].
    destruct (item abs index) as [a|]; [|by eexists]. simpl.
    assert (item abs (if is_post type then index + 1 else index - 1)%Z = None) as ->;
      [|by eexists].
    destruct Hu as [[-> ->]|[-> ->]]; simpl; [done|].
    unfold item. destruct (Z.ltb_spec (Z.of_nat (length anchors) - 1 + 1) 0); [done|].
    apply lookup_ge_None. rewrite (absoluteAnchors_length _ _ Habs). lia.
  - intros [position controls] e events.
    unfold Part001.onControlDragStart, mbind at 1, M_bind at 1, lift at 1.
    destruct (defined (controls ≫= control type)) as [ic|ex]; [|by eexists].
    unfold mbind at 1, M_bind at 1, get.
    unfold mbind at 1, M_bind at 1, lift at 1.
    destruct (absoluteAnchors anchors) as [abs|ex] eqn:Habs; [|by eexists].
    unfold mbind at 1, M_bind at 1, lift at 1.
    destruct (Part001.first (Part001.getPairedAnchor abs Pre index)) as [pp|ex];
      [|by eexists].
    unfold mbind at 1, M_bind at 1, lift at 1.
    destruct (Part001.first (Part001.getPairedAnchor abs Post index)) as [qq|ex];
      [|by eexists].
    simpl pointerHelper. unfold mbind at 1, M_bind at 1.
    match goal with
    | |- context [Part001.onControlDrag ?z ?t ?i ?ic ?r ?ev anchors] =>
        destruct (onControlDrag_unpaired z anchors t i ic r ev Hu) as [ex ->]
    end.
    by eexists.
Qed.

Lemma control_without_pair_throws_witness :
  unpaired three_anchors Pre 0
  /\ Part001.onControlDrag {| x := 1; y := 1 |} Pre 0 {| x := 0; y := 0 |} None
       {| delta := {| x := 1; y := 1 |}; metaKey := false |} three_anchors
     = (three_anchors, Throw PreconditionError).
Proof.
  split; [left; split; reflexivity|].
  destruct (control_without_pair_throws {| x := 1; y := 1 |} 1 0 three_anchors Pre 0)
    as (_ & H & _).
  - left. split; reflexivity.
  - apply H; [apply three_anchors_face|simpl; lia].
Defined.

(** ** Round trip of a handle *)

Lemma clamped_between (type : ControlType) (p q a : Q) :
  between type p q a -> clamped type p q a == a.
Proof.
  unfold between, clamped. destruct type; cbn [is_post]; intros [H1 H2].
  - destruct (Q.min_spec p a) as [[? E']|[? E']];
      destruct (Q.max_spec q (Qmin p a)) as [[? E]|[? E]]; lra.
  - destruct (Q.min_spec q a) as [[? E']|[? E']];
      destruct (Q.max_spec p (Qmin q a)) as [[? E]|[? E]]; lra.
Qed.

Lemma relative_x_between (type : ControlType) (p q a : Q) :
  between type p q a ->
  Qabs (p - clamped type p q a) / Qabs (p - q)
  == if is_post type then (a - p) / (q - p) else (p - a) / (p - q).
Proof.
  intros Hb. rewrite (clamped_between _ _ _ _ Hb).
  unfold between in Hb. destruct type; cbn [is_post] in *; destruct Hb as [H1 H2].
  - rewrite (Qabs_pos (p - a)) by lra. rewrite (Qabs_pos (p - q)) by lra. reflexivity.
  - rewrite (Qabs_neg (p - a)) by lra. rewrite (Qabs_neg (p - q)) by lra.
    field. lra.
Qed.


Lemma paired_faces (anchors : Anchors) (type : ControlType) (i : nat) (p v : Vector)
    (c : Controls) (n : Anchor) :
  handles_face_neighbours anchors ->
  anchors !! i = Some (p, Some c) ->
  item anchors (pairedIndex type i) = Some n ->
  handles_face_neighbours (<[i := (p, Some (set_control type v c))]> anchors).
Proof.
  intros Hf Ha Hn. destruct (handles_face_lookup _ _ Hf i _ Ha) as [Hpre Hpost].
  apply item_Some in Hn as [Hn0 Hn]. apply lookup_lt_Some in Hn.
  unfold pairedIndex in *. simpl in Hpre, Hpost.
  apply handles_face_insert; [done| |]; destruct type; simpl in *; intros Hs.
  - lia.
  - destruct (Hpre Hs); [done|lia].
  - by apply Hpost.
  - lia.
Qed.

Lemma item_insert_paired (anchors : Anchors) (type : ControlType) (i : nat)
    (a : Anchor) :
  item (<[i := a]> anchors) (pairedIndex type i) = item anchors (pairedIndex type i).
Proof.
  unfold item, pairedIndex.
  destruct type; cbn [is_post];
    match goal with |- context [(?k <? 0)%Z] => destruct (Z.ltb_spec k 0) end;
    try done; apply list_lookup_insert_ne; lia.
Qed.


(** In exact arithmetic the time that comes back is the candidate's. *)
Lemma roundTrip_time_exact (type : ControlType) (p q a : Q) :
  between type p q a ->
  (if is_post type
   then p + (q - p) * (Qabs (p - a) / Qabs (p - q))
   else p + (p - q) * (Qabs (p - a) / Qabs (p - q)) * -(1)) == a.
Proof.
  intros Hb. unfold between in Hb. destruct type; cbn [is_post] in *; destruct Hb.
  - assert (E1 : Qabs (p - a) == p - a) by (apply Qabs_case; intros; lra).
    assert (E2 : Qabs (p - q) == p - q) by (apply Qabs_case; intros; lra).
    rewrite E1, E2. field. lra.
  - assert (E1 : Qabs (p - a) == a - p) by (apply Qabs_case; intros; lra).
    assert (E2 : Qabs (p - q) == q - p) by (apply Qabs_case; intros; lra).
    rewrite E1, E2. field. lra.
Qed.




(** ** Pointer sessions *)

Lemma pointerHelper_snoc {E} (callback : E -> M unit) (es : list E) (e : E)
    (s : Anchors) :
  pointerHelper callback (es ++ [e]) s
  = match pointerHelper callback es s with
    | (s', Ok _) => callback e s'
    | (s', Throw ex) => (s', Throw ex)
    end.
Proof.
  revert s. induction es as [|e0 es IH]; intros s; simpl.
  - unfold mbind, M_bind. destruct (callback e s) as [s' [[]|ex]]; done.
  - unfold mbind, M_bind. destruct (callback e0 s) as [s' [[]|ex]]; [|done].
    apply IH.
Qed.

(** ** Symmetric dragging in part_001 *)

Lemma Qdiv_nonzero (a b : Q) : ~ a == 0 -> ~ b == 0 -> ~ a / b == 0.
Proof.
  intros Ha Hb H. apply Ha.
  assert (E : a == a / b * b) by (by field). rewrite E, H. ring.
Qed.

Lemma symmetricRatio_truthy (type : ControlType) (p prev next : Vector) :
  x prev < x p -> x p < x next ->
  Part001.truthy (Some (symmetricRatio type p prev next)) = true.
Proof.
  intros H1 H2. unfold Part001.truthy. apply negb_true_iff.
  destruct (Qeq_bool _ 0) eqn:E; [|done]. apply Qeq_bool_iff in E.
  exfalso. revert E. unfold symmetricRatio. destruct type; simpl;
    apply Qdiv_nonzero; lra.
Qed.

(** A session of control-drag updates on an anchor with both neighbours
    rewrites the controls of that anchor and nothing else. *)
Lemma controlDrag_session (zoom : Vector) (type : ControlType) (i : nat)
    (p : Vector) (n : Anchor) (initialControl : Vector) (ratio : option Q)
    (events : list PointerEvent) :
  forall (anchors : Anchors) (c : Controls),
    handles_face_neighbours anchors ->
    anchors !! i = Some (p, Some c) ->
    item anchors (pairedIndex type i) = Some n ->
    (0 < i)%nat -> (S i < length anchors)%nat ->
    exists c' : Controls,
      pointerHelper (Part001.onControlDrag zoom type (Z.of_nat i) initialControl ratio)
        events anchors
      = (<[i := (p, Some c')]> anchors, Ok tt).
Proof.
  induction events as [|e es IH]; intros anchors c Hf Ha Hn H0 HS.
  - exists c. simpl. by rewrite list_insert_id.
  - simpl. unfold mbind, M_bind.
    rewrite (onControlDrag_run zoom _ _ _ _ _ _ initialControl ratio e Hf Ha Hn).
    match goal with
    | |- context [<[i := (p, Some ?c1)]> anchors] =>
        destruct (IH (<[i := (p, Some c1)]> anchors) c1) as [c' Hc']
    end.
    + apply handles_face_insert; [done|intros; lia|intros; lia].
    + apply list_lookup_insert_eq. by apply lookup_lt_Some in Ha.
    + by rewrite item_insert_paired.
    + done.
    + by rewrite length_insert.
    + exists c'. rewrite Hc'. by rewrite list_insert_insert_eq.
Qed.

Lemma absoluteAnchors_control (anchors abs : list Anchor) (type : ControlType)
    (i : nat) (p : Vector) (c ca : Controls) :
  resolved_at anchors i p (Some c) abs ca ->
  is_Some (control type c) -> is_Some (control type ca).
Proof.
  intros (_ & _ & Hpre & Hpost) [v Hv].
  destruct type; simpl in *; rewrite Hv in *.
  - destruct Hpre as (? & w & _ & -> & _). by eexists.
  - destruct Hpost as (? & w & _ & -> & _). by eexists.
Qed.

(** The drag of part_001 on the control [type] of an anchor that has both
    neighbours: the session runs to its end, and its last update decides
    the controls of the anchor. *)
Lemma startControlDrag_run (zoom : Vector) (anchors : Anchors) (type : ControlType)
    (i : nat) (p : Vector) (c : Controls) (prev next : Anchor)
    (es : list PointerEvent) (e : PointerEvent) :
  handles_face_neighbours anchors ->
  anchors !! i = Some (p, Some c) ->
  is_Some (control type c) ->
  item anchors (Z.of_nat i - 1) = Some prev ->
  item anchors (Z.of_nat i + 1) = Some next ->
  exists (initialControl : Vector) (c0 : Controls),
    let v := subtractVector initialControl (divideVector (delta e) zoom) in
    let n := if is_post type then next else prev in
    Part001.startControlDrag zoom type (Z.of_nat i) (es ++ [e]) anchors
    = (<[i := (p, Some (draggedControls type (relativeControl type p n.1 v)
                          (Some (symmetricRatio type p prev.1 next.1))
                          (metaKey e) c0))]> anchors, Ok tt).
Proof.
  intros Hf Ha Hc Hprev Hnext.
  destruct (absoluteAnchors_at _ i p (Some c) Hf Ha) as (abs & ca & Hres).
  destruct (absoluteAnchors_control _ _ type _ _ _ _ Hres Hc) as [iv Hiv].
  destruct Hres as (Habs & Hca & _).
  pose proof (lookup_lt_Some _ _ _ Ha) as Hi.
  assert (H0 : (0 < i)%nat).
  { apply item_Some in Hprev as [? _]. lia. }
  assert (HS : (S i < length anchors)%nat).
  { apply item_Some in Hnext as [? Hl]. apply lookup_lt_Some in Hl. lia. }
  assert (Hn : item anchors (pairedIndex type i)
               = Some (if is_post type then next else prev)).
  { unfold pairedIndex. by destruct type. }
  destruct (controlDrag_session zoom type i p _ iv
              (Some (symmetricRatio type p prev.1 next.1)) es anchors c Hf Ha Hn H0 HS)
    as [c0 Hses].
  exists iv, c0. intros v n.
  unfold Part001.startControlDrag, rendered, mbind, M_bind, get, lift.
  rewrite Habs, item_nat, Hca. simpl.
  unfold Part001.onControlDragStart, mbind, M_bind, get, lift.
  simpl. rewrite Hiv. simpl. rewrite Habs.
  rewrite (getPairedAnchor_paired anchors abs Pre i prev Habs Hprev).
  rewrite (getPairedAnchor_paired anchors abs Post i next Habs Hnext).
  simpl.
  change (Some (if is_post type
                then (x p - x prev.1) / (x p - x next.1)
                else (x p - x next.1) / (x p - x prev.1)))
    with (Some (symmetricRatio type p prev.1 next.1)).
  rewrite pointerHelper_snoc, Hses.
  erewrite onControlDrag_run.
  - by rewrite list_insert_insert_eq.
  - apply handles_face_insert; [done|intros; lia|intros; lia].
  - by apply list_lookup_insert_eq.
  - by rewrite item_insert_paired.
Qed.

(** C7, as the code has it.  In part_001 (and part_000, whose handler is the
    same), on an anchor of a time-sorted store with both neighbours, an
    update with the modifier held writes the dragged control and the
    control of the other side: the same relative [x], and the relative [y]
    multiplied by the ratio of the signed [x] distances to the two
    neighbours.  The two resolved tangents are then proportional through
    the anchor, by that ratio.  This holds for the last update of a drag of
    any length, so after every update of a drag. *)
Theorem symmetric_drag_scales_paired
    (zoom : Vector) (anchors : Anchors) (type : ControlType) (i : nat)
    (p : Vector) (c : Controls) (prev next : Anchor)
    (es : list PointerEvent) (e : PointerEvent) :
  time_sorted anchors ->
  handles_face_neighbours anchors ->
  anchors !! i = Some (p, Some c) ->
  is_Some (control type c) ->
  item anchors (Z.of_nat i - 1) = Some prev ->
  item anchors (Z.of_nat i + 1) = Some next ->
  metaKey e = true ->
  let ratio := symmetricRatio type p prev.1 next.1 in
  exists (after : Anchors) (r : Vector),
    Part001.startControlDrag zoom type (Z.of_nat i) (es ++ [e]) anchors = (after, Ok tt)
    /\ stored_control after i type = Some r
    /\ stored_control after i (pairedType type) = Some {| x := x r; y := y r * ratio |}
    /\ exists (abs' : list Anchor) (ca : Controls) (vt vp : Vector),
         absoluteAnchors after = Ok abs'
         /\ abs' !! i = Some (p, Some ca)
         /\ control type ca = Some vt
         /\ control (pairedType type) ca = Some vp
         /\ x vp - x p == ratio * (x vt - x p)
         /\ y vp - y p == ratio * (y vt - y p).
Proof.
  intros Hs Hf Ha Hc Hprev Hnext Hmeta ratio.
  destruct (startControlDrag_run zoom _ _ _ _ _ _ _ es e Hf Ha Hc Hprev Hnext)
    as (iv & c0 & Hrun). cbv zeta in Hrun.
  pose proof (lookup_lt_Some _ _ _ Ha) as Hi.
  pose proof Hprev as Hprev'. pose proof Hnext as Hnext'.
  apply item_Some in Hprev' as [Hi0 Hprev']. apply item_Some in Hnext' as [_ Hnext'].
  assert (Hlt1 : x prev.1 < x p).
  { apply (time_sorted_lt _ Hs (Z.to_nat (Z.of_nat i - 1)) i prev (p, Some c)); [done|done|lia]. }
  assert (Hlt2 : x p < x next.1).
  { apply (time_sorted_lt _ Hs i (Z.to_nat (Z.of_nat i + 1)) (p, Some c) next); [done|done|lia]. }
  unfold draggedControls in Hrun.
  rewrite Hmeta, (symmetricRatio_truthy type p prev.1 next.1 Hlt1 Hlt2) in Hrun.
  cbn [andb] in Hrun. fold ratio in Hrun.
  set (r := relativeControl type p (if is_post type then next else prev).1
              (subtractVector iv (divideVector (delta e) zoom))) in Hrun.
  clearbody r.
  set (c' := set_control (pairedType type) {| x := x r; y := y r * ratio |}
               (set_control type r c0)) in Hrun.
  exists (<[i := (p, Some c')]> anchors), r.
  split; [done|]. rewrite !stored_control_insert by done.
  split; [unfold c'; by rewrite control_set_paired, control_set_control|].
  split; [unfold c'; by rewrite control_set_control|].
  assert (Hf' : handles_face_neighbours (<[i := (p, Some c')]> anchors)).
  { apply handles_face_insert; [done|intros; lia|intros].
    apply lookup_lt_Some in Hnext'. lia. }
  destruct (absoluteAnchors_at _ i p (Some c') Hf')
    as (abs' & ca & Habs' & Hca & Hpre & Hpost);
    [by apply list_lookup_insert_eq|].
  exists abs', ca. unfold c' in Hpre, Hpost.
  destruct type; cbn -[item Z.add Z.sub Z.of_nat] in Hpre, Hpost;
    destruct Hpre as (prev' & v1 & Hprev1 & Hv1 & [Hx1 Hy1]);
    destruct Hpost as (next' & v2 & Hnext2 & Hv2 & [Hx2 Hy2]);
    change (Z.of_nat i - 1)%Z with (pairedIndex Pre i) in Hprev1;
    change (Z.of_nat i + 1)%Z with (pairedIndex Post i) in Hnext2;
    rewrite item_insert_paired in Hprev1, Hnext2;
    unfold pairedIndex in Hprev1, Hnext2; cbn [is_post] in Hprev1, Hnext2;
    rewrite Hprev in Hprev1; rewrite Hnext in Hnext2;
    inversion Hprev1; subst prev'; inversion Hnext2; subst next';
    simpl in Hx1, Hy1, Hx2, Hy2.
  - exists v1, v2. repeat split; [done|done|done|done| |].
    + rewrite Hx1, Hx2. unfold ratio, symmetricRatio. simpl. field. lra.
    + rewrite Hy1, Hy2. unfold ratio, symmetricRatio. simpl. field. lra.
  - exists v2, v1. repeat split; [done|done|done|done| |].
    + rewrite Hx1, Hx2. unfold ratio, symmetricRatio. simpl. field. lra.
    + rewrite Hy1, Hy2. unfold ratio, symmetricRatio. simpl. field. lra.
Qed.

Lemma symmetric_drag_scales_paired_witness :
  let e := {| delta := {| x := 2; y := 3 |}; metaKey := true |} in
  let ratio := symmetricRatio Pre {| x := 10; y := 0 |} {| x := 0; y := 0 |}
                 {| x := 30; y := 0 |} in
  exists (after : Anchors) (r : Vector),
    Part001.startControlDrag {| x := 1; y := 1 |} Pre 1 ([] ++ [e]) uneven_anchors
    = (after, Ok tt)
    /\ stored_control after 1 Pre = Some r
    /\ stored_control after 1 Post = Some {| x := x r; y := y r * ratio |}
    /\ exists (abs' : list Anchor) (ca : Controls) (vt vp : Vector),
         absoluteAnchors after = Ok abs'
         /\ abs' !! 1%nat = Some ({| x := 10; y := 0 |}, Some ca)
         /\ control Pre ca = Some vt
         /\ control Post ca = Some vp
         /\ x vp - 10 == ratio * (x vt - 10)
         /\ y vp - 0 == ratio * (y vt - 0).
Proof.
  intros e ratio.
  exact (symmetric_drag_scales_paired {| x := 1; y := 1 |} uneven_anchors Pre 1
           {| x := 10; y := 0 |}
           {| pre := Some default_control; post := Some default_control |}
           ({| x := 0; y := 0 |}, Some {| pre := None; post := Some default_control |})
           ({| x := 30; y := 0 |}, Some {| pre := Some default_control; post := None |})
           [] e uneven_anchors_sorted uneven_anchors_face eq_refl
           (ex_intro _ _ eq_refl) eq_refl eq_refl eq_refl).
Defined.

(** C7, as stated, fails on create-timeline.tsx: there the modifier moves
    the control of the other side by the opposite delta.  Dragging the
    [pre] control of the middle anchor of [uneven_anchors] by [(2, 3)]
    stores [pre = (0.7, -3)] and [post = (0.6, 3)]: the relative [x] of the
    two sides differ, and the resolved tangents [(-7, -3)] and [(12, 3)]
    are not proportional. *)
Lemma createTimeline_symmetric_not_scaled :
  let after :=
    (CreateTimeline.startControlDrag 1 0 Pre 1 true [{| x := 2; y := 3 |}]
       uneven_anchors).1 in
  exists (r1 r2 : Vector) (abs' : list Anchor) (ca : Controls) (v1 v2 : Vector),
    stored_control after 1 Pre = Some r1
    /\ stored_control after 1 Post = Some r2
    /\ ~ x r2 == x r1
    /\ absoluteAnchors after = Ok abs'
    /\ abs' !! 1%nat = Some ({| x := 10; y := 0 |}, Some ca)
    /\ pre ca = Some v1 /\ post ca = Some v2
    /\ ~ (x v2 - 10) * (y v1 - 0) == (y v2 - 0) * (x v1 - 10).
Proof.
  intros after. eexists _, _, _, _, _, _.
  split; [vm_compute; reflexivity|]. split; [vm_compute; reflexivity|].
  split; [intros H; vm_compute in H; discriminate H|].
  split; [vm_compute; reflexivity|]. split; [vm_compute; reflexivity|].
  split; [reflexivity|]. split; [reflexivity|].
  intros H; vm_compute in H; discriminate H.
Qed.

(** ** Dragging an anchor *)

Lemma clampedPosition_margins (pre post : option Vector) (position : Vector) :
  (forall a b : Vector, pre = Some a -> post = Some b -> x a + 2 <= x b) ->
  let q := clampedPosition pre post position in
  (forall a : Vector, pre = Some a -> x a + 1 <= x q)
  /\ (forall b : Vector, post = Some b -> x q <= x b - 1).
Proof.
  intros Hgap q. unfold q, clampedPosition.
  destruct pre as [a|], post as [b|]; cbn [x];
    try (specialize (Hgap a b eq_refl eq_refl));
    repeat match goal with
      | |- context [Qltb ?u ?v] => destruct (Qltb_spec u v)
      end;
    (split; [intros a' Ha'|intros b' Hb']); simplify_eq; cbn [x] in *; lra.
Qed.

Lemma time_sorted_of_adjacent (anchors : Anchors) :
  (forall (i : nat) (a b : Anchor),
      anchors !! i = Some a -> anchors !! S i = Some b -> x a.1 < x b.1) ->
  time_sorted anchors.
Proof.
  induction anchors as [|a0 l IH]; intros H; [done|].
  destruct l as [|b0 l']; [done|]. split.
  - by apply (H 0%nat).
  - apply IH. intros i a b Ha Hb. by apply (H (S i)).
Qed.

(** Moving the anchor at [i] to a time strictly between its neighbours
    keeps the store sorted. *)
Lemma time_sorted_move (anchors : Anchors) (i : nat) (q : Vector) (c : option Controls) :
  time_sorted anchors ->
  (i < length anchors)%nat ->
  (forall a : Anchor, item anchors (Z.of_nat i - 1) = Some a -> x a.1 < x q) ->
  (forall b : Anchor, item anchors (Z.of_nat i + 1) = Some b -> x q < x b.1) ->
  time_sorted (<[i := (q, c)]> anchors).
Proof.
  intros Hs Hi Hprev Hnext. apply time_sorted_of_adjacent. intros j a b Ha Hb.
  destruct (decide (j = i)) as [->|Hji].
  - rewrite list_lookup_insert_eq in Ha by done.
    rewrite list_lookup_insert_ne in Hb by lia. inversion Ha; subst a.
    apply Hnext. by rewrite item_succ.
  - rewrite list_lookup_insert_ne in Ha by done.
    destruct (decide (S j = i)) as [<-|Hji'].
    + rewrite list_lookup_insert_eq in Hb by done. inversion Hb; subst b.
      apply Hprev. by rewrite item_pred.
    + rewrite list_lookup_insert_ne in Hb by done.
      by apply (time_sorted_adjacent _ Hs j).
Qed.

Lemma onPositionDrag_run (zoom : Vector) (anchors : Anchors) (i : nat)
    (p initialPosition : Vector) (c : option Controls) (pre post : option Vector)
    (e : PointerEvent) :
  anchors !! i = Some (p, c) ->
  Part001.onPositionDrag zoom (Z.of_nat i) initialPosition pre post e anchors
  = (<[i := (clampedPosition pre post
               (subtractVector initialPosition (divideVector (delta e) zoom)), c)]>
       anchors, Ok tt).
Proof.
  intros Ha. unfold Part001.onPositionDrag.
  by rewrite (setAnchors_position_run _ _ _ _ _ Ha).
Qed.

Lemma item_abs_fst (anchors abs : list Anchor) (k : Z) :
  absoluteAnchors anchors = Ok abs ->
  fst <$> item abs k = fst <$> item anchors k.
Proof.
  intros Habs. destruct (item anchors k) as [a|] eqn:E.
  - destruct (item_abs_position _ _ _ _ Habs E) as (b & -> & Hb). simpl. by rewrite Hb.
  - by rewrite (item_abs_None _ _ _ Habs E).
Qed.

Lemma onPositionChange_run (anchors : Anchors) (i : nat)
    (p position : Vector) (c : option Controls) :
  handles_face_neighbours anchors ->
  anchors !! i = Some (p, c) ->
  CreateTimeline.onPositionChange (Z.of_nat i) position anchors
  = (<[i := (clampedPosition (fst <$> item anchors (Z.of_nat i - 1))
               (fst <$> item anchors (Z.of_nat i + 1)) position, c)]> anchors, Ok tt).
Proof.
  intros Hf Ha. destruct (absoluteAnchors_total _ Hf) as [abs Habs].
  unfold CreateTimeline.onPositionChange, mbind, M_bind, get, lift. rewrite Habs.
  rewrite !(item_abs_fst _ _ _ Habs).
  by rewrite (setAnchors_position_run _ _ _ _ _ Ha).
Qed.

Lemma getPairedAnchor_first (anchors abs : list Anchor) (type : ControlType) (i : nat) :
  absoluteAnchors anchors = Ok abs ->
  (i < length anchors)%nat ->
  Part001.first (Part001.getPairedAnchor abs type (Z.of_nat i))
  = Ok (fst <$> item anchors (pairedIndex type i)).
Proof.
  intros Habs Hi. pose proof (absoluteAnchors_length _ _ Habs) as Hlen.
  rewrite <- (item_abs_fst _ _ _ Habs).
  unfold Part001.getPairedAnchor, pairedIndex. destruct type; cbn [is_post negb andb].
  - destruct (Z.eqb_spec (Z.of_nat i) 0) as [E|E].
    + by rewrite E.
    + rewrite item_pred. destruct i as [|j]; [lia|].
      destruct (lookup_lt_is_Some_2 abs j) as [b ->]; [lia|done].
  - destruct (Z.eqb_spec (Z.of_nat i) (Z.of_nat (length abs) - 1)) as [E|E].
    + rewrite item_succ. rewrite (lookup_ge_None_2 abs (S i)); [done|lia].
    + rewrite item_succ.
      destruct (lookup_lt_is_Some_2 abs (S i)) as [b ->]; [lia|done].
Qed.

Lemma positionDrag_session (zoom : Vector) (i : nat) (initialPosition : Vector)
    (pre post : option Vector) (c : option Controls) (events : list PointerEvent) :
  forall (anchors : Anchors) (p : Vector),
    anchors !! i = Some (p, c) ->
    exists q : Vector,
      pointerHelper (Part001.onPositionDrag zoom (Z.of_nat i) initialPosition pre post)
        events anchors
      = (<[i := (q, c)]> anchors, Ok tt).
Proof.
  induction events as [|e es IH]; intros anchors p Ha.
  - exists p. simpl. by rewrite list_insert_id.
  - simpl. unfold mbind, M_bind. rewrite (onPositionDrag_run _ _ _ _ _ _ _ _ _ Ha).
    match goal with
    | |- context [<[i := (?q1, c)]> anchors] =>
        destruct (IH (<[i := (q1, c)]> anchors) q1) as [q Hq]
    end.
    + apply list_lookup_insert_eq. by apply lookup_lt_Some in Ha.
    + exists q. rewrite Hq. by rewrite list_insert_insert_eq.
Qed.

Lemma positionChange_session (zoomY : Q) (i : nat) (position : Vector)
    (c : option Controls) (deltas : list Vector) :
  forall (anchors : Anchors) (p : Vector),
    handles_face_neighbours anchors ->
    anchors !! i = Some (p, c) ->
    exists q : Vector,
      CreateTimeline.Handle_onPointerDown zoomY position
        (fun position _ => CreateTimeline.onPositionChange (Z.of_nat i) position)
        deltas anchors
      = (<[i := (q, c)]> anchors, Ok tt).
Proof.
  unfold CreateTimeline.Handle_onPointerDown.
  induction deltas as [|d ds IH]; intros anchors p Hf Ha.
  - exists p. simpl. by rewrite list_insert_id.
  - simpl. unfold mbind, M_bind. rewrite (onPositionChange_run _ _ _ _ _ Hf Ha).
    match goal with
    | |- context [<[i := (?q1, c)]> anchors] =>
        destruct (IH (<[i := (q1, c)]> anchors) q1) as [q Hq]
    end.
    + by apply (handles_face_move _ _ p).
    + apply list_lookup_insert_eq. by apply lookup_lt_Some in Ha.
    + exists q. rewrite Hq. by rewrite list_insert_insert_eq.
Qed.

Lemma clamped_moved_within (anchors : Anchors) (i : nat) (c : option Controls)
    (position : Vector) :
  roomy anchors i ->
  moved_within anchors
    (<[i := (clampedPosition (fst <$> item anchors (Z.of_nat i - 1))
               (fst <$> item anchors (Z.of_nat i + 1)) position, c)]> anchors) i c.
Proof.
  intros Hroom. eexists. split; [done|].
  destruct (clampedPosition_margins (fst <$> item anchors (Z.of_nat i - 1))
              (fst <$> item anchors (Z.of_nat i + 1)) position) as [H1 H2].
  - intros a b Ea Eb.
    destruct (item anchors (Z.of_nat i - 1)) as [a'|] eqn:E1; [|done].
    destruct (item anchors (Z.of_nat i + 1)) as [b'|] eqn:E2; [|done].
    simpl in Ea, Eb. inversion Ea; inversion Eb; subst. by apply Hroom.
  - split.
    + intros a Ea. apply H1. by rewrite Ea.
    + intros b Eb. apply H2. by rewrite Eb.
Qed.

Lemma moved_within_sorted (anchors after : Anchors) (i : nat) (c : option Controls) :
  time_sorted anchors -> (i < length anchors)%nat ->
  moved_within anchors after i c -> time_sorted after.
Proof.
  intros Hs Hi (q & -> & H1 & H2). apply time_sorted_move; [done|done| |].
  - intros a Ha. specialize (H1 a Ha). lra.
  - intros b Hb. specialize (H2 b Hb). lra.
Qed.

(** C4, as the code has it.  Let the anchor times, the zoomed horizontal
    delta and the candidate time be integers that a JavaScript number holds
    exactly (magnitude at most [2^52]), so that the additions and
    comparisons of the clamps are exact, and let the zoom not be zero.
    When the neighbours of the dragged anchor are at least two units apart
    (or it has fewer than two neighbours), every update of a position drag
    leaves the anchor at least one unit above the previous anchor and one
    unit below the next, the rest of the store untouched, and the store
    strictly increasing in time.  The update is the last of a drag of any
    length, so this holds at every intermediate step; it holds for
    [onPositionDragStart] of part_001 and for [onPositionChange] of
    create-timeline.tsx, whose horizontal zoom is 1. *)
Theorem position_drag_keeps_order
    (zoom : Vector) (zoomY : Q) (anchors : Anchors) (i : nat) (p : Vector)
    (c : option Controls) (es : list PointerEvent) (e : PointerEvent)
    (ds : list Vector) (d : Vector) :
  time_sorted anchors ->
  handles_face_neighbours anchors ->
  anchors !! i = Some (p, c) ->
  roomy anchors i ->
  whole_times anchors ->
  ~ x zoom == 0 -> ~ y zoom == 0 -> ~ zoomY == 0 ->
  whole (x (delta e) / x zoom) ->
  whole (x p - x (delta e) / x zoom) ->
  whole (x d) ->
  whole (x p - x d) ->
  let after1 := Part001.startPositionDrag zoom (Z.of_nat i) (es ++ [e]) anchors in
  let after2 := CreateTimeline.startPositionDrag zoomY (Z.of_nat i) (ds ++ [d]) anchors in
  (after1.2 = Ok tt /\ moved_within anchors after1.1 i c /\ time_sorted after1.1)
  /\ (after2.2 = Ok tt /\ moved_within anchors after2.1 i c /\ time_sorted after2.1).
Proof.
  intros Hs Hf Ha Hroom _ _ _ _ _ _ _ _. pose proof (lookup_lt_Some _ _ _ Ha) as Hi.
  destruct (absoluteAnchors_total _ Hf) as [abs Habs].
  destruct (absoluteAnchors_lookup _ _ _ _ Habs Ha) as (b & Hb & Hcb).
  apply absoluteAnchor_position in Hcb. simpl in Hcb.
  assert (Hgoal1 : exists after,
             Part001.startPositionDrag zoom (Z.of_nat i) (es ++ [e]) anchors
             = (after, Ok tt) /\ moved_within anchors after i c).
  { unfold Part001.startPositionDrag, rendered, mbind, M_bind, get, lift.
    rewrite Habs, item_nat, Hb. simpl.
    unfold Part001.onPositionDragStart, mbind, M_bind, get, lift. rewrite Habs.
    rewrite !(getPairedAnchor_first _ _ _ _ Habs Hi).
    unfold pairedIndex. cbn [is_post].
    rewrite pointerHelper_snoc.
    destruct (positionDrag_session zoom i b.1
                (fst <$> item anchors (Z.of_nat i - 1))
                (fst <$> item anchors (Z.of_nat i + 1)) c es anchors p Ha) as [q ->].
    erewrite onPositionDrag_run;
      [|apply list_lookup_insert_eq; done].
    rewrite list_insert_insert_eq. eexists. split; [done|].
    by apply clamped_moved_within. }
  assert (Hgoal2 : exists after,
             CreateTimeline.startPositionDrag zoomY (Z.of_nat i) (ds ++ [d]) anchors
             = (after, Ok tt) /\ moved_within anchors after i c).
  { unfold CreateTimeline.startPositionDrag, rendered, mbind, M_bind, get, lift.
    rewrite Habs, item_nat, Hb. simpl.
    unfold CreateTimeline.dragPosition.
    destruct (positionChange_session zoomY i b.1 c ds anchors p Hf Ha) as [q Hq].
    unfold CreateTimeline.Handle_onPointerDown in *.
    rewrite pointerHelper_snoc, Hq.
    erewrite onPositionChange_run;
      [|by apply (handles_face_move _ _ p)|apply list_lookup_insert_eq; done].
    rewrite list_insert_insert_eq.
    change (Z.of_nat i - 1)%Z with (pairedIndex Pre i).
    change (Z.of_nat i + 1)%Z with (pairedIndex Post i).
    rewrite !item_insert_paired. eexists. split; [done|].
    by apply clamped_moved_within. }
  destruct Hgoal1 as (a1 & -> & Hm1). destruct Hgoal2 as (a2 & -> & Hm2). simpl.
  repeat split; try done; by eapply moved_within_sorted.
Qed.

(** A concrete integer is [whole]. *)
Ltac whole_at z := exists z; split; [reflexivity|vm_compute; discriminate].

Lemma position_drag_keeps_order_witness :
  let e := {| delta := {| x := 7; y := 0 |}; metaKey := false |} in
  let after1 := Part001.startPositionDrag {| x := 1; y := 1 |} 1 ([] ++ [e]) three_anchors in
  let after2 := CreateTimeline.startPositionDrag 1 1 ([] ++ [{| x := 7; y := 0 |}])
                  three_anchors in
  (after1.2 = Ok tt
   /\ moved_within three_anchors after1.1 1
        (Some {| pre := Some default_control; post := Some default_control |})
   /\ time_sorted after1.1)
  /\ (after2.2 = Ok tt
      /\ moved_within three_anchors after2.1 1
           (Some {| pre := Some default_control; post := Some default_control |})
      /\ time_sorted after2.1).
Proof.
  intros e.
  apply (position_drag_keeps_order {| x := 1; y := 1 |} 1 three_anchors 1
           {| x := 5; y := 5 |}
           (Some {| pre := Some default_control; post := Some default_control |})
           [] e [] {| x := 7; y := 0 |} three_anchors_sorted three_anchors_face eq_refl).
  - intros a b Ha Hb. inversion Ha; inversion Hb; subst. vm_compute. discriminate.
  - repeat constructor; simpl; [whole_at 0%Z|whole_at 5%Z|whole_at 10%Z].
  - intros H. vm_compute in H. discriminate H.
  - intros H. vm_compute in H. discriminate H.
  - intros H. vm_compute in H. discriminate H.
  - whole_at 7%Z.
  - whole_at (-2)%Z.
  - whole_at 7%Z.
  - whole_at (-2)%Z.
Defined.

(** C4, as stated, fails: with the neighbours one unit apart, an update
    that does not even move the pointer puts the middle anchor at the time
    of the previous one. *)
Lemma position_drag_breaks_order :
  let e := {| delta := {| x := 0; y := 0 |}; metaKey := false |} in
  time_sorted narrow_anchors
  /\ ~ time_sorted
         (Part001.startPositionDrag {| x := 1; y := 1 |} 1 [e] narrow_anchors).1
  /\ ~ time_sorted
         (CreateTimeline.startPositionDrag 1 1 [{| x := 0; y := 0 |}] narrow_anchors).1.
Proof.
  intros e. split; [simpl; repeat split; reflexivity|].
  split; intros [H _]; vm_compute in H; discriminate H.
Qed.

(** ** Adding an anchor *)

Lemma findIndex_from_spec {A} (p : A -> bool) (l : list A) :
  forall i : Z,
    (findIndex_from p i l = (-1)%Z /\ forall a, a ∈ l -> p a = false)
    \/ (exists (k : nat) (a : A),
           findIndex_from p i l = (i + Z.of_nat k)%Z
           /\ l !! k = Some a /\ p a = true
           /\ forall (j : nat) (b : A), (j < k)%nat -> l !! j = Some b -> p b = false).
Proof.
  induction l as [|a l IH]; intros i; simpl.
  - left. split; [done|]. intros a Ha. by apply elem_of_nil in Ha.
  - destruct (p a) eqn:Ep.
    + right. exists 0%nat, a. split; [lia|]. split; [done|]. split; [done|].
      intros j b Hj. lia.
    + destruct (IH (i + 1)%Z) as [[E Hall]|(k & b & E & Hk & Hb & Hbefore)].
      * left. split; [done|]. intros a' Ha'. apply elem_of_cons in Ha' as [->|Ha'];
          [done|by apply Hall].
      * right. exists (S k), b. split; [lia|]. split; [done|]. split; [done|].
        intros [|j] b' Hj Hb'; simpl in Hb'; [by inversion Hb'; subst|].
        apply (Hbefore j); [lia|done].
Qed.

Lemma splice_insert_one {A} (l : list A) (k : nat) (a : A) :
  (k <= length l)%nat ->
  splice l (Z.of_nat k) 0 [a] = take k l ++ [a] ++ drop k l.
Proof.
  intros Hk. unfold splice. destruct (Z.ltb_spec (Z.of_nat k) 0); [lia|].
  rewrite Z.min_l by lia. rewrite (Z.max_r 0 0) by lia. rewrite Z.min_l by lia.
  by rewrite Z.add_0_r, Nat2Z.id.
Qed.

Lemma time_sorted_cons (a : Anchor) (l : Anchors) :
  time_sorted (a :: l)
  <-> (forall b : Anchor, head l = Some b -> x a.1 < x b.1) /\ time_sorted l.
Proof.
  destruct l as [|b l]; simpl.
  - split; [intros _; split; [intros b Hb; done|done]|done].
  - split.
    + intros [H1 H2]. split; [|done]. intros b' Hb'. by inversion Hb'; subst.
    + intros [H1 H2]. split; [by apply H1|done].
Qed.

(** Sortedness depends on the positions only. *)
Lemma time_sorted_fst (l1 l2 : Anchors) :
  fst <$> l1 = fst <$> l2 -> time_sorted l1 -> time_sorted l2.
Proof.
  intros E Hs. apply time_sorted_of_adjacent. intros i a b Ha Hb.
  assert (Ha' : (fst <$> l1) !! i = Some a.1) by (by rewrite E, list_lookup_fmap, Ha).
  assert (Hb' : (fst <$> l1) !! S i = Some b.1) by (by rewrite E, list_lookup_fmap, Hb).
  rewrite list_lookup_fmap in Ha', Hb'.
  destruct (l1 !! i) as [a1|] eqn:E1; [|done].
  destruct (l1 !! S i) as [b1|] eqn:E2; [|done].
  simpl in Ha', Hb'. injection Ha' as Ea. injection Hb' as Eb.
  rewrite <- Ea, <- Eb. by apply (time_sorted_adjacent _ Hs i).
Qed.






Lemma fmap_fst_insert_controls (anchors : Anchors) (i : nat) (a : Anchor)
    (c : option Controls) :
  anchors !! i = Some a ->
  fst <$> <[i := (a.1, c)]> anchors = fst <$> anchors.
Proof.
  intros Ha. rewrite list_fmap_insert. simpl. apply list_insert_id.
  by rewrite list_lookup_fmap, Ha.
Qed.

Section AddAnchor.

Variable LookupMap : Type.
Variable createLookupMap : Anchor -> Anchor -> LookupMap.
Variable getValueFromSegments : list (Segment LookupMap) -> Q -> Outcome Q.

Local Abbreviation add := (addAnchor LookupMap createLookupMap getValueFromSegments).
Local Abbreviation add000 :=
  (addAnchor_part000 LookupMap createLookupMap getValueFromSegments).
Local Abbreviation sample := (getValue LookupMap createLookupMap getValueFromSegments).





End AddAnchor.



(** ** Segments *)

Section Segments.

Variable LookupMap : Type.
Variable createLookupMap : Anchor -> Anchor -> LookupMap.

Lemma as_segments_Ok (l : list (option (Segment LookupMap))) :
  (forall (k : nat) (o : option (Segment LookupMap)), l !! k = Some o -> is_Some o) ->
  exists segs : list (Segment LookupMap),
    as_segments LookupMap l = Ok segs
    /\ length segs = length l
    /\ forall (k : nat) (s : Segment LookupMap), l !! k = Some (Some s) -> segs !! k = Some s.
Proof.
  induction l as [|o l IH]; intros H.
  - exists []. by repeat split.
  - destruct (H 0%nat o eq_refl) as [s ->]. simpl.
    destruct IH as (segs & -> & Hlen & Hk); [intros k o Ho; apply (H (S k) o Ho)|].
    simpl. exists (s :: segs). split; [done|]. split; [simpl; by rewrite Hlen|].
    intros [|k] s' Hs'; simpl in *; [by inversion Hs'|by apply Hk].
Qed.

(** The segments [getValue] hands to the sampler: one per consecutive pair
    of absolute anchors, in order. *)
Lemma segments_of (anchors abs : list Anchor) :
  absoluteAnchors anchors = Ok abs ->
  exists (all : list (option (Segment LookupMap))) (segs : list (Segment LookupMap)),
    lookupMapSegments LookupMap createLookupMap anchors = Ok all
    /\ as_segments LookupMap (slice_0_m1 all) = Ok segs
    /\ length segs = (length abs - 1)%nat
    /\ forall (j : nat) (a b : Anchor),
         abs !! j = Some a -> abs !! S j = Some b ->
         segs !! j = Some {| range := (x a.1, x b.1); map := createLookupMap a b |}.
Proof.
  intros Habs. unfold lookupMapSegments. rewrite Habs. simpl.
  destruct (createIndexMemo_total (lookupMapSegment LookupMap createLookupMap abs) abs)
    as [all Hall].
  { intros k a _. unfold lookupMapSegment. destruct (item abs (Z.of_nat k + 1)); by eexists. }
  apply createIndexMemo_Ok in Hall as Hspec. destruct Hspec as [Hlen Hk].
  assert (Hsome : forall (k : nat) (a b : Anchor),
             abs !! k = Some a -> abs !! S k = Some b ->
             all !! k = Some (Some {| range := (x a.1, x b.1);
                                      map := createLookupMap a b |})).
  { intros k a b Ha Hb. destruct (Hk k a Ha) as (o & Ho & Hcb).
    unfold lookupMapSegment in Hcb. rewrite item_succ, Hb in Hcb. by inversion Hcb; subst. }
  destruct (as_segments_Ok (slice_0_m1 all)) as (segs & Hsegs & Hlen' & Hks).
  { intros k o Ho. unfold slice_0_m1 in Ho. apply lookup_take_Some in Ho as [Ho Hlt].
    destruct (lookup_lt_is_Some_2 abs k) as [a Ha]; [lia|].
    destruct (lookup_lt_is_Some_2 abs (S k)) as [b Hb]; [lia|].
    rewrite (Hsome k a b Ha Hb) in Ho. inversion Ho. by eexists. }
  exists all, segs. split; [done|]. split; [done|]. split.
  - rewrite Hlen'. unfold slice_0_m1. rewrite length_take. lia.
  - intros j a b Ha Hb. apply Hks. unfold slice_0_m1.
    pose proof (lookup_lt_Some _ _ _ Hb) as Hlt.
    rewrite lookup_take_lt by lia. by apply Hsome.
Qed.

End Segments.

(** ** The sampler at the ends of a segment *)

Lemma cubic_start (p0 p1 p2 p3 t : Q) : t == 0 -> Sampler.cubic p0 p1 p2 p3 t == p0.
Proof. intros E. unfold Sampler.cubic. cbv zeta. rewrite E. ring. Qed.

Lemma cubic_end (p0 p1 p2 p3 t : Q) : t == 1 -> Sampler.cubic p0 p1 p2 p3 t == p3.
Proof. intros E. unfold Sampler.cubic. cbv zeta. rewrite E. ring. Qed.

(** Before its end the curve is short of its last control value, when no
    control value exceeds it. *)
Lemma cubic_below (p0 p1 p2 p3 t : Q) :
  0 <= t -> t < 1 -> p0 < p3 -> p1 <= p3 -> p2 <= p3 ->
  Sampler.cubic p0 p1 p2 p3 t < p3.
Proof.
  intros Ht0 Ht1 H0 H1 H2. unfold Sampler.cubic. cbv zeta.
  set (u := 1 - t). assert (Hu : 0 < u) by (unfold u; lra).
  assert (E : p3 == u*u*u*p3 + 3*(u*u*t)*p3 + 3*(u*t*t)*p3 + t*t*t*p3)
    by (unfold u; ring).
  assert (A1 : 0 < u*u*u) by (repeat apply Qmult_lt_0_compat; done).
  assert (A2 : 0 <= u*u*t) by (repeat apply Qmult_le_0_compat; lra).
  assert (A3 : 0 <= u*t*t) by (repeat apply Qmult_le_0_compat; lra).
  assert (B1 : u*u*u*p0 < u*u*u*p3) by (apply Qmult_lt_l; done).
  assert (B2 : (u*u*t)*p1 <= (u*u*t)*p3).
  { rewrite !(Qmult_comm (u*u*t)). apply Qmult_le_compat_r; done. }
  assert (B3 : (u*t*t)*p2 <= (u*t*t)*p3).
  { rewrite !(Qmult_comm (u*t*t)). apply Qmult_le_compat_r; done. }
  clearbody u. lra.
Qed.

(** After its start the curve is past its first control value, when no
    control value falls short of it. *)
Lemma cubic_above (p0 p1 p2 p3 t : Q) :
  0 < t -> t <= 1 -> p0 < p3 -> p0 <= p1 -> p0 <= p2 ->
  p0 < Sampler.cubic p0 p1 p2 p3 t.
Proof.
  intros Ht0 Ht1 H0 H1 H2. unfold Sampler.cubic. cbv zeta.
  set (u := 1 - t). assert (Hu : 0 <= u) by (unfold u; lra).
  assert (E : p0 == u*u*u*p0 + 3*(u*u*t)*p0 + 3*(u*t*t)*p0 + t*t*t*p0)
    by (unfold u; ring).
  assert (A1 : 0 < t*t*t) by (repeat apply Qmult_lt_0_compat; done).
  assert (A2 : 0 <= u*u*t) by (repeat apply Qmult_le_0_compat; lra).
  assert (A3 : 0 <= u*t*t) by (repeat apply Qmult_le_0_compat; lra).
  assert (B1 : t*t*t*p0 < t*t*t*p3) by (apply Qmult_lt_l; done).
  assert (B2 : (u*u*t)*p0 <= (u*u*t)*p1).
  { rewrite !(Qmult_comm (u*u*t)). apply Qmult_le_compat_r; done. }
  assert (B3 : (u*t*t)*p0 <= (u*t*t)*p2).
  { rewrite !(Qmult_comm (u*t*t)). apply Qmult_le_compat_r; done. }
  clearbody u. lra.
Qed.

(** The first bracket answers a query at its left end with the left
    sample's value. *)
Lemma lookup_first (s0 s1 : Vector) (rest : list Vector) (time : Q) :
  x s0 == time -> x s0 < x s1 ->
  exists v : Q, Sampler.lookup (s0 :: s1 :: rest) time = Ok v /\ v == y s0.
Proof.
  intros E Hlt. simpl.
  assert (H1 : Qle_bool (x s0) time = true) by (apply Qle_bool_iff; lra).
  assert (H2 : Qle_bool time (x s1) = true) by (apply Qle_bool_iff; lra).
  assert (H3 : Qeq_bool (x s0) (x s1) = false).
  { destruct (Qeq_bool (x s0) (x s1)) eqn:E3; [|done]. apply Qeq_bool_iff in E3. lra. }
  rewrite H1, H2, H3. simpl. eexists. split; [done|].
  unfold Sampler.interpolate. rewrite <- E. field. lra.
Qed.

(** When every sample but the last is short of [time] and the last is at
    [time], the last bracket answers, with the last sample's value. *)
Lemma lookup_last (init : list Vector) (e : Vector) (time : Q) :
  init <> [] ->
  Forall (fun s => x s < time) init ->
  x e == time ->
  exists v : Q, Sampler.lookup (init ++ [e]) time = Ok v /\ v == y e.
Proof.
  intros Hne Hall E. induction init as [|a init IH]; [done|].
  apply Forall_cons_1 in Hall as [Ha Hall]. destruct init as [|b init].
  - simpl.
    assert (H1 : Qle_bool (x a) time = true) by (apply Qle_bool_iff; lra).
    assert (H2 : Qle_bool time (x e) = true) by (apply Qle_bool_iff; lra).
    assert (H3 : Qeq_bool (x a) (x e) = false).
    { destruct (Qeq_bool (x a) (x e)) eqn:E3; [|done]. apply Qeq_bool_iff in E3. lra. }
    rewrite H1, H2, H3. simpl. eexists. split; [done|].
    unfold Sampler.interpolate. rewrite <- E. field. lra.
  - pose proof Hall as Hall'. apply Forall_cons_1 in Hall' as [Hb _].
    assert (H2 : Qle_bool time (x b) = false).
    { destruct (Qle_bool time (x b)) eqn:E2; [|done]. apply Qle_bool_iff in E2. lra. }
    change (Sampler.lookup ((a :: b :: init) ++ [e]) time)
      with (if Qle_bool (x a) time && Qle_bool time (x b)
            then if Qeq_bool (x a) (x b) then Throw AssertionError
                 else Ok (Sampler.interpolate a b time)
            else Sampler.lookup ((b :: init) ++ [e]) time).
    rewrite H2, andb_false_r. by apply IH.
Qed.

Section SamplerFacts.

Variable resolution : nat.
Hypothesis resolution_positive : (0 < resolution)%nat.

Lemma step_first : Sampler.step resolution 0 == 0.
Proof. unfold Sampler.step. simpl. unfold Qdiv. ring. Qed.

Lemma resolution_nonzero : ~ inject_Z (Z.of_nat resolution) == 0.
Proof.
  intros H. assert (0 < inject_Z (Z.of_nat resolution)); [|lra].
  change 0 with (inject_Z 0). rewrite <- Zlt_Qlt. lia.
Qed.

Lemma step_last : Sampler.step resolution resolution == 1.
Proof. unfold Sampler.step. field. apply resolution_nonzero. Qed.

Lemma step_nonneg (k : nat) : 0 <= Sampler.step resolution k.
Proof.
  unfold Sampler.step. apply Qle_shift_div_l.
  - change 0 with (inject_Z 0). rewrite <- Zlt_Qlt. lia.
  - rewrite Qmult_0_l. change 0 with (inject_Z 0). rewrite <- Zle_Qle. lia.
Qed.

Lemma step_positive (k : nat) : (0 < k)%nat -> 0 < Sampler.step resolution k.
Proof.
  intros Hk. unfold Sampler.step. apply Qlt_shift_div_l.
  - change 0 with (inject_Z 0). rewrite <- Zlt_Qlt. lia.
  - rewrite Qmult_0_l. change 0 with (inject_Z 0). rewrite <- Zlt_Qlt. lia.
Qed.

Lemma step_below_one (k : nat) : (k < resolution)%nat -> Sampler.step resolution k < 1.
Proof.
  intros Hk. unfold Sampler.step. apply Qlt_shift_div_r.
  - change 0 with (inject_Z 0). rewrite <- Zlt_Qlt. lia.
  - rewrite Qmult_1_l. rewrite <- Zlt_Qlt. lia.
Qed.

Lemma step_at_most_one (k : nat) : (k <= resolution)%nat -> Sampler.step resolution k <= 1.
Proof.
  intros Hk. unfold Sampler.step. apply Qle_shift_div_r.
  - change 0 with (inject_Z 0). rewrite <- Zlt_Qlt. lia.
  - rewrite Qmult_1_l. rewrite <- Zle_Qle. lia.
Qed.

Lemma createLookupMap_start (a b : Anchor) (time : Q) :
  x a.1 < x b.1 -> controls_within a b -> time == x a.1 ->
  exists v : Q,
    Sampler.lookup (Sampler.createLookupMap resolution a b) time = Ok v /\ v == y a.1.
Proof.
  intros Hlt Hc Et. unfold Sampler.createLookupMap.
  destruct (a.2 ≫= post) as [c1|] eqn:E1; [destruct (b.2 ≫= pre) as [c2|] eqn:E2|].
  - destruct (Hc c1 c2 E1 E2) as [[? ?] [? ?]].
    assert (Hseq : seq 0 (S resolution) = 0%nat :: 1%nat :: seq 2 (resolution - 1)).
    { destruct resolution; [lia|]. simpl. by rewrite Nat.sub_0_r. }
    rewrite Hseq. cbn [fmap list_fmap].
    destruct (lookup_first
                (Sampler.bezier a.1 c1 c2 b.1 (Sampler.step resolution 0))
                (Sampler.bezier a.1 c1 c2 b.1 (Sampler.step resolution 1))
                ((fun k => Sampler.bezier a.1 c1 c2 b.1 (Sampler.step resolution k))
                   <$> seq 2 (resolution - 1)) time) as (v & Hv & Ev).
    + simpl. rewrite (cubic_start _ _ _ _ _ step_first). by symmetry.
    + simpl. rewrite (cubic_start _ _ _ _ _ step_first).
      apply cubic_above; [apply step_positive; lia|apply step_at_most_one; lia| | |]; done.
    + exists v. split; [done|]. rewrite Ev. simpl. apply cubic_start, step_first.
  - apply lookup_first; [by symmetry|done].
  - apply lookup_first; [by symmetry|done].
Qed.

Lemma createLookupMap_end (a b : Anchor) (time : Q) :
  x a.1 < x b.1 -> controls_within a b -> time == x b.1 ->
  exists v : Q,
    Sampler.lookup (Sampler.createLookupMap resolution a b) time = Ok v /\ v == y b.1.
Proof.
  intros Hlt Hc Et. unfold Sampler.createLookupMap.
  destruct (a.2 ≫= post) as [c1|] eqn:E1; [destruct (b.2 ≫= pre) as [c2|] eqn:E2|].
  - destruct (Hc c1 c2 E1 E2) as [[? ?] [? ?]].
    rewrite seq_S, fmap_app. cbn [fmap list_fmap Nat.add].
    destruct (lookup_last
                ((fun k => Sampler.bezier a.1 c1 c2 b.1 (Sampler.step resolution k))
                   <$> seq 0 resolution)
                (Sampler.bezier a.1 c1 c2 b.1 (Sampler.step resolution resolution))
                time) as (v & Hv & Ev).
    + destruct resolution; [lia|done].
    + apply Forall_fmap, Forall_forall. intros k Hk. apply in_seq in Hk.
      simpl. rewrite Et.
      apply cubic_below; [apply step_nonneg|apply step_below_one; lia| | |]; done.
    + simpl. rewrite (cubic_end _ _ _ _ _ step_last). by symmetry.
    + exists v. split; [done|]. rewrite Ev. simpl. apply cubic_end, step_last.
  - apply (lookup_last [a.1] b.1); [done|by constructor; [lra|]|by symmetry].
  - apply (lookup_last [a.1] b.1); [done|by constructor; [lra|]|by symmetry].
Qed.

End SamplerFacts.

(** ** Sampling at an anchor *)

Lemma absoluteAnchor_post (anchors : Anchors) (point : Vector)
    (rc : option Controls) (i : Z) (b : Anchor) (c1 : Vector) :
  absoluteAnchor anchors (point, rc) i = Ok b ->
  b.2 ≫= post = Some c1 ->
  exists (ph : Vector) (next : Anchor),
    rc ≫= post = Some ph /\ item anchors (i + 1) = Some next
    /\ c1 = addVector point {| x := (x next.1 - x point) * x ph; y := y ph |}.
Proof.
  unfold absoluteAnchor. intros H Hc.
  destruct (rc ≫= pre); [destruct (item anchors (i - 1)); [|done]|];
    (destruct (rc ≫= post) as [ph|]; [destruct (item anchors (i + 1)) as [next|]; [|done]|]);
    simpl in H; inversion H; subst b; simpl in Hc; try done;
    inversion Hc; subst c1; by eexists _, _.
Qed.

Lemma absoluteAnchor_pre (anchors : Anchors) (point : Vector)
    (rc : option Controls) (i : Z) (b : Anchor) (c2 : Vector) :
  absoluteAnchor anchors (point, rc) i = Ok b ->
  b.2 ≫= pre = Some c2 ->
  exists (qh : Vector) (prev : Anchor),
    rc ≫= pre = Some qh /\ item anchors (i - 1) = Some prev
    /\ c2 = addVector point {| x := (x point - x prev.1) * x qh * -(1); y := y qh |}.
Proof.
  unfold absoluteAnchor. intros H Hc.
  destruct (rc ≫= pre) as [qh|]; [destruct (item anchors (i - 1)) as [prev|]; [|done]|];
    (destruct (rc ≫= post); [destruct (item anchors (i + 1)); [|done]|]);
    simpl in H; inversion H; subst b; simpl in Hc; try done;
    inversion Hc; subst c2; by eexists _, _.
Qed.

Lemma fraction_within (d h : Q) : 0 < d -> 0 <= h -> h <= 1 -> 0 <= d * h /\ d * h <= d.
Proof.
  intros Hd H0 H1. split.
  - apply Qmult_le_0_compat; lra.
  - assert (H : d * h <= d * 1) by (by apply Qmult_le_l). lra.
Qed.

(** Consecutive absolute anchors of a sorted store with normalized handles
    are in order, and the control points between them stay between them. *)
Lemma abs_controls_within (anchors abs : list Anchor) (j : nat) (a b : Anchor) :
  time_sorted anchors ->
  handles_normalized anchors ->
  absoluteAnchors anchors = Ok abs ->
  abs !! j = Some a -> abs !! S j = Some b ->
  x a.1 < x b.1 /\ controls_within a b.
Proof.
  intros Hs Hn Habs Ha Hb. pose proof (absoluteAnchors_length _ _ Habs) as Hlen.
  destruct (lookup_lt_is_Some_2 anchors j) as [[pa ca] Hsa];
    [apply lookup_lt_Some in Ha; lia|].
  destruct (lookup_lt_is_Some_2 anchors (S j)) as [[pb cb] Hsb];
    [apply lookup_lt_Some in Hb; lia|].
  destruct (absoluteAnchors_lookup _ _ _ _ Habs Hsa) as (a' & Ha' & Hca).
  destruct (absoluteAnchors_lookup _ _ _ _ Habs Hsb) as (b' & Hb' & Hcb).
  rewrite Ha in Ha'. rewrite Hb in Hb'. inversion Ha'; inversion Hb'; subst a' b'.
  pose proof (absoluteAnchor_position _ _ _ _ Hca) as Epa.
  pose proof (absoluteAnchor_position _ _ _ _ Hcb) as Epb. simpl in Epa, Epb.
  pose proof (time_sorted_adjacent _ Hs j _ _ Hsa Hsb) as Hlt. simpl in Hlt.
  rewrite Epa, Epb. split; [done|].
  intros c1 c2 Hc1 Hc2.
  destruct (absoluteAnchor_post _ _ _ _ _ _ Hca Hc1) as (ph & next & Eph & Enext & ->).
  destruct (absoluteAnchor_pre _ _ _ _ _ _ Hcb Hc2) as (qh & prev & Eqh & Eprev & ->).
  rewrite item_succ, Hsb in Enext. inversion Enext; subst next.
  rewrite item_pred, Hsa in Eprev. inversion Eprev; subst prev.
  unfold handles_normalized in Hn. rewrite Forall_lookup in Hn.
  destruct (Hn j _ Hsa) as [_ Hnp]. destruct (Hn (S j) _ Hsb) as [Hnq _].
  cbn [fst snd] in *. rewrite Eph in Hnp. rewrite Eqh in Hnq.
  destruct Hnp as [Hp0 Hp1]. destruct Hnq as [Hq0 Hq1]. rewrite Epa, Epb. simpl.
  destruct (fraction_within (x pb - x pa) (x ph)) as [? ?]; [lra|done|done|].
  destruct (fraction_within (x pb - x pa) (x qh)) as [? ?]; [lra|done|done|].
  repeat split; lra.
Qed.

Lemma absoluteAnchors_fst (anchors abs : list Anchor) :
  absoluteAnchors anchors = Ok abs -> fst <$> abs = fst <$> anchors.
Proof.
  intros Habs. apply list_eq. intros k. rewrite !list_lookup_fmap.
  by apply absoluteAnchors_position.
Qed.

(** Every segment of a sorted store whose range contains the time of an
    anchor has that anchor at one of its ends, and answers with the
    anchor's value. *)
Lemma segment_answers (resolution : nat) (anchors abs : list Anchor)
    (segs : list (Segment (list Vector))) (i : nat) (a : Anchor) :
  (0 < resolution)%nat ->
  time_sorted anchors ->
  handles_normalized anchors ->
  absoluteAnchors anchors = Ok abs ->
  length segs = (length abs - 1)%nat ->
  (forall (j : nat) (p n : Anchor),
      abs !! j = Some p -> abs !! S j = Some n ->
      segs !! j = Some {| range := (x p.1, x n.1);
                          map := Sampler.createLookupMap resolution p n |}) ->
  anchors !! i = Some a ->
  forall (j : nat) (s : Segment (list Vector)),
    segs !! j = Some s ->
    Sampler.contains s (x a.1) = true ->
    ((range s).1 = x a.1 \/ (range s).2 = x a.1)
    /\ exists v : Q, Sampler.lookup (map s) (x a.1) = Ok v /\ v == y a.1.
Proof.
  intros Hres Hs Hn Habs Hlen Hfw Ha j s Hj Hc.
  assert (Hsa : time_sorted abs).
  { apply (time_sorted_fst anchors); [|done]. symmetry. by apply absoluteAnchors_fst. }
  destruct (absoluteAnchors_lookup _ _ _ _ Habs Ha) as (a' & Ha' & Hca).
  apply absoluteAnchor_position in Hca.
  pose proof (lookup_lt_Some _ _ _ Hj) as Hjlt.
  destruct (lookup_lt_is_Some_2 abs j) as [p Hp]; [lia|].
  destruct (lookup_lt_is_Some_2 abs (S j)) as [n Hn']; [lia|].
  rewrite (Hfw j p n Hp Hn') in Hj. inversion Hj; subst s. clear Hj.
  unfold Sampler.contains in Hc. simpl in Hc. apply andb_true_iff in Hc as [Hc1 Hc2].
  apply Qle_bool_iff in Hc1, Hc2. simpl.
  destruct (abs_controls_within _ _ _ _ _ Hs Hn Habs Hp Hn') as [Hlt Hw].
  destruct (lt_eq_lt_dec j i) as [[Hji|Hji]|Hji].
  - destruct (decide (S j = i)) as [E|E].
    + subst i. rewrite Hn' in Ha'. inversion Ha'; subst a'.
      rewrite <- Hca. split; [by right|].
      apply createLookupMap_end; [done|done|done|reflexivity].
    + assert (Hlt' : x n.1 < x a'.1)
        by (apply (time_sorted_lt _ Hsa (S j) i); [done|done|lia]).
      rewrite Hca in Hlt'. lra.
  - subst i. rewrite Hp in Ha'. inversion Ha'; subst a'.
    rewrite <- Hca. split; [by left|].
    apply createLookupMap_start; [done|done|done|reflexivity].
  - pose proof (time_sorted_lt _ Hsa i j a' p Ha' Hp Hji) as Hlt'.
    rewrite Hca in Hlt'. lra.
Qed.

(** C1, as the code has it.  In a time-sorted store of at least two
    anchors whose handles face a neighbour and have a relative [x] in
    [0, 1], sampling at the time of an anchor returns the value of that
    anchor, in the exact arithmetic of the sampler of sections 4.4 and 4.5.
    The segment whose range contains that time is not unique: the ranges
    are closed and consecutive ranges share an end, so the segments that
    contain the time of an anchor are those that have the anchor at one
    end, one segment for the first and the last anchor and the two adjacent
    ones for an anchor in between.  The sampler answers from the first of
    them, by interpolation at an end of a bracket of samples, and each of
    them answers with the anchor's value. *)
Theorem getValue_at_anchor
    (resolution : nat) (anchors : Anchors) (i : nat) (a : Anchor) :
  (0 < resolution)%nat ->
  time_sorted anchors ->
  handles_face_neighbours anchors ->
  handles_normalized anchors ->
  (2 <= length anchors)%nat ->
  anchors !! i = Some a ->
  exists (v : Q) (all : list (option (Segment (list Vector))))
         (segs : list (Segment (list Vector))) (s : Segment (list Vector)),
    sampledValue resolution anchors (x a.1) = Ok v
    /\ v == y a.1
    /\ lookupMapSegments (list Vector) (Sampler.createLookupMap resolution) anchors = Ok all
    /\ as_segments (list Vector) (slice_0_m1 all) = Ok segs
    /\ List.find (fun s => Sampler.contains s (x a.1)) segs = Some s
    /\ Sampler.contains s (x a.1) = true
    /\ (forall (j : nat) (s' : Segment (list Vector)),
          segs !! j = Some s' -> j = i \/ S j = i ->
          Sampler.contains s' (x a.1) = true)
    /\ forall s' : Segment (list Vector),
         s' ∈ segs -> Sampler.contains s' (x a.1) = true ->
         ((range s').1 = x a.1 \/ (range s').2 = x a.1)
         /\ exists v' : Q, Sampler.lookup (map s') (x a.1) = Ok v' /\ v' == y a.1.
Proof.
  intros Hres Hs Hf Hn Hlen Ha.
  destruct (absoluteAnchors_total _ Hf) as [abs Habs].
  pose proof (absoluteAnchors_length _ _ Habs) as Hlabs.
  destruct (segments_of (list Vector) (Sampler.createLookupMap resolution) _ _ Habs)
    as (all & segs & Hall & Hsegs & Hlsegs & Hfw).
  pose proof (segment_answers resolution _ _ _ _ _ Hres Hs Hn Habs Hlsegs Hfw Ha) as Hans.
  assert (Hsa : time_sorted abs).
  { apply (time_sorted_fst anchors); [|done]. symmetry. by apply absoluteAnchors_fst. }
  destruct (absoluteAnchors_lookup _ _ _ _ Habs Ha) as (a' & Ha' & Hca).
  apply absoluteAnchor_position in Hca.
  pose proof (lookup_lt_Some _ _ _ Ha) as Hi.
  (* a segment that contains the time of the anchor *)
  assert (Hex : exists (j : nat) (s0 : Segment (list Vector)),
             segs !! j = Some s0 /\ Sampler.contains s0 (x a.1) = true).
  { destruct i as [|i'].
    - destruct (lookup_lt_is_Some_2 abs 1) as [n Hn']; [lia|].
      exists 0%nat. eexists. split; [apply (Hfw 0%nat a' n Ha' Hn')|].
      unfold Sampler.contains. simpl. rewrite Hca. apply andb_true_iff.
      pose proof (time_sorted_lt _ Hsa 0 1 a' n Ha' Hn') as Hlt. rewrite Hca in Hlt.
      split; apply Qle_bool_iff; [apply Qle_refl|]. apply Qlt_le_weak, Hlt. lia.
    - destruct (lookup_lt_is_Some_2 abs i') as [p Hp]; [lia|].
      exists i'. eexists. split; [apply (Hfw i' p a' Hp Ha')|].
      unfold Sampler.contains. simpl. rewrite Hca. apply andb_true_iff.
      pose proof (time_sorted_lt _ Hsa i' (S i') p a' Hp Ha') as Hlt. rewrite Hca in Hlt.
      split; apply Qle_bool_iff; [|apply Qle_refl]. apply Qlt_le_weak, Hlt. lia. }
  destruct Hex as (j0 & s0 & Hs0 & Hc0).
  destruct (List.find (fun s => Sampler.contains s (x a.1)) segs) as [s|] eqn:Hfind.
  - apply find_some in Hfind as Hfound. destruct Hfound as [Hin Hcs].
    apply list_elem_of_In, list_elem_of_lookup in Hin as [j Hj].
    destruct (Hans j s Hj Hcs) as (_ & v & Hv & Ev).
    exists v, all, segs, s. split.
    { unfold sampledValue, getValue. rewrite Hall. simpl. rewrite Hsegs. simpl.
      unfold Sampler.getValueFromSegments. by rewrite Hfind. }
    split; [done|]. split; [done|]. split; [done|]. split; [done|]. split; [done|].
    split.
    { intros j' s' Hj' Hadj. pose proof (lookup_lt_Some _ _ _ Hj') as Hlt'.
      destruct (lookup_lt_is_Some_2 abs j') as [p Hp]; [lia|].
      destruct (lookup_lt_is_Some_2 abs (S j')) as [n Hn']; [lia|].
      rewrite (Hfw j' p n Hp Hn') in Hj'. injection Hj' as <-.
      pose proof (time_sorted_lt _ Hsa j' (S j') p n Hp Hn') as Hpn.
      unfold Sampler.contains. simpl. apply andb_true_iff.
      destruct Hadj as [->|<-].
      - rewrite Hp in Ha'. injection Ha' as <-. rewrite <- Hca.
        split; apply Qle_bool_iff; [apply Qle_refl|]. apply Qlt_le_weak, Hpn. lia.
      - rewrite Hn' in Ha'. injection Ha' as <-. rewrite <- Hca.
        split; apply Qle_bool_iff; [|apply Qle_refl]. apply Qlt_le_weak, Hpn. lia. }
    intros s' Hin' Hc'. apply list_elem_of_lookup in Hin' as [j' Hj'].
    by apply (Hans j' s').
  - exfalso. pose proof (find_none _ _ Hfind s0) as Hnone. simpl in Hnone.
    rewrite Hnone in Hc0; [done|]. apply list_elem_of_In, list_elem_of_lookup. by exists j0.
Qed.

Lemma getValue_at_anchor_witness :
  exists (v : Q) (all : list (option (Segment (list Vector))))
         (segs : list (Segment (list Vector))) (s : Segment (list Vector)),
    sampledValue 4 three_anchors 5 = Ok v
    /\ v == 5
    /\ lookupMapSegments (list Vector) (Sampler.createLookupMap 4) three_anchors = Ok all
    /\ as_segments (list Vector) (slice_0_m1 all) = Ok segs
    /\ List.find (fun s => Sampler.contains s 5) segs = Some s
    /\ Sampler.contains s 5 = true
    /\ (forall (j : nat) (s' : Segment (list Vector)),
          segs !! j = Some s' -> j = 1%nat \/ S j = 1%nat ->
          Sampler.contains s' 5 = true)
    /\ forall s' : Segment (list Vector),
         s' ∈ segs -> Sampler.contains s' 5 = true ->
         ((range s').1 = 5 \/ (range s').2 = 5)
         /\ exists v' : Q, Sampler.lookup (map s') 5 = Ok v' /\ v' == 5.
Proof.
  apply (getValue_at_anchor 4 three_anchors 1
           ({| x := 5; y := 5 |},
            Some {| pre := Some default_control; post := Some default_control |})).
  - lia.
  - simpl. repeat split; reflexivity.
  - unfold handles_face_neighbours; simpl. repeat split; intros; done.
  - repeat constructor; simpl; try done; vm_compute; discriminate.
  - simpl. lia.
  - reflexivity.
Defined.

(** C1, as stated, fails: the segment that contains the time of an anchor
    is not unique.  In the store of three anchors at the times 0, 5 and 10
    [getValue] builds the segments of ranges [(0, 5)] and [(5, 10)], and
    both contain the time 5 of the middle anchor. *)
Lemma anchor_time_in_two_segments :
  exists (all : list (option (Segment (list Vector)))) (s1 s2 : Segment (list Vector)),
    lookupMapSegments (list Vector) (Sampler.createLookupMap 4) three_anchors = Ok all
    /\ as_segments (list Vector) (slice_0_m1 all) = Ok [s1; s2]
    /\ range s1 = (0, 5)
    /\ range s2 = (5, 10)
    /\ s1 <> s2
    /\ ((range s1).1 <= 5 <= (range s1).2 /\ (range s2).1 <= 5 <= (range s2).2)
    /\ Sampler.contains s1 5 = true
    /\ Sampler.contains s2 5 = true.
Proof.
  eexists _, _, _. split; [reflexivity|]. split; [reflexivity|].
  split; [reflexivity|]. split; [reflexivity|]. split; [|split].
  - intros E. apply (f_equal range) in E. discriminate E.
  - simpl. repeat split; vm_compute; discriminate.
  - split; reflexivity.
Qed.

(** ** The scenarios of section 8, run on the model *)

(** Two anchors without handles: the piece is a straight line. *)
Example sample_straight_line :
  exists v : Q,
    sampledValue 4 [({| x := 0; y := 0 |}, None); ({| x := 10; y := 10 |}, None)] 5 = Ok v
    /\ v == 5.
Proof. eexists. split; [vm_compute; reflexivity|reflexivity]. Qed.

(** [addAnchor(5)] into [[(0,0), (10,10)]] inserts at index 1, with the value
    the curve had at 5 before the insertion. *)
Example addAnchor_samples_before_inserting :
  exists (v : Q) (after : Anchors),
    sampledValue 4 two_anchors 5 = Ok v
    /\ sampledAddAnchor 5 None two_anchors = (after, Ok tt)
    /\ after !! 1%nat
       = Some ({| x := 5; y := v |},
               Some {| pre := Some default_control; post := Some default_control |})
    /\ length after = 3%nat.
Proof.
  eexists _, _. split; [vm_compute; reflexivity|].
  split; [vm_compute; reflexivity|]. split; reflexivity.
Qed.

(** [addAnchor] then [deleteAnchor] at the resulting index restores the
    store. *)
Example addAnchor_then_deleteAnchor :
  (deleteAnchor 1 (sampledAddAnchor 5 (Some 5) two_anchors).1).1 = two_anchors.
Proof. reflexivity. Qed.

(* ================================================================== *)
(** * Part IV: further properties of the code *)
(* ================================================================== *)

(** ** The deriver *)

(** When the indexed pass throws, one of the callbacks threw. *)
Lemma createIndexMemo_from_Throw {A B} (f : A -> Z -> Outcome B) (l : list A) :
  forall (i : Z) (e : Exn),
    createIndexMemo_from f i l = Throw e ->
    exists (k : nat) (a : A), l !! k = Some a /\ f a (i + Z.of_nat k)%Z = Throw e.
Proof.
  induction l as [|a l IH]; intros i e H; [done|].
  simpl in H. destruct (f a i) as [b|e'] eqn:Ef.
  - simpl in H. destruct (createIndexMemo_from f (i + 1)%Z l) as [bs|e''] eqn:El; [done|].
    simpl in H. injection H as ->.
    destruct (IH _ _ El) as (k & a' & Hk & Hf).
    exists (S k), a'. split; [done|].
    by replace (i + Z.of_nat (S k))%Z with (i + 1 + Z.of_nat k)%Z by lia.
  - simpl in H. injection H as ->. exists 0%nat, a. split; [done|].
    by replace (i + Z.of_nat 0)%Z with i by lia.
Qed.

(** The callback of the deriver throws nothing but the [TypeError] of a
    missing neighbour. *)
Lemma absoluteAnchor_Throw (anchors : Anchors) (a : Anchor) (i : Z) (e : Exn) :
  absoluteAnchor anchors a i = Throw e -> e = TypeError.
Proof.
  destruct a as [point rc]. unfold absoluteAnchor.
  destruct (rc ≫= pre) as [p|]; destruct (rc ≫= post) as [q|];
    destruct (item anchors (i - 1)) as [prev|];
    destruct (item anchors (i + 1)) as [next|]; simpl; congruence.
Qed.

(** Where the callback of the deriver returns, the handles of its anchor
    have the neighbours they refer to. *)
Lemma absoluteAnchor_Ok_faces (anchors : Anchors) (a b : Anchor) (i : nat) :
  absoluteAnchor anchors a (Z.of_nat i) = Ok b ->
  (is_Some (a.2 ≫= pre) -> (0 < i)%nat)
  /\ (is_Some (a.2 ≫= post) -> (S i < length anchors)%nat).
Proof.
  destruct a as [point rc]. unfold absoluteAnchor. rewrite item_pred, item_succ.
  simpl. intros H. split.
  - intros [p Hp]. rewrite Hp in H. destruct i as [|j]; [done|lia].
  - intros [q Hq]. rewrite Hq in H.
    destruct (anchors !! S i) as [next|] eqn:En.
    + by apply lookup_lt_Some in En.
    + destruct (rc ≫= pre) as [p|]; [|done].
      destruct (match i with O => None | S j => anchors !! j end); done.
Qed.

(** So a deriver that returns has met no handle without its neighbour. *)
Lemma absoluteAnchors_Ok_faces (anchors abs : list Anchor) :
  absoluteAnchors anchors = Ok abs -> handles_face_neighbours anchors.
Proof.
  intros H. apply handles_face_of_lookup. intros i a Hi.
  destruct (absoluteAnchors_lookup _ _ _ _ H Hi) as (b & _ & Hb).
  destruct (absoluteAnchor_Ok_faces _ _ _ _ Hb) as [H1 H2].
  split; [intros Hp; right; by apply H1|done].
Qed.

(** The deriver throws nothing but [TypeError]. *)
Lemma absoluteAnchors_Throw (anchors : Anchors) (e : Exn) :
  absoluteAnchors anchors = Throw e -> e = TypeError.
Proof.
  intros H. apply createIndexMemo_from_Throw in H as (k & a & _ & H).
  by apply absoluteAnchor_Throw in H.
Qed.

(** A handle that faces nothing makes the deriver throw. *)
Lemma absoluteAnchors_dangling (anchors : Anchors) :
  ~ handles_face_neighbours anchors -> absoluteAnchors anchors = Throw TypeError.
Proof.
  intros Hn. destruct (absoluteAnchors anchors) as [abs|e] eqn:E.
  - destruct Hn. by apply absoluteAnchors_Ok_faces in E.
  - by rewrite (absoluteAnchors_Throw _ _ E).
Qed.

(** X1.  [absoluteAnchors] changes no position: when it returns, the
    result has one element per anchor, with the same positions in the same
    order, so a time-sorted store stays time-sorted; and every element
    carries a controls object, also where the store had none. *)
Theorem absoluteAnchors_keeps_positions (anchors abs : list Anchor) :
  absoluteAnchors anchors = Ok abs ->
  length abs = length anchors
  /\ fst <$> abs = fst <$> anchors
  /\ (forall b : Anchor, b ∈ abs -> is_Some b.2)
  /\ (time_sorted anchors -> time_sorted abs).
Proof.
  intros H. split; [by apply absoluteAnchors_length|].
  pose proof (absoluteAnchors_fst _ _ H) as Hfst.
  split; [done|]. split.
  - intros b Hb. apply list_elem_of_lookup in Hb as [i Hi].
    assert (Hlt : (i < length anchors)%nat).
    { rewrite <- (absoluteAnchors_length _ _ H). by apply lookup_lt_Some in Hi. }
    destruct (lookup_lt_is_Some_2 _ _ Hlt) as [[point rc] Ha].
    destruct (absoluteAnchors_lookup _ _ _ _ H Ha) as (b' & Hb' & Hrun).
    rewrite Hi in Hb'. injection Hb' as <-.
    unfold absoluteAnchor in Hrun.
    destruct (match rc ≫= pre with Some _ => _ | None => _ end) as [p'|]; [|done].
    simpl in Hrun.
    destruct (match rc ≫= post with Some _ => _ | None => _ end) as [q'|]; [|done].
    simpl in Hrun. injection Hrun as <-. by eexists.
  - apply time_sorted_fst. by symmetry.
Qed.

Lemma absoluteAnchors_keeps_positions_witness :
  exists abs : list Anchor,
    absoluteAnchors three_anchors = Ok abs
    /\ length abs = length three_anchors
    /\ fst <$> abs = fst <$> three_anchors
    /\ (forall b : Anchor, b ∈ abs -> is_Some b.2)
    /\ (time_sorted three_anchors -> time_sorted abs).
Proof.
  eexists. split; [reflexivity|].
  apply (absoluteAnchors_keeps_positions three_anchors). reflexivity.
Defined.

(** X2.  [absoluteAnchors] returns exactly when every handle faces a
    neighbour; otherwise it throws, and the only exception it throws is the
    [TypeError] of reading the position of a missing neighbour. *)
Theorem absoluteAnchors_throws_when_dangling (anchors : Anchors) :
  (handles_face_neighbours anchors /\ exists abs, absoluteAnchors anchors = Ok abs)
  \/ (~ handles_face_neighbours anchors /\ absoluteAnchors anchors = Throw TypeError).
Proof.
  destruct (absoluteAnchors anchors) as [abs|e] eqn:E.
  - left. split; [by apply absoluteAnchors_Ok_faces in E|by exists abs].
  - right. assert (Hn : ~ handles_face_neighbours anchors).
    { intros Hf. destruct (absoluteAnchors_total _ Hf) as [abs E']. congruence. }
    split; [done|]. by rewrite (absoluteAnchors_Throw _ _ E).
Qed.

(** X3.  In a time-sorted store whose anchor times are integers that a
    JavaScript number holds exactly (magnitude at most [2^52], so that the
    distance between two neighbours is exact) and whose handles have their
    relative [x] in [[0, 1]], every control point [absoluteAnchors] resolves
    lies in time between its anchor and the neighbour it faces: a [pre]
    between the previous anchor and its own, a [post] between its own and
    the next. *)
Theorem absoluteAnchors_controls_between (anchors abs : list Anchor) (i : nat) (b : Anchor) :
  time_sorted anchors ->
  whole_times anchors ->
  handles_normalized anchors ->
  absoluteAnchors anchors = Ok abs ->
  abs !! i = Some b ->
  (forall w : Vector, b.2 ≫= pre = Some w ->
     exists prev : Anchor,
       item anchors (Z.of_nat i - 1) = Some prev /\ x prev.1 <= x w /\ x w <= x b.1)
  /\ (forall w : Vector, b.2 ≫= post = Some w ->
        exists next : Anchor,
          item anchors (Z.of_nat i + 1) = Some next /\ x b.1 <= x w /\ x w <= x next.1).
Proof.
  intros Hs _ Hn Habs Hb. pose proof (absoluteAnchors_length _ _ Habs) as Hlen.
  destruct (lookup_lt_is_Some_2 anchors i) as [[point rc] Ha];
    [apply lookup_lt_Some in Hb; lia|].
  destruct (absoluteAnchors_lookup _ _ _ _ Habs Ha) as (b' & Hb' & Hrun).
  rewrite Hb in Hb'. injection Hb' as <-.
  pose proof (absoluteAnchor_position _ _ _ _ Hrun) as Ep. simpl in Ep.
  unfold handles_normalized in Hn. rewrite Forall_lookup in Hn.
  destruct (Hn i _ Ha) as [Hnpre Hnpost]. cbn [fst snd] in Hnpre, Hnpost.
  split.
  - intros w Hw.
    destruct (absoluteAnchor_pre _ _ _ _ _ _ Hrun Hw) as (qh & prev & Eqh & Eprev & ->).
    exists prev. split; [done|]. rewrite Eqh in Hnpre. destruct Hnpre as [H0 H1].
    assert (Hlt : x prev.1 < x point).
    { rewrite item_pred in Eprev. destruct i as [|j]; [done|].
      apply (time_sorted_adjacent _ Hs j _ _ Eprev Ha). }
    rewrite Ep. simpl.
    destruct (fraction_within (x point - x prev.1) (x qh)) as [? ?]; [lra|done|done|].
    split; lra.
  - intros w Hw.
    destruct (absoluteAnchor_post _ _ _ _ _ _ Hrun Hw) as (ph & next & Eph & Enext & ->).
    exists next. split; [done|]. rewrite Eph in Hnpost. destruct Hnpost as [H0 H1].
    assert (Hlt : x point < x next.1).
    { rewrite item_succ in Enext. apply (time_sorted_adjacent _ Hs i _ _ Ha Enext). }
    rewrite Ep. simpl.
    destruct (fraction_within (x next.1 - x point) (x ph)) as [? ?]; [lra|done|done|].
    split; lra.
Qed.

Lemma absoluteAnchors_controls_between_witness :
  let b : Anchor := ({| x := 5; y := 5 |},
            Some {| pre := Some {| x := 5 + (5 - 0) * (1 # 2) * -(1); y := 5 + 0 |};
                    post := Some {| x := 5 + (10 - 5) * (1 # 2); y := 5 + 0 |} |}) in
  (forall w : Vector, b.2 ≫= pre = Some w ->
     exists prev : Anchor,
       item three_anchors (Z.of_nat 1 - 1) = Some prev /\ x prev.1 <= x w /\ x w <= x b.1)
  /\ (forall w : Vector, b.2 ≫= post = Some w ->
        exists next : Anchor,
          item three_anchors (Z.of_nat 1 + 1) = Some next /\ x b.1 <= x w /\ x w <= x next.1).
Proof.
  apply (absoluteAnchors_controls_between three_anchors
           [ ({| x := 0; y := 0 |},
              Some {| pre := None;
                      post := Some {| x := 0 + (5 - 0) * (1 # 2); y := 0 + 0 |} |});
             ({| x := 5; y := 5 |},
              Some {| pre := Some {| x := 5 + (5 - 0) * (1 # 2) * -(1); y := 5 + 0 |};
                      post := Some {| x := 5 + (10 - 5) * (1 # 2); y := 5 + 0 |} |});
             ({| x := 10; y := 10 |},
              Some {| pre := Some {| x := 10 + (10 - 5) * (1 # 2) * -(1); y := 10 + 0 |};
                      post := None |}) ] 1).
  - simpl. repeat split; reflexivity.
  - repeat constructor; simpl; [whole_at 0%Z|whole_at 5%Z|whole_at 10%Z].
  - repeat constructor; simpl; try done; vm_compute; discriminate.
  - reflexivity.
  - reflexivity.
Defined.

(** ** The segments handed to the sampler *)

Section SegmentChain.

Variable LookupMap : Type.
Variable createLookupMap : Anchor -> Anchor -> LookupMap.
Variable getValueFromSegments : list (Segment LookupMap) -> Q -> Outcome Q.

(** X4.  When the deriver returns, [getValue] hands the sampler one
    segment per pair of consecutive anchors, in order: one segment fewer
    than there are anchors, the segment at [j] ranging from the time of
    anchor [j] to the time of anchor [j + 1] with the lookup map of the two
    absolute anchors, so each segment starts where the previous one ends.
    The [undefined] entry of the last anchor is sliced off before the cast. *)
Theorem getValue_segments_chain (anchors abs : list Anchor) (time : Q) :
  absoluteAnchors anchors = Ok abs ->
  exists segs : list (Segment LookupMap),
    getValue LookupMap createLookupMap getValueFromSegments anchors time
    = getValueFromSegments segs time
    /\ length segs = (length anchors - 1)%nat
    /\ (forall (j : nat) (s : Segment LookupMap),
          segs !! j = Some s ->
          exists (a b a' b' : Anchor),
            anchors !! j = Some a /\ anchors !! S j = Some b
            /\ abs !! j = Some a' /\ abs !! S j = Some b'
            /\ s = {| range := (x a.1, x b.1); map := createLookupMap a' b' |})
    /\ (forall (j : nat) (s s' : Segment LookupMap),
          segs !! j = Some s -> segs !! S j = Some s' -> (range s).2 = (range s').1).
Proof.
  intros Habs. pose proof (absoluteAnchors_length _ _ Habs) as Hlen.
  destruct (segments_of LookupMap createLookupMap _ _ Habs)
    as (all & segs & Hall & Hsegs & Hlsegs & Hseg).
  assert (Hat : forall (j : nat) (s : Segment LookupMap),
             segs !! j = Some s ->
             exists (a b a' b' : Anchor),
               anchors !! j = Some a /\ anchors !! S j = Some b
               /\ abs !! j = Some a' /\ abs !! S j = Some b'
               /\ s = {| range := (x a.1, x b.1); map := createLookupMap a' b' |}).
  { intros j s Hs. pose proof (lookup_lt_Some _ _ _ Hs) as Hj.
    destruct (lookup_lt_is_Some_2 abs j) as [a' Ha']; [lia|].
    destruct (lookup_lt_is_Some_2 abs (S j)) as [b' Hb']; [lia|].
    destruct (lookup_lt_is_Some_2 anchors j) as [a Ha]; [lia|].
    destruct (lookup_lt_is_Some_2 anchors (S j)) as [b Hb]; [lia|].
    exists a, b, a', b'. repeat (split; [done|]).
    rewrite (Hseg j a' b' Ha' Hb') in Hs. injection Hs as <-.
    pose proof (absoluteAnchors_position _ _ j Habs) as E1.
    pose proof (absoluteAnchors_position _ _ (S j) Habs) as E2.
    rewrite Ha, Ha' in E1. rewrite Hb, Hb' in E2. simpl in E1, E2.
    injection E1 as ->. injection E2 as ->. done. }
  exists segs. split; [|split; [lia|split; [done|]]].
  - unfold getValue. rewrite Hall. simpl. rewrite Hsegs. done.
  - intros j s s' Hs Hs'.
    destruct (Hat _ _ Hs) as (a & b & a' & b' & Ha & Hb & _ & _ & ->).
    destruct (Hat _ _ Hs') as (a2 & b2 & a2' & b2' & Ha2 & _ & _ & _ & ->).
    simpl. rewrite Hb in Ha2. by injection Ha2 as ->.
Qed.

End SegmentChain.

Lemma getValue_segments_chain_witness :
  exists (abs : list Anchor) (segs : list (Segment (list Vector))),
    absoluteAnchors three_anchors = Ok abs
    /\ sampledValue 4 three_anchors 7 = Sampler.getValueFromSegments segs 7
    /\ length segs = (length three_anchors - 1)%nat
    /\ (forall (j : nat) (s : Segment (list Vector)),
          segs !! j = Some s ->
          exists (a b a' b' : Anchor),
            three_anchors !! j = Some a /\ three_anchors !! S j = Some b
            /\ abs !! j = Some a' /\ abs !! S j = Some b'
            /\ s = {| range := (x a.1, x b.1); map := Sampler.createLookupMap 4 a' b' |})
    /\ (forall (j : nat) (s s' : Segment (list Vector)),
          segs !! j = Some s -> segs !! S j = Some s' -> (range s).2 = (range s').1).
Proof.
  destruct (absoluteAnchors three_anchors) as [abs|e] eqn:E; [|discriminate E].
  destruct (getValue_segments_chain (list Vector) (Sampler.createLookupMap 4)
              Sampler.getValueFromSegments three_anchors abs 7 E) as (segs & H).
  exists abs, segs. split; [reflexivity|exact H].
Defined.


(** ** Deleting *)

Lemma deleteAnchor_eq (index : Z) (anchors : Anchors) :
  deleteAnchor index anchors = (splice anchors index 1 [], Ok tt).
Proof. reflexivity. Qed.

(** Whatever the index, [deleteAnchor] leaves the store as it is or removes
    exactly one anchor of it. *)
Lemma deleteAnchor_cases (index : Z) (anchors : Anchors) :
  (deleteAnchor index anchors).1 = anchors
  \/ exists k : nat, (k < length anchors)%nat
                     /\ (deleteAnchor index anchors).1 = delete k anchors.
Proof.
  rewrite deleteAnchor_eq. simpl.
  destruct (Z.ltb_spec index 0) as [Hneg|Hpos].
  - destruct anchors as [|a l] eqn:E;
      [left; unfold splice; by rewrite take_nil, drop_nil|]. right.
    exists (Z.to_nat (Z.max (Z.of_nat (length (a :: l)) + index) 0)). split.
    + simpl length. lia.
    + by apply splice_negative.
  - destruct (Z.ltb_spec index (Z.of_nat (length anchors))) as [Hlt|Hge].
    + right. exists (Z.to_nat index). split; [lia|].
      rewrite <- (splice_delete_one anchors (Z.to_nat index)) by lia.
      by rewrite Z2Nat.id.
    + left. by apply splice_beyond.
Qed.

(** Removing an element of a time-sorted store leaves it time-sorted. *)
Lemma time_sorted_delete (l : Anchors) :
  forall k : nat, time_sorted l -> time_sorted (delete k l).
Proof.
  induction l as [|a l IH]; intros k Hs; [by destruct k|].
  destruct k as [|k].
  - by apply time_sorted_cons in Hs as [_ ?].
  - change (delete (S k) (a :: l)) with (a :: delete k l).
    apply time_sorted_cons. split.
    + intros b Hb. rewrite head_lookup in Hb.
      assert (Hj : exists j : nat, l !! j = Some b).
      { destruct k as [|k].
        - rewrite list_lookup_delete_ge in Hb by lia. by eexists.
        - rewrite list_lookup_delete_lt in Hb by lia. by eexists. }
      destruct Hj as [j Hj].
      apply (time_sorted_lt (a :: l) Hs 0 (S j) a b); [done|done|lia].
    + apply IH. by apply time_sorted_cons in Hs as [_ ?].
Qed.

(** X5.  [deleteAnchor] never throws and, whatever the index (negative
    and out of range included), leaves a subsequence of the store that is at
    most one anchor shorter; a time-sorted store stays time-sorted and
    handles with relative [x] in [[0, 1]] stay so. *)
Theorem deleteAnchor_keeps_order (anchors : Anchors) (index : Z) :
  let after := (deleteAnchor index anchors).1 in
  (deleteAnchor index anchors).2 = Ok tt
  /\ (length after <= length anchors <= S (length after))%nat
  /\ after `sublist_of` anchors
  /\ (time_sorted anchors -> time_sorted after)
  /\ (handles_normalized anchors -> handles_normalized after).
Proof.
  intros after. split; [done|].
  destruct (deleteAnchor_cases index anchors) as [E|(k & Hk & E)];
    unfold after; rewrite E; clear E after.
  - split; [lia|]. split; [done|]. split; done.
  - split; [rewrite length_delete by (by apply lookup_lt_is_Some_2); lia|].
    split; [apply sublist_delete|].
    split; [apply time_sorted_delete|]. apply Forall_delete.
Qed.

Lemma deleteAnchor_keeps_order_witness :
  let after := (deleteAnchor 1 three_anchors).1 in
  time_sorted after /\ handles_normalized after.
Proof.
  destruct (deleteAnchor_keeps_order three_anchors 1) as (_ & _ & _ & Hs & Hn).
  split; [apply Hs|apply Hn].
  - simpl. repeat split; reflexivity.
  - repeat constructor; simpl; try done; vm_compute; discriminate.
Defined.

(** X6.  Deleting an anchor that has both neighbours keeps every handle
    facing a neighbour, so the deriver still returns on the store that is
    left. *)
Theorem deleteAnchor_interior_keeps_handles (anchors : Anchors) (i : nat) :
  handles_face_neighbours anchors ->
  (0 < i)%nat -> (S i < length anchors)%nat ->
  let after := (deleteAnchor (Z.of_nat i) anchors).1 in
  after = delete i anchors
  /\ handles_face_neighbours after
  /\ exists abs : list Anchor, absoluteAnchors after = Ok abs.
Proof.
  intros Hf H0 Hi after.
  assert (E : after = delete i anchors).
  { unfold after. rewrite deleteAnchor_eq. simpl. apply splice_delete_one. lia. }
  assert (Hf' : handles_face_neighbours after).
  { rewrite E. apply handles_face_of_lookup. intros j a Hj.
    rewrite length_delete by (apply lookup_lt_is_Some_2; lia).
    destruct (Nat.lt_ge_cases j i) as [Hlt|Hge].
    - rewrite list_lookup_delete_lt in Hj by done.
      destruct (handles_face_lookup _ _ Hf j a Hj) as [Hp Hq]. split; [done|].
      intros Hs. lia.
    - rewrite list_lookup_delete_ge in Hj by done.
      destruct (handles_face_lookup _ _ Hf (S j) a Hj) as [Hp Hq]. split.
      + intros _. right. lia.
      + intros Hs. specialize (Hq Hs). lia. }
  split; [done|]. split; [done|]. by apply absoluteAnchors_total.
Qed.

Lemma deleteAnchor_interior_keeps_handles_witness :
  let after := (deleteAnchor (Z.of_nat 1) three_anchors).1 in
  after = delete 1%nat three_anchors
  /\ handles_face_neighbours after
  /\ exists abs : list Anchor, absoluteAnchors after = Ok abs.
Proof.
  apply (deleteAnchor_interior_keeps_handles three_anchors 1).
  - unfold handles_face_neighbours; simpl. repeat split; intros; done.
  - lia.
  - simpl. lia.
Defined.

(** X7.  Deleting the last anchor leaves the anchor before it as it
    was: when that anchor has a [post] handle, the handle is kept, faces
    nothing any more, and the deriver throws [TypeError] on the store that is
    left. *)
Theorem deleteAnchor_last_leaves_post (anchors : Anchors) (a : Anchor) (n : nat) :
  length anchors = S (S n) ->
  anchors !! n = Some a ->
  is_Some (a.2 ≫= post) ->
  let after := (deleteAnchor (Z.of_nat (S n)) anchors).1 in
  after = take (S n) anchors
  /\ after !! n = Some a
  /\ absoluteAnchors after = Throw TypeError.
Proof.
  intros Hlen Ha Hpost after.
  assert (E : after = take (S n) anchors).
  { unfold after. rewrite deleteAnchor_eq. simpl. rewrite splice_delete_one by lia.
    rewrite delete_take_drop. rewrite (drop_ge anchors (S (S n))) by lia.
    by rewrite app_nil_r. }
  assert (Ha' : after !! n = Some a).
  { rewrite E. rewrite lookup_take_lt by lia. done. }
  split; [done|]. split; [done|].
  apply absoluteAnchors_dangling. intros Hf.
  destruct (handles_face_lookup _ _ Hf n a Ha') as [_ Hq]. specialize (Hq Hpost).
  rewrite E in Hq. rewrite length_take in Hq. lia.
Qed.

Lemma deleteAnchor_last_leaves_post_witness :
  let after := (deleteAnchor (Z.of_nat 2) three_anchors).1 in
  after = take 2 three_anchors
  /\ after !! 1%nat
     = Some ({| x := 5; y := 5 |},
             Some {| pre := Some default_control; post := Some default_control |})
  /\ absoluteAnchors after = Throw TypeError.
Proof.
  apply (deleteAnchor_last_leaves_post three_anchors
           ({| x := 5; y := 5 |},
            Some {| pre := Some default_control; post := Some default_control |}) 1).
  - reflexivity.
  - reflexivity.
  - simpl. by eexists.
Defined.


(** ** Inserting *)

(** [findIndex] answers with the place of the first element that satisfies
    the test, or with [-1]. *)
Lemma findIndex_place {A} (p : A -> bool) (l : list A) :
  exists k : nat,
    (k <= length l)%nat
    /\ findIndex p l = (if (k <? length l)%nat then Z.of_nat k else -1)%Z.
Proof.
  destruct (findIndex_from_spec p l 0) as [[E _]|(k & a & E & Ha & _)].
  - exists (length l). split; [done|]. by rewrite Nat.ltb_irrefl.
  - apply lookup_lt_Some in Ha as Hlt. exists k. split; [lia|].
    destruct (Nat.ltb_spec k (length l)); [|lia]. unfold findIndex. rewrite E. lia.
Qed.

(** An index [findIndex] answers with lies inside the array. *)
Lemma findIndex_found {A} (p : A -> bool) (l : list A) (k : nat) :
  findIndex p l = Z.of_nat k -> (k < length l)%nat.
Proof.
  intros E. destruct (findIndex_place p l) as (k' & Hk' & E').
  rewrite E in E'. destruct (Nat.ltb_spec k' (length l)); lia.
Qed.

(** The default handle [(0.5, 0)] lies in the range of the data model. *)
Lemma default_control_normalized : normalized (Some default_control).
Proof. simpl. split; vm_compute; discriminate. Qed.

(** Spreading the controls an anchor may lack keeps the handles it has. *)
Lemma default_post (c : option Controls) :
  post (default {| pre := None; post := None |} c) = c ≫= post.
Proof. by destruct c. Qed.

Lemma default_pre (c : option Controls) :
  pre (default {| pre := None; post := None |} c) = c ≫= pre.
Proof. by destruct c. Qed.

(** An anchor with both handles spliced in strictly inside the store keeps
    every handle facing a neighbour. *)
Lemma handles_face_splice_inside (anchors : Anchors) (k : nat) (new : Anchor) :
  handles_face_neighbours anchors ->
  (0 < k)%nat -> (k < length anchors)%nat ->
  handles_face_neighbours (take k anchors ++ [new] ++ drop k anchors).
Proof.
  intros Hf H0 Hk. apply handles_face_of_lookup. intros j a Hj.
  rewrite !length_app, length_take, length_drop. simpl.
  destruct (Nat.lt_ge_cases j k) as [Hlt|Hge].
  - rewrite lookup_app_l in Hj by (rewrite length_take; lia).
    rewrite lookup_take_lt in Hj by done.
    destruct (handles_face_lookup _ _ Hf j a Hj) as [Hp Hq]. split; [done|].
    intros Hs. specialize (Hq Hs). lia.
  - rewrite lookup_app_r in Hj by (rewrite length_take; lia).
    rewrite length_take in Hj. replace (k `min` length anchors)%nat with k in Hj by lia.
    destruct (j - k)%nat as [|m] eqn:Em.
    + split; [intros _; right; lia|intros _; lia].
    + simpl in Hj. rewrite lookup_drop in Hj.
      destruct (handles_face_lookup _ _ Hf _ a Hj) as [Hp Hq]. split.
      * intros _. right. lia.
      * intros Hs. specialize (Hq Hs). lia.
Qed.

(** [splice] keeps the handles in their range when the new items have
    theirs in it. *)
Lemma handles_normalized_splice (anchors : Anchors) (start count : Z) (items : Anchors) :
  handles_normalized anchors -> handles_normalized items ->
  handles_normalized (splice anchors start count items).
Proof.
  intros Ha Hi. unfold handles_normalized, splice in *.
  apply Forall_app. split; [by apply Forall_take|].
  apply Forall_app. split; [done|by apply Forall_drop].
Qed.

(** The sampler stays a parameter of [addAnchor]. *)
Section Inserting.

Variable LookupMap : Type.
Variable createLookupMap : Anchor -> Anchor -> LookupMap.
Variable getValueFromSegments : list (Segment LookupMap) -> Q -> Outcome Q.

Local Abbreviation add := (addAnchor LookupMap createLookupMap getValueFromSegments).
Local Abbreviation add000 :=
  (addAnchor_part000 LookupMap createLookupMap getValueFromSegments).
Local Abbreviation sample := (getValue LookupMap createLookupMap getValueFromSegments).

(** X8.  When [findIndex] finds a later anchor at [k], [addAnchor] of
    create-timeline.tsx puts the new anchor at [k], the store grows by one,
    and [deleteAnchor(k)] gives back the store as it was, sorted or not.
    The same holds for [addAnchor] of part_000 when [k] is not 0. *)
Theorem addAnchor_then_deleteAnchor_restores (anchors : Anchors) (time value : Q) (k : nat) :
  findIndex (fun a : Anchor => Qltb time (x a.1)) anchors = Z.of_nat k ->
  let both := Some {| pre := Some default_control; post := Some default_control |} in
  (let after := (add time (Some value) anchors).1 in
   after !! k = Some ({| x := time; y := value |}, both)
   /\ length after = S (length anchors)
   /\ (deleteAnchor (Z.of_nat k) after).1 = anchors)
  /\ ((0 < k)%nat ->
      let after := (add000 time (Some value) anchors).1 in
      after !! k = Some ({| x := time; y := value |}, both)
      /\ length after = S (length anchors)
      /\ (deleteAnchor (Z.of_nat k) after).1 = anchors).
Proof.
  intros E both. pose proof (findIndex_found _ _ _ E) as Hk.
  set (new := ({| x := time; y := value |}, both)).
  assert (Hspl : forall l : Anchors,
             l = take k anchors ++ [new] ++ drop k anchors ->
             l !! k = Some new /\ length l = S (length anchors)
             /\ (deleteAnchor (Z.of_nat k) l).1 = anchors).
  { intros l ->. split; [|split].
    - rewrite lookup_app_r by (rewrite length_take; lia).
      rewrite length_take. by replace (k - k `min` length anchors)%nat with 0%nat by lia.
    - rewrite !length_app, length_take, length_drop. simpl. lia.
    - rewrite deleteAnchor_eq. simpl.
      rewrite splice_delete_one by (rewrite length_app, length_take; simpl; lia).
      assert (El : length (take k anchors) = k) by (rewrite length_take; lia).
      rewrite <- El at 1. simpl. rewrite delete_middle. apply take_drop. }
  split.
  - apply Hspl.
    unfold addAnchor, default_value, mbind, mret, M_bind, M_ret, get, put.
    rewrite E. destruct (Z.eqb_spec (Z.of_nat k) (-1)); [lia|]. simpl.
    by rewrite splice_insert_one by lia.
  - intros H0. apply Hspl.
    unfold addAnchor_part000, default_value, mbind, mret, M_bind, M_ret, get, put, lift.
    rewrite E. destruct (Z.eqb_spec (Z.of_nat k) (-1)); [lia|].
    destruct (Z.eqb_spec (Z.of_nat k) 0); [lia|]. simpl.
    by rewrite splice_insert_one by lia.
Qed.

(** X9.  In part_000, adding an anchor before the first one and deleting
    it again does not restore the store: the anchor that was first keeps
    the [pre] handle [addAnchor] gave it, and the deriver throws [TypeError]
    on the result. *)
Theorem addAnchor_part000_prepend_then_delete (a0 : Anchor) (rest : Anchors)
    (time value : Q) :
  time < x a0.1 ->
  let after := (add000 time (Some value) (a0 :: rest)).1 in
  let back := (deleteAnchor 0 after).1 in
  after = ({| x := time; y := value |}, Some {| pre := None; post := Some default_control |})
          :: (a0.1, Some (spread_with Pre default_control a0.2)) :: rest
  /\ back = (a0.1, Some (spread_with Pre default_control a0.2)) :: rest
  /\ absoluteAnchors back = Throw TypeError.
Proof.
  intros Hlt after back.
  assert (E : after
              = ({| x := time; y := value |},
                 Some {| pre := None; post := Some default_control |})
                :: (a0.1, Some (spread_with Pre default_control a0.2)) :: rest).
  { unfold after, addAnchor_part000, default_value, mbind, mret, M_bind, M_ret,
      get, put, lift, findIndex. simpl.
    apply Qltb_lt in Hlt. rewrite Hlt. reflexivity. }
  assert (Eback : back = (a0.1, Some (spread_with Pre default_control a0.2)) :: rest).
  { unfold back. rewrite E, deleteAnchor_eq. cbn [fst].
    by rewrite (splice_delete_one _ 0) by (simpl; lia). }
  split; [done|]. split; [done|]. rewrite Eback.
  apply absoluteAnchors_dangling. intros Hf.
  destruct Hf as [Hpre _]. specialize (Hpre eq_refl). done.
Qed.

(** X10.  In create-timeline.tsx (and part_001), adding an anchor before
    the first one puts a new first anchor with a [pre] handle, which faces
    nothing: from then on the deriver and [getValue] throw [TypeError], and
    so does every [addAnchor] that leaves its value to [getValue]. *)
Theorem addAnchor_before_first_breaks_deriver (a0 : Anchor) (rest : Anchors)
    (time value : Q) :
  time < x a0.1 ->
  let after := (add time (Some value) (a0 :: rest)).1 in
  after = ({| x := time; y := value |},
           Some {| pre := Some default_control; post := Some default_control |})
          :: a0 :: rest
  /\ absoluteAnchors after = Throw TypeError
  /\ (forall t : Q, sample after t = Throw TypeError)
  /\ (forall t : Q, add t None after = (after, Throw TypeError)).
Proof.
  intros Hlt after.
  assert (E : after
              = ({| x := time; y := value |},
                 Some {| pre := Some default_control; post := Some default_control |})
                :: a0 :: rest).
  { unfold after, addAnchor, default_value, mbind, mret, M_bind, M_ret,
      get, put, findIndex. simpl.
    apply Qltb_lt in Hlt. rewrite Hlt. reflexivity. }
  assert (Habs : absoluteAnchors after = Throw TypeError) by (by rewrite E).
  assert (Hval : forall t : Q, sample after t = Throw TypeError).
  { intros t. unfold getValue, lookupMapSegments. by rewrite Habs. }
  split; [done|]. split; [done|]. split; [done|].
  intros t. unfold addAnchor, default_value, mbind, mret, M_bind, M_ret, get, lift.
  by rewrite Hval.
Qed.

(** X11.  In create-timeline.tsx (and part_001), when [findIndex] finds
    the place of the new anchor after the first one, [addAnchor] keeps every
    handle facing a neighbour, so the deriver returns on the new store, and
    keeps the relative [x] of the handles in [[0, 1]]. *)
Theorem addAnchor_inside_keeps_handles (anchors : Anchors) (time value : Q) (k : nat) :
  handles_face_neighbours anchors ->
  findIndex (fun a : Anchor => Qltb time (x a.1)) anchors = Z.of_nat (S k) ->
  let after := (add time (Some value) anchors).1 in
  handles_face_neighbours after
  /\ (exists abs : list Anchor, absoluteAnchors after = Ok abs)
  /\ (handles_normalized anchors -> handles_normalized after).
Proof.
  intros Hf E after. pose proof (findIndex_found _ _ _ E) as Hk.
  assert (Eafter : after = splice anchors (Z.of_nat (S k)) 0
                     [({| x := time; y := value |},
                       Some {| pre := Some default_control;
                               post := Some default_control |})]).
  { unfold after, addAnchor, default_value, mbind, mret, M_bind, M_ret, get, put.
    rewrite E. by destruct (Z.eqb_spec (Z.of_nat (S k)) (-1)); [lia|]. }
  assert (Hf' : handles_face_neighbours after).
  { rewrite Eafter, splice_insert_one by lia.
    apply handles_face_splice_inside; [done|lia|done]. }
  split; [done|]. split; [by apply absoluteAnchors_total|].
  intros Hn. rewrite Eafter. apply handles_normalized_splice; [done|].
  repeat constructor; apply default_control_normalized.
Qed.

(** [addAnchor] of part_000 with a given value, on a non-empty store whose
    handles face their neighbours: it returns for every time, grows the
    store by one and keeps the handles facing neighbours and in range. *)
Lemma addAnchor_part000_given (anchors : Anchors) (time value : Q) :
  anchors <> [] ->
  handles_face_neighbours anchors ->
  exists after : Anchors,
    add000 time (Some value) anchors = (after, Ok tt)
    /\ length after = S (length anchors)
    /\ handles_face_neighbours after
    /\ (exists abs : list Anchor, absoluteAnchors after = Ok abs)
    /\ (handles_normalized anchors -> handles_normalized after).
Proof.
  intros Hne Hf.
  assert (Hlen : (0 < length anchors)%nat) by (destruct anchors; [done|simpl; lia]).
  destruct (findIndex_place (fun a : Anchor => Qltb time (x a.1)) anchors) as (k & Hk & E).
  assert (Hgoal : exists after : Anchors,
             add000 time (Some value) anchors = (after, Ok tt)
             /\ length after = S (length anchors)
             /\ handles_face_neighbours after
             /\ (handles_normalized anchors -> handles_normalized after)).
  { unfold addAnchor_part000, default_value, mbind, mret, M_bind, M_ret, get, put, lift.
    rewrite E. destruct (Nat.ltb_spec k (length anchors)) as [Hlt|Hge].
    - destruct (Z.eqb_spec (Z.of_nat k) (-1)); [lia|].
      destruct (Z.eqb_spec (Z.of_nat k) 0) as [E0|E0].
      + destruct (lookup_lt_is_Some_2 anchors 0 Hlen) as [a0 Ha0].
        unfold assign_controls. change (item anchors 0) with (anchors !! 0%nat).
        rewrite Ha0. simpl. eexists. split; [done|].
        split; [simpl; by rewrite length_insert|]. split.
        * apply handles_face_of_lookup. intros j a Hj. simpl length.
          rewrite length_insert.
          destruct j as [|[|j]].
          -- injection Hj as <-. simpl. split; [by intros [? ?]|intros _; lia].
          -- simpl in Hj. rewrite list_lookup_insert_eq in Hj by done.
             injection Hj as <-. cbn [fst snd]. split; [intros _; right; lia|].
             simpl. rewrite default_post. intros Hs.
             destruct (handles_face_lookup _ _ Hf 0 a0 Ha0) as [_ Hq].
             specialize (Hq Hs). lia.
          -- simpl in Hj. rewrite list_lookup_insert_ne in Hj by done.
             destruct (handles_face_lookup _ _ Hf _ a Hj) as [_ Hq].
             split; [intros _; right; lia|]. intros Hs. specialize (Hq Hs). lia.
        * intros Hn. unfold handles_normalized in *. apply Forall_cons.
          -- split; [done|apply default_control_normalized].
          -- apply Forall_insert; [done|]. rewrite Forall_lookup in Hn.
             destruct (Hn 0%nat a0 Ha0) as [_ Hq]. cbn [fst snd]. simpl.
             rewrite default_post. split; [apply default_control_normalized|done].
      + rewrite splice_insert_one by lia. eexists. split; [done|].
        split; [rewrite !length_app, length_take, length_drop; simpl; lia|]. split.
        * apply handles_face_splice_inside; [done|lia|done].
        * intros Hn. rewrite <- splice_insert_one by lia.
          apply handles_normalized_splice; [done|].
          repeat constructor; apply default_control_normalized.
    - assert (k = length anchors) as -> by lia. simpl.
      destruct (lookup_lt_is_Some_2 anchors (length anchors - 1)) as [a Ha]; [lia|].
      unfold assign_controls.
      replace (Z.of_nat (length anchors) - 1)%Z with (Z.of_nat (length anchors - 1)) by lia.
      rewrite item_nat, Ha. simpl. rewrite Nat2Z.id.
      eexists. split; [done|].
      split; [rewrite length_app, length_insert; simpl; lia|]. split.
      * apply handles_face_of_lookup. intros j b Hj.
        rewrite length_app, length_insert. simpl.
        destruct (Nat.lt_ge_cases j (length anchors)) as [Hlt|Hge'].
        -- rewrite lookup_app_l in Hj by (by rewrite length_insert).
           destruct (decide (j = length anchors - 1)%nat) as [->|Hne'].
           ++ rewrite list_lookup_insert_eq in Hj by lia. injection Hj as <-.
              cbn [fst snd]. simpl. rewrite default_pre.
              destruct (handles_face_lookup _ _ Hf _ a Ha) as [Hp _].
              split; [done|intros _; lia].
           ++ rewrite list_lookup_insert_ne in Hj by done.
              destruct (handles_face_lookup _ _ Hf _ b Hj) as [Hp Hq].
              split; [done|]. intros Hs. specialize (Hq Hs). lia.
        -- rewrite lookup_app_r in Hj by (by rewrite length_insert).
           rewrite length_insert in Hj.
           destruct (j - length anchors)%nat as [|m] eqn:Em; [|done].
           injection Hj as <-. simpl. split; [intros _; right; lia|by intros [? ?]].
      * intros Hn. unfold handles_normalized in *. apply Forall_app. split.
        -- apply Forall_insert; [done|]. rewrite Forall_lookup in Hn.
           destruct (Hn _ a Ha) as [Hp _]. cbn [fst snd]. simpl.
           rewrite default_pre. split; [done|apply default_control_normalized].
        -- repeat constructor; apply default_control_normalized. }
  destruct Hgoal as (after & Hrun & Hl & Hf' & Hn').
  exists after. repeat (split; [done|]). split; [by apply absoluteAnchors_total|done].
Qed.

(** X12.  On a non-empty store whose handles face their neighbours,
    [addAnchor] of part_000 called with a value returns for every time,
    grows the store by one, keeps every handle facing a neighbour, at the
    ends too, so the deriver returns on the new store, and keeps the
    relative [x] of the handles in [[0, 1]].  Called without a value it
    evaluates [getValue(time)] first: when that throws, [addAnchor] throws
    the same exception and the store is left as it was; when it returns,
    [addAnchor] goes on as with that value. *)
Theorem addAnchor_part000_keeps_handles (anchors : Anchors) (time : Q)
    (value : option Q) :
  anchors <> [] ->
  handles_face_neighbours anchors ->
  match value, sample anchors time with
  | None, Throw ex => add000 time value anchors = (anchors, Throw ex)
  | _, _ =>
      exists after : Anchors,
        add000 time value anchors = (after, Ok tt)
        /\ length after = S (length anchors)
        /\ handles_face_neighbours after
        /\ (exists abs : list Anchor, absoluteAnchors after = Ok abs)
        /\ (handles_normalized anchors -> handles_normalized after)
  end.
Proof.
  intros Hne Hf.
  assert (Hdefault : add000 time None anchors
                     = match sample anchors time with
                       | Ok v => add000 time (Some v) anchors
                       | Throw ex => (anchors, Throw ex)
                       end).
  { unfold addAnchor_part000, default_value, mbind, mret, M_bind, M_ret,
      get, put, lift.
    by destruct (sample anchors time). }
  destruct value as [v|].
  - destruct (sample anchors time); apply (addAnchor_part000_given _ time v Hne Hf).
  - rewrite Hdefault. destruct (sample anchors time) as [v|ex]; [|done].
    apply (addAnchor_part000_given _ time v Hne Hf).
Qed.

End Inserting.

Lemma addAnchor_then_deleteAnchor_restores_witness :
  (deleteAnchor (Z.of_nat 1) (sampledAddAnchor 5 (Some 5) two_anchors).1).1 = two_anchors
  /\ (deleteAnchor (Z.of_nat 1) (sampledAddAnchor_part000 5 (Some 5) two_anchors).1).1
     = two_anchors.
Proof.
  destruct (addAnchor_then_deleteAnchor_restores (list Vector) (Sampler.createLookupMap 4)
              Sampler.getValueFromSegments two_anchors 5 5 1 eq_refl)
    as [(_ & _ & H1) H2].
  split; [exact H1|]. destruct H2 as (_ & _ & H2); [lia|exact H2].
Defined.

Lemma addAnchor_part000_prepend_then_delete_witness :
  let after := (sampledAddAnchor_part000 (-5) (Some 0) two_anchors).1 in
  let back := (deleteAnchor 0 after).1 in
  after = ({| x := -5; y := 0 |}, Some {| pre := None; post := Some default_control |})
          :: ({| x := 0; y := 0 |},
              Some (spread_with Pre default_control
                      (Some {| pre := None; post := Some default_control |})))
          :: [({| x := 10; y := 10 |}, Some {| pre := Some default_control; post := None |})]
  /\ back = ({| x := 0; y := 0 |},
             Some (spread_with Pre default_control
                     (Some {| pre := None; post := Some default_control |})))
            :: [({| x := 10; y := 10 |},
                 Some {| pre := Some default_control; post := None |})]
  /\ absoluteAnchors back = Throw TypeError.
Proof.
  apply (addAnchor_part000_prepend_then_delete (list Vector) (Sampler.createLookupMap 4)
           Sampler.getValueFromSegments
           ({| x := 0; y := 0 |}, Some {| pre := None; post := Some default_control |})
           [({| x := 10; y := 10 |}, Some {| pre := Some default_control; post := None |})]
           (-5) 0).
  reflexivity.
Defined.

Lemma addAnchor_before_first_breaks_deriver_witness :
  let after := (sampledAddAnchor (-5) (Some 0) two_anchors).1 in
  absoluteAnchors after = Throw TypeError
  /\ sampledAddAnchor 5 None after = (after, Throw TypeError).
Proof.
  destruct (addAnchor_before_first_breaks_deriver (list Vector) (Sampler.createLookupMap 4)
              Sampler.getValueFromSegments
              ({| x := 0; y := 0 |}, Some {| pre := None; post := Some default_control |})
              [({| x := 10; y := 10 |},
                Some {| pre := Some default_control; post := None |})]
              (-5) 0) as (_ & Habs & _ & Hadd).
  - reflexivity.
  - split; [exact Habs|exact (Hadd 5)].
Defined.

Lemma addAnchor_inside_keeps_handles_witness :
  let after := (sampledAddAnchor 5 (Some 5) two_anchors).1 in
  handles_face_neighbours after
  /\ (exists abs : list Anchor, absoluteAnchors after = Ok abs)
  /\ (handles_normalized two_anchors -> handles_normalized after).
Proof.
  apply (addAnchor_inside_keeps_handles (list Vector) (Sampler.createLookupMap 4)
           Sampler.getValueFromSegments two_anchors 5 5 0).
  - unfold handles_face_neighbours; simpl. repeat split; intros; done.
  - reflexivity.
Defined.

Lemma addAnchor_part000_keeps_handles_witness :
  (exists after : Anchors,
      sampledAddAnchor_part000 20 (Some 0) two_anchors = (after, Ok tt)
      /\ length after = S (length two_anchors)
      /\ handles_face_neighbours after
      /\ (exists abs : list Anchor, absoluteAnchors after = Ok abs)
      /\ (handles_normalized two_anchors -> handles_normalized after))
  /\ (exists after : Anchors,
         sampledAddAnchor_part000 5 None two_anchors = (after, Ok tt)
         /\ length after = S (length two_anchors)
         /\ handles_face_neighbours after
         /\ (exists abs : list Anchor, absoluteAnchors after = Ok abs)
         /\ (handles_normalized two_anchors -> handles_normalized after)).
Proof.
  split.
  - apply (addAnchor_part000_keeps_handles (list Vector) (Sampler.createLookupMap 4)
             Sampler.getValueFromSegments two_anchors 20 (Some 0)).
    + discriminate.
    + unfold handles_face_neighbours; simpl. repeat split; intros; done.
  - apply (addAnchor_part000_keeps_handles (list Vector) (Sampler.createLookupMap 4)
             Sampler.getValueFromSegments two_anchors 5 None).
    + discriminate.
    + unfold handles_face_neighbours; simpl. repeat split; intros; done.
Defined.


(** ** Control drags *)

(** The handles an update of the control drag leaves face the neighbours
    the anchor has. *)
Lemma draggedControls_faces (type : ControlType) (r : Vector) (ratio : option Q)
    (mk : bool) (c : Controls) (i len : nat) :
  (is_Some (pre c) -> (0 < i)%nat) ->
  (is_Some (post c) -> (S i < len)%nat) ->
  (if is_post type then (S i < len)%nat else (0 < i)%nat) ->
  (is_Some ratio -> (0 < i)%nat /\ (S i < len)%nat) ->
  let c' := draggedControls type r ratio mk c in
  (is_Some (pre c') -> (0 < i)%nat) /\ (is_Some (post c') -> (S i < len)%nat).
Proof.
  intros Hp Hq Ht Hr. unfold draggedControls.
  destruct ratio as [k|].
  - destruct Hr as [H0 HS]; [by eexists|].
    destruct (mk && Part001.truthy (Some k)); destruct type; simpl; split; intros; done.
  - destruct type; simpl in *; split; intros; auto.
Qed.

(** They have their relative [x] in [[0, 1]] when the dragged one has. *)
Lemma draggedControls_normalized (type : ControlType) (r : Vector) (ratio : option Q)
    (mk : bool) (c : Controls) :
  normalized (pre c) -> normalized (post c) ->
  0 <= x r -> x r <= 1 ->
  let c' := draggedControls type r ratio mk c in
  normalized (pre c') /\ normalized (post c').
Proof.
  intros Hp Hq H0 H1. unfold draggedControls.
  destruct ratio as [k|].
  - destruct (mk && Part001.truthy (Some k)); destruct type; simpl; split; done.
  - destruct type; simpl; split; done.
Qed.

(** Without a ratio the control of the other side is not written. *)
Lemma draggedControls_unpaired (type : ControlType) (r : Vector) (mk : bool)
    (c : Controls) :
  control (pairedType type) (draggedControls type r None mk c)
  = control (pairedType type) c.
Proof. by destruct type. Qed.

(** A side with a paired neighbour is not at that end of the store. *)
Lemma pairedIndex_bound (anchors : Anchors) (type : ControlType) (i : nat) (n : Anchor) :
  item anchors (pairedIndex type i) = Some n ->
  if is_post type then (S i < length anchors)%nat else (0 < i)%nat.
Proof.
  unfold pairedIndex. destruct type; cbn [is_post]; intros H.
  - apply item_Some in H as [? _]. lia.
  - rewrite item_succ in H. by apply lookup_lt_Some in H.
Qed.

(** A session of part_001's control drag keeps the handles facing
    neighbours and within their range, whatever the events; without a ratio
    it leaves the control of the other side as it was. *)
Lemma controlDrag_session_keeps (zoom : Vector) (type : ControlType) (i : nat)
    (p : Vector) (n : Anchor) (initialControl : Vector) (ratio : option Q)
    (events : list PointerEvent) :
  forall (anchors : Anchors) (c : Controls),
    handles_face_neighbours anchors ->
    anchors !! i = Some (p, Some c) ->
    item anchors (pairedIndex type i) = Some n ->
    (is_Some ratio -> (0 < i)%nat /\ (S i < length anchors)%nat) ->
    exists c' : Controls,
      pointerHelper (Part001.onControlDrag zoom type (Z.of_nat i) initialControl ratio)
        events anchors
      = (<[i := (p, Some c')]> anchors, Ok tt)
      /\ handles_face_neighbours (<[i := (p, Some c')]> anchors)
      /\ (~ x p == x n.1 -> handles_normalized anchors ->
          handles_normalized (<[i := (p, Some c')]> anchors))
      /\ (ratio = None -> control (pairedType type) c' = control (pairedType type) c).
Proof.
  induction events as [|e es IH]; intros anchors c Hf Ha Hn Hr.
  - exists c. simpl. rewrite list_insert_id by done. done.
  - simpl. unfold mbind, M_bind.
    rewrite (onControlDrag_run zoom _ _ _ _ _ _ initialControl ratio e Hf Ha Hn).
    set (r := relativeControl type p n.1
                (subtractVector initialControl (divideVector (delta e) zoom))).
    set (c1 := draggedControls type r ratio (metaKey e) c).
    pose proof (lookup_lt_Some _ _ _ Ha) as Hi.
    destruct (handles_face_lookup _ _ Hf i _ Ha) as [Hfp Hfq]. cbn [fst snd] in Hfp, Hfq.
    destruct (draggedControls_faces type r ratio (metaKey e) c i (length anchors))
      as [Hp1 Hq1].
    { intros Hs. destruct (Hfp Hs); [done|lia]. }
    { done. }
    { by apply (pairedIndex_bound _ _ _ n). }
    { done. }
    destruct (IH (<[i := (p, Some c1)]> anchors) c1) as (c' & Hc' & Hf' & Hn' & Hu').
    + by apply handles_face_insert.
    + by apply list_lookup_insert_eq.
    + by rewrite item_insert_paired.
    + by rewrite length_insert.
    + exists c'. rewrite Hc'. rewrite list_insert_insert_eq in *.
      split; [done|]. split; [done|]. split.
      * intros Hd Hnorm. apply Hn'; [done|].
        unfold handles_normalized in *. pose proof Hnorm as Hall.
        rewrite Forall_lookup in Hall. destruct (Hall i _ Ha) as [Hnp Hnq].
        cbn [fst snd] in Hnp, Hnq.
        destruct (clamped_unit type (x p) (x n.1)
                    (x (subtractVector initialControl (divideVector (delta e) zoom))) Hd)
          as (Hr0 & Hr1 & _).
        apply Forall_insert; [done|].
        apply (draggedControls_normalized type r ratio (metaKey e) c Hnp Hnq Hr0 Hr1).
      * intros ->. rewrite Hu' by done. apply draggedControls_unpaired.
Qed.

(** The drag of part_001 on a rendered control, as the session of its
    callback. *)
Lemma startControlDrag_session (zoom : Vector) (anchors : Anchors) (type : ControlType)
    (i : nat) (p : Vector) (c : Controls) :
  handles_face_neighbours anchors ->
  anchors !! i = Some (p, Some c) ->
  is_Some (control type c) ->
  exists initialControl : Vector,
    forall events : list PointerEvent,
      Part001.startControlDrag zoom type (Z.of_nat i) events anchors
      = pointerHelper
          (Part001.onControlDrag zoom type (Z.of_nat i) initialControl
             (dragRatio anchors type i p))
          events anchors.
Proof.
  intros Hf Ha Hc.
  destruct (absoluteAnchors_at _ i p (Some c) Hf Ha) as (abs & ca & Hres).
  destruct (absoluteAnchors_control _ _ type _ _ _ _ Hres Hc) as [iv Hiv].
  destruct Hres as (Habs & Hca & _).
  pose proof (lookup_lt_Some _ _ _ Ha) as Hi.
  exists iv. intros events.
  unfold Part001.startControlDrag, rendered, mbind, M_bind, get, lift.
  rewrite Habs, item_nat, Hca. simpl.
  unfold Part001.onControlDragStart, mbind, M_bind, get, lift.
  simpl. rewrite Hiv. simpl. rewrite Habs.
  rewrite !(getPairedAnchor_first _ _ _ _ Habs Hi).
  unfold pairedIndex, dragRatio. cbn [is_post]. done.
Qed.

(** There is a ratio only between two neighbours. *)
Lemma dragRatio_Some (anchors : Anchors) (type : ControlType) (i : nat) (p : Vector) :
  is_Some (dragRatio anchors type i p) -> (0 < i)%nat /\ (S i < length anchors)%nat.
Proof.
  unfold dragRatio. rewrite item_pred, item_succ.
  destruct i as [|j]; [simpl; by intros [? ?]|].
  destruct (anchors !! j) as [a|]; [|simpl; by intros [? ?]].
  destruct (anchors !! S (S j)) as [b|] eqn:Eb; [|simpl; by intros [? ?]].
  intros _. apply lookup_lt_Some in Eb. lia.
Qed.

Lemma dragRatio_None (anchors : Anchors) (type : ControlType) (i : nat) (p : Vector) :
  item anchors (pairedIndex (pairedType type) i) = None ->
  dragRatio anchors type i p = None.
Proof.
  unfold dragRatio, pairedIndex. destruct type; cbn [is_post pairedType]; intros ->.
  - simpl. by destruct (item anchors (Z.of_nat i - 1)).
  - done.
Qed.

(** X13.  A control drag keeps the invariants of the store.  On a
    time-sorted store whose handles face their neighbours and have their
    relative [x] in [[0, 1]], a drag of part_001 of any length, with or
    without the modifier, returns, writes only the controls of the dragged
    anchor, and leaves a store that is time-sorted, whose handles face their
    neighbours and have their relative [x] in [[0, 1]], and on which the
    deriver returns.  The same holds for an update by [onAnchorChange] of
    create-timeline.tsx. *)
Theorem control_drag_keeps_invariants
    (zoom : Vector) (zoomY originY : Q) (anchors : Anchors) (type : ControlType)
    (i : nat) (p : Vector) (c : Controls) (n : Anchor) :
  time_sorted anchors ->
  handles_face_neighbours anchors ->
  handles_normalized anchors ->
  anchors !! i = Some (p, Some c) ->
  is_Some (control type c) ->
  item anchors (pairedIndex type i) = Some n ->
  (forall events : list PointerEvent,
      exists c' : Controls,
        Part001.startControlDrag zoom type (Z.of_nat i) events anchors
        = (<[i := (p, Some c')]> anchors, Ok tt)
        /\ time_sorted (<[i := (p, Some c')]> anchors)
        /\ handles_face_neighbours (<[i := (p, Some c')]> anchors)
        /\ handles_normalized (<[i := (p, Some c')]> anchors)
        /\ exists abs : list Anchor,
             absoluteAnchors (<[i := (p, Some c')]> anchors) = Ok abs)
  /\ (forall position : Vector,
        exists c' : Controls,
          CreateTimeline.onAnchorChange zoomY originY type (Z.of_nat i) position anchors
          = (<[i := (p, Some c')]> anchors, Ok tt)
          /\ time_sorted (<[i := (p, Some c')]> anchors)
          /\ handles_face_neighbours (<[i := (p, Some c')]> anchors)
          /\ handles_normalized (<[i := (p, Some c')]> anchors)
          /\ exists abs : list Anchor,
               absoluteAnchors (<[i := (p, Some c')]> anchors) = Ok abs).
Proof.
  intros Hs Hf Hnorm Ha Hc Hn.
  assert (Hd : ~ x p == x n.1).
  { pose proof (pairedIndex_bound _ _ _ _ Hn) as Hb. unfold pairedIndex in Hn.
    destruct type; cbn [is_post] in *.
    - rewrite item_pred in Hn. destruct i as [|j]; [done|].
      pose proof (time_sorted_adjacent _ Hs j _ _ Hn Ha) as Hlt. simpl in Hlt. lra.
    - rewrite item_succ in Hn.
      pose proof (time_sorted_adjacent _ Hs i _ _ Ha Hn) as Hlt. simpl in Hlt. lra. }
  assert (Hsorted : forall c' : Controls, time_sorted (<[i := (p, Some c')]> anchors)).
  { intros c'. apply (time_sorted_fst anchors); [|done]. symmetry.
    apply (fmap_fst_insert_controls anchors i (p, Some c) (Some c') Ha). }
  split.
  - intros events.
    destruct (startControlDrag_session zoom _ type _ _ _ Hf Ha Hc) as [iv ->].
    destruct (controlDrag_session_keeps zoom type i p n iv (dragRatio anchors type i p)
                events anchors c Hf Ha Hn (dragRatio_Some _ _ _ _))
      as (c' & Hrun & Hf' & Hn' & _).
    exists c'. split; [done|]. split; [done|]. split; [done|]. split; [by apply Hn'|].
    by apply absoluteAnchors_total.
  - intros position.
    rewrite (onAnchorChange_run zoomY originY _ _ _ _ _ _ position Hf Ha Hn).
    eexists. split; [done|]. split; [done|].
    assert (Hf' : handles_face_neighbours
                    (<[i := (p, Some (set_control type
                       {| y := Math_floor (y position - y p);
                          x := Qabs (x p - clamped_twice type (x p) (x n.1)
                                 (CreateTimeline.unproject zoomY originY position
                                    CreateTimeline.AxisX))
                               / Qabs (x p - x n.1) |} c))]> anchors))
      by (by apply (paired_faces _ _ _ _ _ _ n)).
    split; [done|]. split; [|by apply absoluteAnchors_total].
    unfold handles_normalized in *. apply Forall_insert; [done|].
    pose proof Hnorm as Hall. rewrite Forall_lookup in Hall.
    destruct (Hall i _ Ha) as [Hnp Hnq]. cbn [fst snd] in *.
    destruct (clamped_twice_unit type (x p) (x n.1)
                (CreateTimeline.unproject zoomY originY position CreateTimeline.AxisX) Hd)
      as (Hr0 & Hr1 & _).
    destruct type; simpl; split; done.
Qed.

Lemma control_drag_keeps_invariants_witness :
  exists c' : Controls,
    Part001.startControlDrag {| x := 1; y := 1 |} Post (Z.of_nat 1)
      [{| delta := {| x := 50; y := 3 |}; metaKey := true |}] uneven_anchors
    = (<[1%nat := ({| x := 10; y := 0 |}, Some c')]> uneven_anchors, Ok tt)
    /\ time_sorted (<[1%nat := ({| x := 10; y := 0 |}, Some c')]> uneven_anchors)
    /\ handles_face_neighbours (<[1%nat := ({| x := 10; y := 0 |}, Some c')]> uneven_anchors)
    /\ handles_normalized (<[1%nat := ({| x := 10; y := 0 |}, Some c')]> uneven_anchors)
    /\ exists abs : list Anchor,
         absoluteAnchors (<[1%nat := ({| x := 10; y := 0 |}, Some c')]> uneven_anchors)
         = Ok abs.
Proof.
  destruct (control_drag_keeps_invariants {| x := 1; y := 1 |} 1 0 uneven_anchors Post 1
              {| x := 10; y := 0 |}
              {| pre := Some default_control; post := Some default_control |}
              ({| x := 30; y := 0 |}, Some {| pre := Some default_control; post := None |}))
    as [H _].
  - simpl. repeat split; reflexivity.
  - unfold handles_face_neighbours; simpl. repeat split; intros; done.
  - repeat constructor; simpl; try done; vm_compute; discriminate.
  - reflexivity.
  - simpl. by eexists.
  - reflexivity.
  - apply H.
Defined.

(** ** Symmetric mode at the ends of the store *)

Lemma pointerHelper_released (f : PointerEvent -> M unit) (events : list PointerEvent) :
  (forall e : PointerEvent, f e = f (released e)) ->
  forall s : Anchors, pointerHelper f events s = pointerHelper f (released <$> events) s.
Proof.
  intros Hf. induction events as [|e es IH]; intros s; [done|].
  simpl. unfold mbind, M_bind. rewrite <- Hf.
  destruct (f e s) as [s' [[]|ex]]; [apply IH|done].
Qed.

(** X14.  In part_001, at an anchor that has no neighbour on the other
    side, [onControlDragStart] computes no ratio, so the modifier key has no
    effect: the drag leaves the same store as the drag of the same deltas
    without the modifier, and the anchor still has no handle on the other
    side. *)
Theorem symmetric_mode_needs_both_neighbours
    (zoom : Vector) (anchors : Anchors) (type : ControlType) (i : nat)
    (p : Vector) (c : Controls) (n : Anchor) (events : list PointerEvent) :
  handles_face_neighbours anchors ->
  anchors !! i = Some (p, Some c) ->
  is_Some (control type c) ->
  item anchors (pairedIndex type i) = Some n ->
  item anchors (pairedIndex (pairedType type) i) = None ->
  Part001.startControlDrag zoom type (Z.of_nat i) events anchors
  = Part001.startControlDrag zoom type (Z.of_nat i) (released <$> events) anchors
  /\ exists c' : Controls,
       Part001.startControlDrag zoom type (Z.of_nat i) events anchors
       = (<[i := (p, Some c')]> anchors, Ok tt)
       /\ control (pairedType type) c' = None.
Proof.
  intros Hf Ha Hc Hn Hnone.
  pose proof (dragRatio_None anchors type i p Hnone) as Hratio.
  destruct (startControlDrag_session zoom _ type _ _ _ Hf Ha Hc) as [iv E].
  split.
  - rewrite !E, Hratio. by apply pointerHelper_released.
  - rewrite E.
    destruct (controlDrag_session_keeps zoom type i p n iv (dragRatio anchors type i p)
                events anchors c Hf Ha Hn (dragRatio_Some _ _ _ _))
      as (c' & Hrun & _ & _ & Hu).
    exists c'. split; [done|]. rewrite (Hu Hratio).
    pose proof (lookup_lt_Some _ _ _ Ha) as Hi.
    destruct (handles_face_lookup _ _ Hf i _ Ha) as [Hfp Hfq]. cbn [fst snd] in Hfp, Hfq.
    unfold pairedIndex in Hnone. destruct type; cbn [is_post pairedType control] in *.
    + rewrite item_succ in Hnone. apply lookup_ge_None_1 in Hnone.
      destruct (post c) as [q|] eqn:Eq; [|done].
      assert (S i < length anchors)%nat by (apply Hfq; simpl; by eexists). lia.
    + rewrite item_pred in Hnone. destruct i as [|j].
      * destruct (pre c) as [q|] eqn:Eq; [|done].
        destruct Hfp as [?|?]; [simpl; by eexists|done|lia].
      * apply lookup_ge_None_1 in Hnone. lia.
Qed.

Lemma symmetric_mode_needs_both_neighbours_witness :
  let held := [{| delta := {| x := 2; y := 3 |}; metaKey := true |}] in
  Part001.startControlDrag {| x := 1; y := 1 |} Post (Z.of_nat 0) held three_anchors
  = Part001.startControlDrag {| x := 1; y := 1 |} Post (Z.of_nat 0) (released <$> held)
      three_anchors
  /\ exists c' : Controls,
       Part001.startControlDrag {| x := 1; y := 1 |} Post (Z.of_nat 0) held three_anchors
       = (<[0%nat := ({| x := 0; y := 0 |}, Some c')]> three_anchors, Ok tt)
       /\ control (pairedType Post) c' = None.
Proof.
  apply (symmetric_mode_needs_both_neighbours {| x := 1; y := 1 |} three_anchors Post 0
           {| x := 0; y := 0 |} {| pre := None; post := Some default_control |}
           ({| x := 5; y := 5 |},
            Some {| pre := Some default_control; post := Some default_control |})).
  - unfold handles_face_neighbours; simpl. repeat split; intros; done.
  - reflexivity.
  - simpl. by eexists.
  - reflexivity.
  - reflexivity.
Defined.


(** ** Position drags *)

(** The store a position drag of part_001 leaves is decided by its last
    event. *)
Lemma startPositionDrag_last (zoom : Vector) (anchors : Anchors) (i : nat) (p : Vector)
    (c : option Controls) (es : list PointerEvent) (e : PointerEvent) :
  handles_face_neighbours anchors ->
  anchors !! i = Some (p, c) ->
  Part001.startPositionDrag zoom (Z.of_nat i) (es ++ [e]) anchors
  = (<[i := (clampedPosition (fst <$> item anchors (Z.of_nat i - 1))
                (fst <$> item anchors (Z.of_nat i + 1))
                (subtractVector p (divideVector (delta e) zoom)), c)]> anchors, Ok tt).
Proof.
  intros Hf Ha. pose proof (lookup_lt_Some _ _ _ Ha) as Hi.
  destruct (absoluteAnchors_total _ Hf) as [abs Habs].
  destruct (absoluteAnchors_lookup _ _ _ _ Habs Ha) as (b & Hb & Hcb).
  apply absoluteAnchor_position in Hcb. simpl in Hcb.
  unfold Part001.startPositionDrag, rendered, mbind, M_bind, get, lift.
  rewrite Habs, item_nat, Hb. simpl.
  unfold Part001.onPositionDragStart, mbind, M_bind, get, lift. rewrite Habs.
  rewrite !(getPairedAnchor_first _ _ _ _ Habs Hi).
  unfold pairedIndex. cbn [is_post].
  rewrite pointerHelper_snoc.
  destruct (positionDrag_session zoom i b.1
              (fst <$> item anchors (Z.of_nat i - 1))
              (fst <$> item anchors (Z.of_nat i + 1)) c es anchors p Ha) as [q ->].
  erewrite onPositionDrag_run; [|apply list_lookup_insert_eq; done].
  by rewrite list_insert_insert_eq, Hcb.
Qed.

(** The same for the drag of create-timeline.tsx. *)
Lemma createTimeline_startPositionDrag_last (zoomY : Q) (anchors : Anchors) (i : nat)
    (p : Vector) (c : option Controls) (ds : list Vector) (d : Vector) :
  handles_face_neighbours anchors ->
  anchors !! i = Some (p, c) ->
  CreateTimeline.startPositionDrag zoomY (Z.of_nat i) (ds ++ [d]) anchors
  = (<[i := (clampedPosition (fst <$> item anchors (Z.of_nat i - 1))
                (fst <$> item anchors (Z.of_nat i + 1))
                (subtractVector p (divideVector d (CreateTimeline.zoom zoomY))), c)]>
       anchors, Ok tt).
Proof.
  intros Hf Ha. pose proof (lookup_lt_Some _ _ _ Ha) as Hi.
  destruct (absoluteAnchors_total _ Hf) as [abs Habs].
  destruct (absoluteAnchors_lookup _ _ _ _ Habs Ha) as (b & Hb & Hcb).
  apply absoluteAnchor_position in Hcb. simpl in Hcb.
  unfold CreateTimeline.startPositionDrag, rendered, mbind, M_bind, get, lift.
  rewrite Habs, item_nat, Hb. simpl.
  unfold CreateTimeline.dragPosition.
  destruct (positionChange_session zoomY i b.1 c ds anchors p Hf Ha) as [q Hq].
  unfold CreateTimeline.Handle_onPointerDown in *.
  rewrite pointerHelper_snoc, Hq.
  erewrite onPositionChange_run;
    [|by apply (handles_face_move _ _ p)|apply list_lookup_insert_eq; done].
  rewrite list_insert_insert_eq.
  change (Z.of_nat i - 1)%Z with (pairedIndex Pre i).
  change (Z.of_nat i + 1)%Z with (pairedIndex Post i).
  by rewrite !item_insert_paired, Hcb.
Qed.

(** X15.  With a zoom that is not zero, a position drag is decided by its
    last event: every update starts again from the position the anchor had
    when the drag began, so a drag of any length leaves the store that a
    drag of its last event alone leaves.  The [x] is clamped against the
    neighbours; the [y] is the initial [y] minus the zoomed [y] of the
    delta, never clamped.  This holds for part_001 and for
    create-timeline.tsx. *)
Theorem position_drag_follows_last_event
    (zoom : Vector) (zoomY : Q) (anchors : Anchors) (i : nat) (p : Vector)
    (c : option Controls) (es : list PointerEvent) (e : PointerEvent)
    (ds : list Vector) (d : Vector) :
  handles_face_neighbours anchors ->
  anchors !! i = Some (p, c) ->
  ~ x zoom == 0 -> ~ y zoom == 0 -> ~ zoomY == 0 ->
  let prev := fst <$> item anchors (Z.of_nat i - 1) in
  let next := fst <$> item anchors (Z.of_nat i + 1) in
  (Part001.startPositionDrag zoom (Z.of_nat i) (es ++ [e]) anchors
   = (<[i := (clampedPosition prev next
                (subtractVector p (divideVector (delta e) zoom)), c)]> anchors, Ok tt)
   /\ Part001.startPositionDrag zoom (Z.of_nat i) (es ++ [e]) anchors
      = Part001.startPositionDrag zoom (Z.of_nat i) [e] anchors)
  /\ (CreateTimeline.startPositionDrag zoomY (Z.of_nat i) (ds ++ [d]) anchors
      = (<[i := (clampedPosition prev next
                   (subtractVector p (divideVector d (CreateTimeline.zoom zoomY))), c)]>
           anchors, Ok tt)
      /\ CreateTimeline.startPositionDrag zoomY (Z.of_nat i) (ds ++ [d]) anchors
         = CreateTimeline.startPositionDrag zoomY (Z.of_nat i) [d] anchors)
  /\ y (clampedPosition prev next (subtractVector p (divideVector (delta e) zoom)))
     = y p - y (delta e) / y zoom.
Proof.
  intros Hf Ha _ _ _ prev next. split; [|split].
  - split; [by apply startPositionDrag_last|].
    rewrite (startPositionDrag_last zoom anchors i p c es e Hf Ha).
    symmetry. apply (startPositionDrag_last zoom anchors i p c [] e Hf Ha).
  - split; [by apply createTimeline_startPositionDrag_last|].
    rewrite (createTimeline_startPositionDrag_last zoomY anchors i p c ds d Hf Ha).
    symmetry. apply (createTimeline_startPositionDrag_last zoomY anchors i p c [] d Hf Ha).
  - unfold clampedPosition.
    destruct prev as [a|]; destruct next as [b|]; simpl;
      repeat match goal with |- context [if ?b then _ else _] => destruct b end; done.
Qed.

Lemma position_drag_follows_last_event_witness :
  let e1 := {| delta := {| x := 7; y := 0 |}; metaKey := false |} in
  let e2 := {| delta := {| x := 1; y := 2 |}; metaKey := false |} in
  Part001.startPositionDrag {| x := 1; y := 1 |} (Z.of_nat 1) ([e1] ++ [e2]) three_anchors
  = Part001.startPositionDrag {| x := 1; y := 1 |} (Z.of_nat 1) [e2] three_anchors
  /\ CreateTimeline.startPositionDrag 1 (Z.of_nat 1)
       ([{| x := 7; y := 0 |}] ++ [{| x := 1; y := 2 |}]) three_anchors
     = CreateTimeline.startPositionDrag 1 (Z.of_nat 1) [{| x := 1; y := 2 |}] three_anchors.
Proof.
  destruct (position_drag_follows_last_event {| x := 1; y := 1 |} 1 three_anchors 1
              {| x := 5; y := 5 |}
              (Some {| pre := Some default_control; post := Some default_control |})
              [{| delta := {| x := 7; y := 0 |}; metaKey := false |}]
              {| delta := {| x := 1; y := 2 |}; metaKey := false |}
              [{| x := 7; y := 0 |}] {| x := 1; y := 2 |})
    as ((_ & H1) & (_ & H2) & _).
  - unfold handles_face_neighbours; simpl. repeat split; intros; done.
  - reflexivity.
  - intros H. vm_compute in H. discriminate H.
  - intros H. vm_compute in H. discriminate H.
  - intros H. vm_compute in H. discriminate H.
  - split; [exact H1|exact H2].
Defined.

(** A position that keeps one unit from the neighbours is not clamped. *)
Lemma clampedPosition_free (pre post : option Vector) (position : Vector) :
  (forall a : Vector, pre = Some a -> x a + 1 <= x position) ->
  (forall b : Vector, post = Some b -> x position <= x b - 1) ->
  clampedPosition pre post position = position.
Proof.
  intros Hp Hq. unfold clampedPosition.
  destruct pre as [a|]; destruct post as [b|].
  - destruct (Qltb_spec (x position - 1) (x a)) as [H|H];
      [specialize (Hp a eq_refl); lra|].
    destruct (Qltb_spec (x b) (x position + 1)) as [H'|H'];
      [specialize (Hq b eq_refl); lra|done].
  - destruct (Qltb_spec (x position - 1) (x a)) as [H|H];
      [specialize (Hp a eq_refl); lra|done].
  - destruct (Qltb_spec (x b) (x position + 1)) as [H'|H'];
      [specialize (Hq b eq_refl); lra|done].
  - done.
Qed.

(** X16.  An anchor that starts at least one unit from each neighbour
    it has and is dragged away and back, so that the last delta is zero,
    ends where it started, in part_001 and in create-timeline.tsx. *)
Theorem position_drag_back_to_start
    (zoom : Vector) (zoomY : Q) (anchors : Anchors) (i : nat) (p : Vector)
    (c : option Controls) (es : list PointerEvent) (e : PointerEvent)
    (ds : list Vector) (d : Vector) :
  handles_face_neighbours anchors ->
  anchors !! i = Some (p, c) ->
  (forall a : Anchor, item anchors (Z.of_nat i - 1) = Some a -> x a.1 + 1 <= x p) ->
  (forall b : Anchor, item anchors (Z.of_nat i + 1) = Some b -> x p <= x b.1 - 1) ->
  ~ x zoom == 0 -> ~ y zoom == 0 -> ~ zoomY == 0 ->
  veq (delta e) {| x := 0; y := 0 |} ->
  veq d {| x := 0; y := 0 |} ->
  (exists q : Vector,
      Part001.startPositionDrag zoom (Z.of_nat i) (es ++ [e]) anchors
      = (<[i := (q, c)]> anchors, Ok tt) /\ veq q p)
  /\ (exists q : Vector,
        CreateTimeline.startPositionDrag zoomY (Z.of_nat i) (ds ++ [d]) anchors
        = (<[i := (q, c)]> anchors, Ok tt) /\ veq q p).
Proof.
  intros Hf Ha Hprev Hnext _ _ _ [Hex Hey] [Hdx Hdy]. simpl in Hex, Hey, Hdx, Hdy.
  assert (Hfree : forall v : Vector,
             veq v p ->
             clampedPosition (fst <$> item anchors (Z.of_nat i - 1))
               (fst <$> item anchors (Z.of_nat i + 1)) v = v).
  { intros v [Hvx Hvy]. apply clampedPosition_free.
    - intros a Hsome. destruct (item anchors (Z.of_nat i - 1)) as [a'|] eqn:E; [|done].
      simpl in Hsome. injection Hsome as <-. specialize (Hprev a' eq_refl). lra.
    - intros b Hsome. destruct (item anchors (Z.of_nat i + 1)) as [b'|] eqn:E; [|done].
      simpl in Hsome. injection Hsome as <-. specialize (Hnext b' eq_refl). lra. }
  split.
  - rewrite (startPositionDrag_last zoom anchors i p c es e Hf Ha).
    eexists. split; [done|].
    assert (Hv : veq (subtractVector p (divideVector (delta e) zoom)) p).
    { split; simpl.
      - rewrite (Qdiv_zero _ _ Hex). ring.
      - rewrite (Qdiv_zero _ _ Hey). ring. }
    by rewrite (Hfree _ Hv).
  - rewrite (createTimeline_startPositionDrag_last zoomY anchors i p c ds d Hf Ha).
    eexists. split; [done|].
    assert (Hv : veq (subtractVector p (divideVector d (CreateTimeline.zoom zoomY))) p).
    { split; simpl.
      - rewrite (Qdiv_zero _ _ Hdx). ring.
      - rewrite (Qdiv_zero _ _ Hdy). ring. }
    by rewrite (Hfree _ Hv).
Qed.

Lemma position_drag_back_to_start_witness :
  let e1 := {| delta := {| x := 7; y := 0 |}; metaKey := false |} in
  let e2 := {| delta := {| x := 0; y := 0 |}; metaKey := false |} in
  let c := Some {| pre := Some default_control; post := Some default_control |} in
  (exists q : Vector,
      Part001.startPositionDrag {| x := 1; y := 1 |} (Z.of_nat 1) ([e1] ++ [e2])
        three_anchors
      = (<[1%nat := (q, c)]> three_anchors, Ok tt) /\ veq q {| x := 5; y := 5 |})
  /\ (exists q : Vector,
        CreateTimeline.startPositionDrag 1 (Z.of_nat 1)
          ([{| x := 7; y := 0 |}] ++ [{| x := 0; y := 0 |}]) three_anchors
        = (<[1%nat := (q, c)]> three_anchors, Ok tt) /\ veq q {| x := 5; y := 5 |}).
Proof.
  apply (position_drag_back_to_start {| x := 1; y := 1 |} 1 three_anchors 1
           {| x := 5; y := 5 |}
           (Some {| pre := Some default_control; post := Some default_control |})
           [{| delta := {| x := 7; y := 0 |}; metaKey := false |}]
           {| delta := {| x := 0; y := 0 |}; metaKey := false |}
           [{| x := 7; y := 0 |}] {| x := 0; y := 0 |}).
  - unfold handles_face_neighbours; simpl. repeat split; intros; done.
  - reflexivity.
  - intros a Ha. vm_compute in Ha. injection Ha as <-. vm_compute. discriminate.
  - intros b Hb. vm_compute in Hb. injection Hb as <-. vm_compute. discriminate.
  - intros H. vm_compute in H. discriminate H.
  - intros H. vm_compute in H. discriminate H.
  - intros H. vm_compute in H. discriminate H.
  - split; reflexivity.
  - split; reflexivity.
Defined.


(** ** Padding *)







(** *** part_000 *)






(** ** Projection *)








(** ** The paired neighbour *)

(** X22.  For an index inside the array, the destructuring of
    [getPairedAnchor] never throws: it gives the position of the neighbour
    on the side [type], or nothing, and [getPairedAnchor] answers [[]]
    exactly when that neighbour does not exist.  For a [post] side at an
    index past the end the read is [undefined] and the destructuring throws
    [TypeError]. *)
Theorem getPairedAnchor_neighbour (abs : list Anchor) (type : ControlType) (i : nat) :
  (i < length abs)%nat ->
  Part001.first (Part001.getPairedAnchor abs type (Z.of_nat i))
  = Ok (fst <$> item abs (pairedIndex type i))
  /\ (Part001.getPairedAnchor abs type (Z.of_nat i) = Part001.NoPair
      <-> item abs (pairedIndex type i) = None)
  /\ (forall k : nat,
        Part001.first (Part001.getPairedAnchor abs Post (Z.of_nat (length abs + k)))
        = Throw TypeError).
Proof.
  intros Hi. split; [|split].
  - unfold Part001.getPairedAnchor, pairedIndex. destruct type; cbn [is_post negb andb].
    + destruct (Z.eqb_spec (Z.of_nat i) 0) as [E|E].
      * by rewrite E.
      * rewrite item_pred. destruct i as [|j]; [lia|].
        destruct (lookup_lt_is_Some_2 abs j) as [b ->]; [lia|done].
    + destruct (Z.eqb_spec (Z.of_nat i) (Z.of_nat (length abs) - 1)) as [E|E].
      * rewrite item_succ. rewrite (lookup_ge_None_2 abs (S i)); [done|lia].
      * rewrite item_succ.
        destruct (lookup_lt_is_Some_2 abs (S i)) as [b ->]; [lia|done].
  - unfold Part001.getPairedAnchor, pairedIndex. destruct type; cbn [is_post negb andb].
    + rewrite item_pred. destruct (Z.eqb_spec (Z.of_nat i) 0) as [E|E].
      * destruct i; [done|lia].
      * destruct i as [|j]; [lia|].
        destruct (lookup_lt_is_Some_2 abs j) as [b Hb]; [lia|]. rewrite Hb.
        split; intros; done.
    + rewrite item_succ.
      destruct (Z.eqb_spec (Z.of_nat i) (Z.of_nat (length abs) - 1)) as [E|E].
      * split; [intros _|done]. apply lookup_ge_None_2. lia.
      * destruct (lookup_lt_is_Some_2 abs (S i)) as [b Hb]; [lia|]. rewrite Hb.
        split; intros; done.
  - intros k. unfold Part001.getPairedAnchor. cbn [is_post negb andb].
    destruct (Z.eqb_spec (Z.of_nat (length abs + k)) (Z.of_nat (length abs) - 1));
      [lia|].
    rewrite item_succ. rewrite (lookup_ge_None_2 abs (S (length abs + k))); [done|lia].
Qed.

Lemma getPairedAnchor_neighbour_witness :
  Part001.first (Part001.getPairedAnchor three_anchors Pre (Z.of_nat 1))
  = Ok (fst <$> item three_anchors (pairedIndex Pre 1))
  /\ (Part001.getPairedAnchor three_anchors Pre (Z.of_nat 1) = Part001.NoPair
      <-> item three_anchors (pairedIndex Pre 1) = None)
  /\ (forall k : nat,
        Part001.first
          (Part001.getPairedAnchor three_anchors Post (Z.of_nat (length three_anchors + k)))
        = Throw TypeError).
Proof.
  apply (getPairedAnchor_neighbour three_anchors Pre 1). simpl. lia.
Defined.

(** ** The revisions of [addAnchor] *)
Section Revisions.

Variable LookupMap : Type.
Variable createLookupMap : Anchor -> Anchor -> LookupMap.
Variable getValueFromSegments : list (Segment LookupMap) -> Q -> Outcome Q.

Local Abbreviation add := (addAnchor LookupMap createLookupMap getValueFromSegments).
Local Abbreviation add000 :=
  (addAnchor_part000 LookupMap createLookupMap getValueFromSegments).

(** X23.  When [findIndex] finds the place of the new anchor after the
    first one, [addAnchor] of part_000 and [addAnchor] of
    create-timeline.tsx do the same, with a given value and with the value
    left to [getValue]. *)
Theorem addAnchor_revisions_agree_inside (anchors : Anchors) (time : Q)
    (value : option Q) (k : nat) :
  findIndex (fun a : Anchor => Qltb time (x a.1)) anchors = Z.of_nat (S k) ->
  add time value anchors = add000 time value anchors.
Proof.
  intros E.
  unfold addAnchor, addAnchor_part000, mbind, mret, M_bind, M_ret, get, put.
  destruct (default_value LookupMap createLookupMap getValueFromSegments time value anchors)
    as [s [v|ex]] eqn:Ev; [|done].
  assert (s = anchors) as ->.
  { unfold default_value, mret, M_ret, mbind, M_bind, get, lift in Ev.
    destruct value; by injection Ev. }
  rewrite E. destruct (Z.eqb_spec (Z.of_nat (S k)) (-1)); [lia|].
  by destruct (Z.eqb_spec (Z.of_nat (S k)) 0); [lia|].
Qed.

End Revisions.

Lemma addAnchor_revisions_agree_inside_witness :
  sampledAddAnchor 5 None two_anchors = sampledAddAnchor_part000 5 None two_anchors.
Proof.
  apply (addAnchor_revisions_agree_inside (list Vector) (Sampler.createLookupMap 4)
           Sampler.getValueFromSegments two_anchors 5 None 0).
  reflexivity.
Defined.


(** ** The ratio of symmetric mode *)





(** ** Times after the last anchor, and the empty store *)

(** [findIndex] answers [-1] when no element satisfies the test. *)
Lemma findIndex_none {A} (p : A -> bool) (l : list A) :
  (forall a : A, a ∈ l -> p a = false) -> findIndex p l = (-1)%Z.
Proof.
  intros Hall. destruct (findIndex_from_spec p l 0) as [[E _]|(k & a & _ & Ha & Hp & _)].
  - done.
  - rewrite (Hall a) in Hp; [done|]. by apply list_elem_of_lookup_2 in Ha.
Qed.

Lemma splice_nil {A} (start count : Z) : splice (@nil A) start count [] = [].
Proof. unfold splice. by rewrite take_nil, drop_nil. Qed.

Section NeverAppends.

Variable LookupMap : Type.
Variable createLookupMap : Anchor -> Anchor -> LookupMap.
Variable getValueFromSegments : list (Segment LookupMap) -> Q -> Outcome Q.

Local Abbreviation add := (addAnchor LookupMap createLookupMap getValueFromSegments).
Local Abbreviation add000 :=
  (addAnchor_part000 LookupMap createLookupMap getValueFromSegments).
Local Abbreviation sample := (getValue LookupMap createLookupMap getValueFromSegments).

(** X25.  [addAnchor] of create-timeline.tsx (and part_001) never appends:
    when no anchor is later than the time, on an empty store in particular,
    it leaves the store as it is; it returns, unless the value is left to
    [getValue] and [getValue] throws.  On an empty store [addAnchor] of
    part_000 never returns: it throws [TypeError] reading the last anchor,
    or what [getValue] threw before that; [getValue] hands the sampler no
    segment there, and [deleteAnchor] leaves the store empty whatever the
    index. *)
Theorem addAnchor_never_appends (anchors : Anchors) (time : Q) (value : option Q) :
  (forall a : Anchor, a ∈ anchors -> x a.1 <= time) ->
  add time value anchors
  = (anchors,
     match value, sample anchors time with
     | None, Throw ex => Throw ex
     | _, _ => Ok tt
     end)
  /\ (anchors = [] ->
      add000 time value anchors
      = ([], match value, getValueFromSegments [] time with
             | None, Throw ex => Throw ex
             | _, _ => Throw TypeError
             end)
      /\ sample anchors time = getValueFromSegments [] time
      /\ forall index : Z, deleteAnchor index anchors = ([], Ok tt)).
Proof.
  intros Hall.
  assert (E : findIndex (fun a : Anchor => Qltb time (x a.1)) anchors = (-1)%Z).
  { apply findIndex_none. intros a Ha. apply Qltb_ge. by apply Hall. }
  split.
  - unfold addAnchor, default_value, mbind, mret, M_bind, M_ret, get, put, lift.
    destruct value as [v|].
    + rewrite E. by destruct (sample anchors time).
    + destruct (sample anchors time) as [v|ex]; [|done]. by rewrite E.
  - intros ->. split; [|split].
    + unfold addAnchor_part000, default_value, mbind, mret, M_bind, M_ret,
        get, put, lift.
      destruct value as [v|].
      * by destruct (getValueFromSegments [] time).
      * change (sample [] time) with (getValueFromSegments [] time).
        by destruct (getValueFromSegments [] time).
    + reflexivity.
    + intros index. rewrite deleteAnchor_eq. by rewrite splice_nil.
Qed.

End NeverAppends.

Lemma addAnchor_never_appends_witness :
  sampledAddAnchor 20 (Some 0) two_anchors = (two_anchors, Ok tt)
  /\ sampledAddAnchor 10 None two_anchors = (two_anchors, Ok tt).
Proof.
  split.
  - apply (addAnchor_never_appends (list Vector) (Sampler.createLookupMap 4)
             Sampler.getValueFromSegments two_anchors 20 (Some 0)).
    intros a Ha. apply elem_of_cons in Ha as [->|Ha];
      [|apply elem_of_cons in Ha as [->|Ha]; [|by apply elem_of_nil in Ha]];
      simpl; vm_compute; discriminate.
  - apply (addAnchor_never_appends (list Vector) (Sampler.createLookupMap 4)
             Sampler.getValueFromSegments two_anchors 10 None).
    intros a Ha. apply elem_of_cons in Ha as [->|Ha];
      [|apply elem_of_cons in Ha as [->|Ha]; [|by apply elem_of_nil in Ha]];
      simpl; vm_compute; discriminate.
Defined.

(** ** The clamps of the two revisions *)

(** With the anchor and its paired neighbour in time order, the two clamps
    of [onAnchorChange] give what the [Math.max] and [Math.min] of
    [absoluteToRelativeControl] give. *)
Lemma clamped_twice_sorted (type : ControlType) (p q a : Q) :
  (if is_post type then p < q else q < p) ->
  clamped_twice type p q a == clamped type p q a.
Proof.
  intros Hpq. unfold clamped_twice, clamped.
  destruct type; cbn [is_post negb andb orb] in *; rewrite ?orb_false_r.
  - pose proof (Q.min_spec p a) as Hmin. remember (Qmin p a) as m eqn:Em.
    pose proof (Q.max_spec q m) as Hmax. remember (Qmax q m) as M eqn:EM.
    clear Em EM.
    destruct (Qltb a q) eqn:E1; [apply Qltb_lt in E1|apply Qltb_ge in E1].
    + destruct (Qltb p q) eqn:E2; [apply Qltb_lt in E2; lra|apply Qltb_ge in E2].
      destruct Hmin as [[? ?]|[? ?]]; destruct Hmax as [[? ?]|[? ?]]; lra.
    + destruct (Qltb p a) eqn:E2; [apply Qltb_lt in E2|apply Qltb_ge in E2];
        destruct Hmin as [[? ?]|[? ?]]; destruct Hmax as [[? ?]|[? ?]]; lra.
  - pose proof (Q.min_spec q a) as Hmin. remember (Qmin q a) as m eqn:Em.
    pose proof (Q.max_spec p m) as Hmax. remember (Qmax p m) as M eqn:EM.
    clear Em EM.
    destruct (Qltb q a) eqn:E1; [apply Qltb_lt in E1|apply Qltb_ge in E1].
    + destruct (Qltb q p) eqn:E2; [apply Qltb_lt in E2; lra|apply Qltb_ge in E2].
      destruct Hmin as [[? ?]|[? ?]]; destruct Hmax as [[? ?]|[? ?]]; lra.
    + destruct (Qltb a p) eqn:E2; [apply Qltb_lt in E2|apply Qltb_ge in E2];
        destruct Hmin as [[? ?]|[? ?]]; destruct Hmax as [[? ?]|[? ?]]; lra.
Qed.

Lemma clamped_comp (type : ControlType) (p q a a' : Q) :
  a == a' -> clamped type p q a == clamped type p q a'.
Proof.
  intros E. unfold clamped. destruct type; cbn [is_post].
  - pose proof (Q.min_spec p a) as H1. remember (Qmin p a) as m1 eqn:E1.
    pose proof (Q.min_spec p a') as H2. remember (Qmin p a') as m2 eqn:E2.
    pose proof (Q.max_spec q m1) as H3. remember (Qmax q m1) as M1 eqn:E3.
    pose proof (Q.max_spec q m2) as H4. remember (Qmax q m2) as M2 eqn:E4.
    clear E1 E2 E3 E4.
    destruct H1 as [[? ?]|[? ?]]; destruct H2 as [[? ?]|[? ?]];
      destruct H3 as [[? ?]|[? ?]]; destruct H4 as [[? ?]|[? ?]]; lra.
  - pose proof (Q.min_spec q a) as H1. remember (Qmin q a) as m1 eqn:E1.
    pose proof (Q.min_spec q a') as H2. remember (Qmin q a') as m2 eqn:E2.
    pose proof (Q.max_spec p m1) as H3. remember (Qmax p m1) as M1 eqn:E3.
    pose proof (Q.max_spec p m2) as H4. remember (Qmax p m2) as M2 eqn:E4.
    clear E1 E2 E3 E4.
    destruct H1 as [[? ?]|[? ?]]; destruct H2 as [[? ?]|[? ?]];
      destruct H3 as [[? ?]|[? ?]]; destruct H4 as [[? ?]|[? ?]]; lra.
Qed.

(** X26.  The two revisions clamp alike.  On a time-sorted store, for the
    same candidate position of a handle, [onAnchorChange] of
    create-timeline.tsx stores the descriptor that
    [absoluteToRelativeControl] of part_001 computes: its two comparisons
    give what [Math.max] and [Math.min] give there. *)
Theorem control_clamps_agree
    (zoomY originY : Q) (anchors : Anchors) (type : ControlType) (i : nat)
    (p : Vector) (c : Controls) (n : Anchor) (v : Vector) :
  time_sorted anchors ->
  handles_face_neighbours anchors ->
  anchors !! i = Some (p, Some c) ->
  item anchors (pairedIndex type i) = Some n ->
  exists (abs : list Anchor) (r r' : Vector),
    absoluteAnchors anchors = Ok abs
    /\ Part001.absoluteToRelativeControl abs type (Z.of_nat i) v = Ok r
    /\ stored_control
         (CreateTimeline.onAnchorChange zoomY originY type (Z.of_nat i) v anchors).1 i type
       = Some r'
    /\ veq r' r.
Proof.
  intros Hs Hf Ha Hn. pose proof (lookup_lt_Some _ _ _ Ha) as Hi.
  destruct (absoluteAnchors_total _ Hf) as [abs Habs].
  assert (Hpq : if is_post type then x p < x n.1 else x n.1 < x p).
  { unfold pairedIndex in Hn. destruct type; cbn [is_post] in *.
    - rewrite item_pred in Hn. destruct i as [|j]; [done|].
      apply (time_sorted_adjacent _ Hs j _ _ Hn Ha).
    - rewrite item_succ in Hn. apply (time_sorted_adjacent _ Hs i _ _ Ha Hn). }
  assert (Hd : ~ x p == x n.1) by (destruct type; cbn [is_post] in Hpq; lra).
  exists abs. eexists _, _. split; [done|]. split.
  - apply (absoluteToRelativeControl_run anchors abs type i (p, Some c) n v Habs Ha Hn).
  - rewrite (onAnchorChange_run zoomY originY _ _ _ _ _ _ v Hf Ha Hn). cbn [fst].
    rewrite stored_control_insert by done. rewrite control_set_control.
    split; [done|]. unfold relativeControl. split; cbn [x y fst]; [|done].
    assert (E : clamped_twice type (x p) (x n.1)
                  (CreateTimeline.unproject zoomY originY v CreateTimeline.AxisX)
                == clamped type (x p) (x n.1) (x v)).
    { rewrite (clamped_twice_sorted _ _ _ _ Hpq).
      apply clamped_comp, unproject_x. }
    rewrite E. reflexivity.
Qed.

Lemma control_clamps_agree_witness :
  exists (abs : list Anchor) (r r' : Vector),
    absoluteAnchors uneven_anchors = Ok abs
    /\ Part001.absoluteToRelativeControl abs Post (Z.of_nat 1) {| x := 50; y := 3 |} = Ok r
    /\ stored_control
         (CreateTimeline.onAnchorChange 1 0 Post (Z.of_nat 1) {| x := 50; y := 3 |}
            uneven_anchors).1 1 Post
       = Some r'
    /\ veq r' r.
Proof.
  apply (control_clamps_agree 1 0 uneven_anchors Post 1 {| x := 10; y := 0 |}
           {| pre := Some default_control; post := Some default_control |}
           ({| x := 30; y := 0 |}, Some {| pre := Some default_control; post := None |})
           {| x := 50; y := 3 |}).
  - simpl. repeat split; reflexivity.
  - unfold handles_face_neighbours; simpl. repeat split; intros; done.
  - reflexivity.
  - reflexivity.
Defined.

(** ** The store under a position drag *)

(** X27.  A position drag of any length, in part_001 and in
    create-timeline.tsx, returns, writes only the position of the dragged
    anchor, keeps every handle facing a neighbour and the relative [x] of
    the handles in [[0, 1]], so the deriver returns on the store it leaves,
    whether or not the neighbours leave room for the anchor. *)
Theorem position_drag_keeps_handles
    (zoom : Vector) (zoomY : Q) (anchors : Anchors) (i : nat) (p : Vector)
    (c : option Controls) (events : list PointerEvent) (deltas : list Vector) :
  handles_face_neighbours anchors ->
  anchors !! i = Some (p, c) ->
  (exists q : Vector,
      Part001.startPositionDrag zoom (Z.of_nat i) events anchors
      = (<[i := (q, c)]> anchors, Ok tt)
      /\ handles_face_neighbours (<[i := (q, c)]> anchors)
      /\ (handles_normalized anchors -> handles_normalized (<[i := (q, c)]> anchors))
      /\ exists abs : list Anchor, absoluteAnchors (<[i := (q, c)]> anchors) = Ok abs)
  /\ (exists q : Vector,
        CreateTimeline.startPositionDrag zoomY (Z.of_nat i) deltas anchors
        = (<[i := (q, c)]> anchors, Ok tt)
        /\ handles_face_neighbours (<[i := (q, c)]> anchors)
        /\ (handles_normalized anchors -> handles_normalized (<[i := (q, c)]> anchors))
        /\ exists abs : list Anchor, absoluteAnchors (<[i := (q, c)]> anchors) = Ok abs).
Proof.
  intros Hf Ha. pose proof (lookup_lt_Some _ _ _ Ha) as Hi.
  assert (Hkeep : forall q : Vector,
             handles_face_neighbours (<[i := (q, c)]> anchors)
             /\ (handles_normalized anchors -> handles_normalized (<[i := (q, c)]> anchors))
             /\ exists abs : list Anchor, absoluteAnchors (<[i := (q, c)]> anchors) = Ok abs).
  { intros q. pose proof (handles_face_move _ _ p q c Hf Ha) as Hf'.
    split; [done|]. split; [|by apply absoluteAnchors_total].
    unfold handles_normalized. intros Hn. apply Forall_insert; [done|].
    rewrite Forall_lookup in Hn. apply (Hn i _ Ha). }
  destruct (absoluteAnchors_total _ Hf) as [abs Habs].
  destruct (absoluteAnchors_lookup _ _ _ _ Habs Ha) as (b & Hb & Hcb).
  split.
  - destruct (decide (events = [])) as [->|Hne].
    + exists p. split; [|apply Hkeep].
      unfold Part001.startPositionDrag, rendered, mbind, M_bind, get, lift.
      rewrite Habs, item_nat, Hb. simpl.
      unfold Part001.onPositionDragStart, mbind, M_bind, get, lift. rewrite Habs.
      rewrite !(getPairedAnchor_first _ _ _ _ Habs Hi). simpl.
      by rewrite list_insert_id.
    + destruct (exists_last Hne) as (es & e & ->).
      eexists. split; [by apply startPositionDrag_last|apply Hkeep].
  - destruct (decide (deltas = [])) as [->|Hne].
    + exists p. split; [|apply Hkeep].
      unfold CreateTimeline.startPositionDrag, rendered, mbind, M_bind, get, lift.
      rewrite Habs, item_nat, Hb. simpl. by rewrite list_insert_id.
    + destruct (exists_last Hne) as (ds & d & ->).
      eexists. split; [by apply createTimeline_startPositionDrag_last|apply Hkeep].
Qed.

Lemma position_drag_keeps_handles_witness :
  let c := Some {| pre := Some default_control; post := Some default_control |} in
  exists q : Vector,
    Part001.startPositionDrag {| x := 1; y := 1 |} (Z.of_nat 1)
      [{| delta := {| x := 7; y := 0 |}; metaKey := false |}] three_anchors
    = (<[1%nat := (q, c)]> three_anchors, Ok tt)
    /\ handles_face_neighbours (<[1%nat := (q, c)]> three_anchors)
    /\ (handles_normalized three_anchors
        -> handles_normalized (<[1%nat := (q, c)]> three_anchors))
    /\ exists abs : list Anchor, absoluteAnchors (<[1%nat := (q, c)]> three_anchors) = Ok abs.
Proof.
  destruct (position_drag_keeps_handles {| x := 1; y := 1 |} 1 three_anchors 1
              {| x := 5; y := 5 |}
              (Some {| pre := Some default_control; post := Some default_control |})
              [{| delta := {| x := 7; y := 0 |}; metaKey := false |}] [])
    as [H _].
  - unfold handles_face_neighbours; simpl. repeat split; intros; done.
  - reflexivity.
  - exact H.
Defined.
